(** * batchAdiabaticOdeSystem: the adiabatic batch reactor ODE system

    A shallow embedding of
    [Training/BatchReactor/02-adiabatic/batchAdiabaticOdeSystem.H]:
    the right-hand side ([derivatives]) and the Jacobian ([jacobian]) of a
    closed, adiabatic batch reactor, as handed to an OpenFOAM ODE solver.

    - A C++ [double] is a [Scalar]: the operations the file uses, with the
      instance [binary64] (the primitive IEEE 754 floats, what the compiled
      code computes with). What holds whatever the arithmetic is stated for
      every [Scalar]; what depends on rounding, on the infinities or on NaN
      is stated on [binary64].
    - The OpenSMOKE++ maps are external: their answers are the fields of
      [OpenSMOKE], their mutable state (the temperature and pressure pushed
      into them) is the [World], threaded through a state monad that also
      records every service call.
    - An index outside a field is undefined behaviour in C++: the monad
      returns [None] there. *)

From Stdlib Require Import PrimFloat.
From Stdlib Require FloatAxioms.
From Stdlib Require Import ZArith List Lia.
From Stdlib Require Import Reals Lra.
From stdpp Require Import base tactics option list numbers.
From Stdlib Require Import SpecFloat.

Set Default Proof Using "Type".

(** ** Scalars *)

Declare Scope scalar_scope.
Delimit Scope scalar_scope with D.

(** The operations on [double] that the source uses. *)
Class Scalar (D : Type) := {
  lit_0 : D;                   (* the literal [0.] *)
  lit_1e_4 : D;                (* the literal [1e-4] *)
  sadd : D -> D -> D;
  ssub : D -> D -> D;
  smul : D -> D -> D;
  sdiv : D -> D -> D;
  sltb : D -> D -> bool;       (* [operator<] *)
  fabs : D -> D                (* [std::fabs] *)
}.

Infix "+" := sadd : scalar_scope.
Infix "-" := ssub : scalar_scope.
Infix "*" := smul : scalar_scope.
Infix "/" := sdiv : scalar_scope.
Infix "<?" := sltb : scalar_scope.

(** IEEE 754 binary64, round to nearest even: the arithmetic of the compiled
    code. [1e-4] is the double nearest to one ten-thousandth. *)
Instance binary64 : Scalar PrimFloat.float := {|
  lit_0 := 0%float;
  lit_1e_4 := 0x1.a36e2eb1c432dp-14%float;
  sadd := PrimFloat.add;
  ssub := PrimFloat.sub;
  smul := PrimFloat.mul;
  sdiv := PrimFloat.div;
  sltb := PrimFloat.ltb;
  fabs := PrimFloat.abs
|}.

Section Model.

Context {D : Type} `{Scalar D}.

Local Open Scope scalar_scope.

(** [std::max(a, b)]: [(a < b) ? b : a]. *)
Definition std_max (a b : D) : D := if a <? b then b else a.

(** [Eigen::VectorXd::sum()]: zero for an empty vector, otherwise the
    coefficients added one by one to the first (the scalar, left to right,
    reduction). *)
Definition sum (c : list D) : D :=
  match c with
  | [] => lit_0
  | c0 :: rest => fold_left sadd rest c0
  end.

(** ** The external services *)

(** What the kinetics map computes its rates from: the state of both maps
    when [ReactionRates] was called, and the concentrations passed to it. *)
Record RatesInput := {
  at_thermo_T : D;
  at_thermo_P : D;
  at_kinetics_T : D;
  at_kinetics_P : D;
  at_c : list D
}.

(** The answers of the OpenSMOKE++ library, which is not part of the
    repository: the constant [PhysicalConstants::R_J_kmol] and the queries of
    [ThermodynamicsMap_CHEMKIN] and [KineticsMap_CHEMKIN]. A query answers
    from its arguments and from the temperature and pressure set in the maps;
    [FormationRates] and [DerivativesOfFormationRates] fill a vector and a
    matrix, given here by index. *)
Record OpenSMOKE := {
  R_J_kmol : D;
  NumberOfSpecies : nat;
  MolecularWeight_From_MoleFractions : list D -> D;
  GetTemperatureFromEnthalpyAndMoleFractions : D -> D -> list D -> D -> D;
  FormationRates : RatesInput -> nat -> D;
  DerivativesOfFormationRates : RatesInput -> nat -> nat -> D
}.

(** The mutable state of the two maps. *)
Record ThermodynamicsMap_CHEMKIN := {
  thermo_T : D;
  thermo_P : D
}.

Record KineticsMap_CHEMKIN := {
  kinetics_T : D;
  kinetics_P : D;
  rates : RatesInput           (* what the last [ReactionRates] call saw *)
}.

(** A call to a service, with its arguments. *)
Inductive Call :=
| Thermo_MolecularWeight_From_MoleFractions (x : list D)
| Thermo_GetTemperatureFromEnthalpyAndMoleFractions (H P : D) (x : list D) (T : D)
| Thermo_SetTemperature (T : D)
| Thermo_SetPressure (P : D)
| Kinetics_SetTemperature (T : D)
| Kinetics_SetPressure (P : D)
| Kinetics_ReactionRates (c : list D)
| Kinetics_FormationRates
| Kinetics_DerivativesOfFormationRates (c : list D).

Definition is_kinetics_call (e : Call) : bool :=
  match e with
  | Kinetics_SetTemperature _ | Kinetics_SetPressure _
  | Kinetics_ReactionRates _ | Kinetics_FormationRates
  | Kinetics_DerivativesOfFormationRates _ => true
  | _ => false
  end.

Definition is_closure_iteration (e : Call) : bool :=
  match e with
  | Thermo_GetTemperatureFromEnthalpyAndMoleFractions _ _ _ _ => true
  | _ => false
  end.

(** The maps the reactor object refers to (they are shared with the caller),
    and the calls made so far, oldest first. *)
Record World := {
  thermoMap_ : ThermodynamicsMap_CHEMKIN;
  kineticsMap_ : KineticsMap_CHEMKIN;
  calls : list Call
}.

(** ** A state monad over the world; [None] is undefined behaviour *)

Definition M (A : Type) : Type := World -> option (A * World).

#[global] Instance M_ret : MRet M := fun A a w => Some (a, w).
#[global] Instance M_bind : MBind M := fun A B f m w =>
  match m w with
  | Some (a, w') => f a w'
  | None => None
  end.

(** [l[i]] for reading: defined inside the field only. *)
Definition index {A} (l : list A) (i : nat) : M A :=
  fun w => match l !! i with Some v => Some (v, w) | None => None end.

(** [l[i] = v]: defined inside the field only. *)
Definition assign {A} (l : list A) (i : nat) (v : A) : M (list A) :=
  fun w => if decide (i < length l)%nat then Some (<[i:=v]> l, w) else None.

(** [for (unsigned int i=0;i<n;i++) body]: the body runs for 0, 1, ..., n-1
    on the variables [a] it updates. *)
Fixpoint for_ {A} (n : nat) (body : nat -> A -> M A) (a : A) : M A :=
  match n with
  | O => mret a
  | S n' => a' ← for_ n' body a; body n' a'
  end.

(** A fresh [Eigen::VectorXd v(n)] whose coefficients are then set one by one
    in a [for] loop: the vector holds no value that can be named before the
    loop, so it is built up as the loop goes. *)
Definition fill (n : nat) (coeff : nat -> M D) : M (list D) :=
  for_ n (fun i v => vi ← coeff i; mret (v ++ [vi])) [].

Section Services.

Variable lib : OpenSMOKE.

Definition record (e : Call) (w : World) : World :=
  {| thermoMap_ := thermoMap_ w; kineticsMap_ := kineticsMap_ w;
     calls := calls w ++ [e] |}.

Definition thermoMap_MolecularWeight_From_MoleFractions (x : list D) : M D :=
  fun w => Some (MolecularWeight_From_MoleFractions lib x,
                 record (Thermo_MolecularWeight_From_MoleFractions x) w).

Definition thermoMap_GetTemperatureFromEnthalpyAndMoleFractions
    (H P : D) (x : list D) (T : D) : M D :=
  fun w => Some (GetTemperatureFromEnthalpyAndMoleFractions lib H P x T,
                 record (Thermo_GetTemperatureFromEnthalpyAndMoleFractions H P x T) w).

Definition thermoMap_SetTemperature (T : D) : M unit :=
  fun w => Some (tt,
    record (Thermo_SetTemperature T)
      {| thermoMap_ := {| thermo_T := T; thermo_P := thermo_P (thermoMap_ w) |};
         kineticsMap_ := kineticsMap_ w; calls := calls w |}).

Definition thermoMap_SetPressure (P : D) : M unit :=
  fun w => Some (tt,
    record (Thermo_SetPressure P)
      {| thermoMap_ := {| thermo_T := thermo_T (thermoMap_ w); thermo_P := P |};
         kineticsMap_ := kineticsMap_ w; calls := calls w |}).

Definition kineticsMap_SetTemperature (T : D) : M unit :=
  fun w => Some (tt,
    record (Kinetics_SetTemperature T)
      {| thermoMap_ := thermoMap_ w;
         kineticsMap_ := {| kinetics_T := T;
                            kinetics_P := kinetics_P (kineticsMap_ w);
                            rates := rates (kineticsMap_ w) |};
         calls := calls w |}).

Definition kineticsMap_SetPressure (P : D) : M unit :=
  fun w => Some (tt,
    record (Kinetics_SetPressure P)
      {| thermoMap_ := thermoMap_ w;
         kineticsMap_ := {| kinetics_T := kinetics_T (kineticsMap_ w);
                            kinetics_P := P;
                            rates := rates (kineticsMap_ w) |};
         calls := calls w |}).

(** The state of the maps the kinetics map reads when it evaluates at [c]. *)
Definition rates_input (w : World) (c : list D) : RatesInput :=
  {| at_thermo_T := thermo_T (thermoMap_ w);
     at_thermo_P := thermo_P (thermoMap_ w);
     at_kinetics_T := kinetics_T (kineticsMap_ w);
     at_kinetics_P := kinetics_P (kineticsMap_ w);
     at_c := c |}.

Definition kineticsMap_ReactionRates (c : list D) : M unit :=
  fun w => Some (tt,
    record (Kinetics_ReactionRates c)
      {| thermoMap_ := thermoMap_ w;
         kineticsMap_ := {| kinetics_T := kinetics_T (kineticsMap_ w);
                            kinetics_P := kinetics_P (kineticsMap_ w);
                            rates := rates_input w c |};
         calls := calls w |}).

(** [FormationRates(R.data())]: fills the [NumberOfSpecies] entries of [R]. *)
Definition kineticsMap_FormationRates : M (list D) :=
  fun w => Some (map (FormationRates lib (rates (kineticsMap_ w)))
                     (seq 0 (NumberOfSpecies lib)),
                 record Kinetics_FormationRates w).

(** [DerivativesOfFormationRates(c.data(), &dR_over_dC)]: fills the square
    matrix, read back as [dR_over_dC(i,j)]. *)
Definition kineticsMap_DerivativesOfFormationRates (c : list D) : M (nat -> nat -> D) :=
  fun w => Some (DerivativesOfFormationRates lib (rates_input w c),
                 record (Kinetics_DerivativesOfFormationRates c) w).

(** ** The reactor object *)

Record batchAdiabaticOdeSystem := {
  TInitial_ : D;               (* initial temperature (in K) *)
  PInitial_ : D;               (* initial pressure (in Pa) *)
  U_ : D;                      (* mass internal energy, constant (in J/kg) *)
  maxIterations_ : Z           (* max number iterations for estimating the pressure *)
}.

(** The constructor sets [maxIterations_] only; the three doubles hold
    whatever the memory held, given here as arguments. *)
Definition constructor (T0 P0 U0 : D) : batchAdiabaticOdeSystem :=
  {| TInitial_ := T0; PInitial_ := P0; U_ := U0; maxIterations_ := 10 |}.

Definition setInitialTemperature (this : batchAdiabaticOdeSystem) (TInitial : D) :=
  {| TInitial_ := TInitial; PInitial_ := PInitial_ this; U_ := U_ this;
     maxIterations_ := maxIterations_ this |}.

Definition setInitialPressure (this : batchAdiabaticOdeSystem) (PInitial : D) :=
  {| TInitial_ := TInitial_ this; PInitial_ := PInitial; U_ := U_ this;
     maxIterations_ := maxIterations_ this |}.

Definition setInternalEnergy (this : batchAdiabaticOdeSystem) (U : D) :=
  {| TInitial_ := TInitial_ this; PInitial_ := PInitial_ this; U_ := U;
     maxIterations_ := maxIterations_ this |}.

Definition nEqns (this : batchAdiabaticOdeSystem) : nat := NumberOfSpecies lib.

(** The objects a program can hold: built by the constructor, changed by the
    setters. *)
Inductive constructed : batchAdiabaticOdeSystem -> Prop :=
| constructed_new T0 P0 U0 : constructed (constructor T0 P0 U0)
| constructed_setT this T : constructed this -> constructed (setInitialTemperature this T)
| constructed_setP this P : constructed this -> constructed (setInitialPressure this P)
| constructed_setU this U : constructed this -> constructed (setInternalEnergy this U).

(** ** [derivatives] *)

(** The loop of lines 97-104, [n] iterations left. *)
Fixpoint derivatives_closure (this : batchAdiabaticOdeSystem) (n : nat)
    (cTot mw : D) (x : list D) (P T : D) : M (D * D) :=
  match n with
  | O => mret (T, P)
  | S n' =>
      let Pold := P in
      let H := U_ this + P / (cTot * mw) in
      T ← thermoMap_GetTemperatureFromEnthalpyAndMoleFractions (H * mw) P x T;
      let P := cTot * (R_J_kmol lib * T) in
      if fabs (P - Pold) / P <? lit_1e_4 then mret (T, P)
      else derivatives_closure this n' cTot mw x P T
  end.

Definition derivatives (this : batchAdiabaticOdeSystem) (t : D)
    (cc dcdt : list D) : M (list D) :=
  (* Reconstruct concentrations and mole fractions *)
  c ← fill (NumberOfSpecies lib) (fun i => cci ← index cc i; mret (std_max cci lit_0));
  let cTot := sum c in
  x ← fill (NumberOfSpecies lib) (fun i => ci ← index c i; mret (ci / cTot));
  mw ← thermoMap_MolecularWeight_From_MoleFractions x;
  (* Calculate temperature and pressure (by successive substitutions) *)
  '(T, P) ← derivatives_closure this (Z.to_nat (maxIterations_ this)) cTot mw x
              (PInitial_ this) (TInitial_ this);
  (* Calculates thermodynamic properties *)
  _ ← thermoMap_SetTemperature T;
  _ ← thermoMap_SetPressure P;
  (* Calculates kinetics *)
  _ ← kineticsMap_SetTemperature T;
  _ ← kineticsMap_SetPressure P;
  _ ← kineticsMap_ReactionRates c;
  R ← kineticsMap_FormationRates;
  (* Species equations *)
  for_ (NumberOfSpecies lib) (fun i dcdt => Ri ← index R i; assign dcdt i Ri) dcdt.

(** ** [jacobian] *)

(** The loop of lines 137-144, [n] iterations left. *)
Fixpoint jacobian_closure (this : batchAdiabaticOdeSystem) (n : nat)
    (cTot mw : D) (x : list D) (P T : D) : M (D * D) :=
  match n with
  | O => mret (T, P)
  | S n' =>
      let Pold := P in
      let H := U_ this + P / (cTot * mw) in
      T ← thermoMap_GetTemperatureFromEnthalpyAndMoleFractions (H * mw) P x T;
      let P := cTot * (R_J_kmol lib * T) in
      if fabs (P - Pold) / P <? lit_1e_4 then mret (T, P)
      else jacobian_closure this n' cTot mw x P T
  end.

(** [dfdc[i][j] = v]: row [i] must exist and have a column [j]. *)
Definition assign2 (m : list (list D)) (i j : nat) (v : D) : M (list (list D)) :=
  row ← index m i;
  row' ← assign row j v;
  assign m i row'.

Definition jacobian (this : batchAdiabaticOdeSystem) (t : D) (cc dfdt : list D)
    (dfdc : list (list D)) : M (list D * list (list D)) :=
  (* Reconstruct concentrations and mole fractions *)
  c ← fill (NumberOfSpecies lib) (fun i => cci ← index cc i; mret (std_max cci lit_0));
  let cTot := sum c in
  x ← fill (NumberOfSpecies lib) (fun i => ci ← index c i; mret (ci / cTot));
  mw ← thermoMap_MolecularWeight_From_MoleFractions x;
  (* Calculate temperature and pressure (by successive substitutions) *)
  '(T, P) ← jacobian_closure this (Z.to_nat (maxIterations_ this)) cTot mw x
              (PInitial_ this) (TInitial_ this);
  (* Set maps *)
  _ ← thermoMap_SetTemperature T;
  _ ← thermoMap_SetPressure P;
  _ ← kineticsMap_SetTemperature T;
  _ ← kineticsMap_SetPressure P;
  (* Derivative of formation rates with respect to concentrations (in 1/s) *)
  dR_over_dC ← kineticsMap_DerivativesOfFormationRates c;
  dfdt ← for_ (NumberOfSpecies lib) (fun i dfdt => assign dfdt i lit_0) dfdt;
  dfdc ← for_ (NumberOfSpecies lib) (fun i dfdc =>
            for_ (NumberOfSpecies lib) (fun j dfdc =>
              assign2 dfdc i j (dR_over_dC i j)) dfdc) dfdc;
  mret (dfdt, dfdc).

End Services.

End Model.

Arguments RatesInput D : clear implicits.
Arguments OpenSMOKE D : clear implicits.
Arguments ThermodynamicsMap_CHEMKIN D : clear implicits.
Arguments KineticsMap_CHEMKIN D : clear implicits.
Arguments Call D : clear implicits.
Arguments World D : clear implicits.
Arguments M D A : clear implicits.
Arguments batchAdiabaticOdeSystem D : clear implicits.

(** ** The computation in closed form

    The quantities the two entry points compute, written as plain functions
    of the input: what the loops of the source are shown to produce. *)

Section Closed_form.

Context {D : Type} `{Scalar D}.

Variable lib : OpenSMOKE D.
Variable this : batchAdiabaticOdeSystem D.

Local Open Scope scalar_scope.

(** Lines 85-87: every entry clipped at zero. *)
Definition clipped (cc : list D) : list D :=
  map (fun cci => std_max cci lit_0) cc.

(** Lines 88-91: each concentration over the total. *)
Definition mole_fractions (c : list D) : list D :=
  map (fun ci => ci / sum c) c.

(** Step a of the closure: the target mass enthalpy. *)
Definition target_enthalpy (P cTot mw : D) : D :=
  U_ this + P / (cTot * mw).

(** The query one iteration sends to the thermodynamic map. *)
Definition closure_query (cTot mw : D) (x : list D) (TP : D * D) : Call D :=
  Thermo_GetTemperatureFromEnthalpyAndMoleFractions
    (target_enthalpy (snd TP) cTot mw * mw) (snd TP) x (fst TP).

(** Steps a to c: one iteration, from the previous (T, P) to the next. *)
Definition closure_step (cTot mw : D) (x : list D) (TP : D * D) : D * D :=
  let T := GetTemperatureFromEnthalpyAndMoleFractions lib
             (target_enthalpy (snd TP) cTot mw * mw) (snd TP) x (fst TP) in
  (T, cTot * (R_J_kmol lib * T)).

(** Step d: the relative pressure change is below the tolerance. *)
Definition tolerance_met (Pprevious P : D) : bool :=
  fabs (P - Pprevious) / P <? lit_1e_4.

(** (T, P) after [k] iterations. *)
Definition closure_state (cTot mw : D) (x : list D) (TP0 : D * D) (k : nat) : D * D :=
  Nat.iter k (closure_step cTot mw x) TP0.

(** The test of step d at the end of iteration [k] (counted from 1). *)
Definition stops_at (cTot mw : D) (x : list D) (TP0 : D * D) (k : nat) : bool :=
  tolerance_met (snd (closure_state cTot mw x TP0 (pred k)))
                (snd (closure_state cTot mw x TP0 k)).

(** How many iterations a budget of [n] runs from [TP]. *)
Fixpoint closure_iterations (n : nat) (cTot mw : D) (x : list D) (TP : D * D) : nat :=
  match n with
  | O => O
  | S n' =>
      let TP' := closure_step cTot mw x TP in
      if tolerance_met (snd TP) (snd TP') then 1%nat
      else S (closure_iterations n' cTot mw x TP')
  end.

(** The queries of the first [k] iterations, in order. *)
Definition closure_queries (cTot mw : D) (x : list D) (TP0 : D * D) (k : nat) : list (Call D) :=
  map (fun j => closure_query cTot mw x (closure_state cTot mw x TP0 j)) (seq 0 k).

(** The world after some more calls that change no map. *)
Definition add_calls (w : World D) (l : list (Call D)) : World D :=
  {| thermoMap_ := thermoMap_ w; kineticsMap_ := kineticsMap_ w;
     calls := calls w ++ l |}.

(** The state that reconstruction and closure arrive at. *)
Record ClosedState := {
  closed_c : list D;           (* clipped concentrations *)
  closed_cTot : D;             (* total concentration *)
  closed_x : list D;           (* mole fractions *)
  closed_mw : D;               (* molecular weight *)
  closed_iterations : nat;     (* iterations of the closure loop *)
  closed_T : D;                (* final temperature *)
  closed_P : D                 (* final pressure *)
}.

Definition reconstruct_and_close (cc : list D) : ClosedState :=
  let c := clipped (take (NumberOfSpecies lib) cc) in
  let cTot := sum c in
  let x := mole_fractions c in
  let mw := MolecularWeight_From_MoleFractions lib x in
  let TP0 := (TInitial_ this, PInitial_ this) in
  let k := closure_iterations (Z.to_nat (maxIterations_ this)) cTot mw x TP0 in
  let TP := closure_state cTot mw x TP0 k in
  {| closed_c := c; closed_cTot := cTot; closed_x := x; closed_mw := mw;
     closed_iterations := k; closed_T := fst TP; closed_P := snd TP |}.

(** The calls of reconstruction, closure and the four setters, in order. *)
Definition reconstruction_calls (cc : list D) : list (Call D) :=
  let s := reconstruct_and_close cc in
  Thermo_MolecularWeight_From_MoleFractions (closed_x s)
  :: closure_queries (closed_cTot s) (closed_mw s) (closed_x s)
       (TInitial_ this, PInitial_ this) (closed_iterations s)
  ++ [Thermo_SetTemperature (closed_T s); Thermo_SetPressure (closed_P s);
      Kinetics_SetTemperature (closed_T s); Kinetics_SetPressure (closed_P s)].

(** The query of the first iteration (lines 94-100) on a field of the size
    of the system: the enthalpy U + PInitial / (cTot * mw), inverted from the
    initial guess. *)
Definition first_closure_query (cc : list D) : Call D :=
  let c := clipped cc in
  let x := mole_fractions c in
  let mw := MolecularWeight_From_MoleFractions lib x in
  Thermo_GetTemperatureFromEnthalpyAndMoleFractions
    ((U_ this + PInitial_ this / (sum c * mw)) * mw) (PInitial_ this) x (TInitial_ this).

(** What the kinetics map evaluates at, once the closed state is pushed. *)
Definition closed_rates_input (cc : list D) : RatesInput D :=
  let s := reconstruct_and_close cc in
  {| at_thermo_T := closed_T s; at_thermo_P := closed_P s;
     at_kinetics_T := closed_T s; at_kinetics_P := closed_P s;
     at_c := closed_c s |}.

(** The world [derivatives] leaves. *)
Definition derivatives_world (cc : list D) (w : World D) : World D :=
  let s := reconstruct_and_close cc in
  {| thermoMap_ := {| thermo_T := closed_T s; thermo_P := closed_P s |};
     kineticsMap_ := {| kinetics_T := closed_T s; kinetics_P := closed_P s;
                        rates := closed_rates_input cc |};
     calls := calls w ++ reconstruction_calls cc
                ++ [Kinetics_ReactionRates (closed_c s); Kinetics_FormationRates] |}.

(** The entries [derivatives] writes into [dcdt]. *)
Definition derivatives_result (cc dcdt : list D) : list D :=
  map (FormationRates lib (closed_rates_input cc)) (seq 0 (NumberOfSpecies lib))
  ++ drop (NumberOfSpecies lib) dcdt.

(** The world [jacobian] leaves: the stored rates are not touched. *)
Definition jacobian_world (cc : list D) (w : World D) : World D :=
  let s := reconstruct_and_close cc in
  {| thermoMap_ := {| thermo_T := closed_T s; thermo_P := closed_P s |};
     kineticsMap_ := {| kinetics_T := closed_T s; kinetics_P := closed_P s;
                        rates := rates (kineticsMap_ w) |};
     calls := calls w ++ reconstruction_calls cc
                ++ [Kinetics_DerivativesOfFormationRates (closed_c s)] |}.

(** The sensitivity matrix the kinetics map returns to [jacobian]. *)
Definition dR_over_dC (cc : list D) (i j : nat) : D :=
  DerivativesOfFormationRates lib (closed_rates_input cc) i j.

(** The entries [jacobian] writes into [dfdt] and [dfdc]. *)
Definition jacobian_dfdt (dfdt : list D) : list D :=
  replicate (NumberOfSpecies lib) lit_0 ++ drop (NumberOfSpecies lib) dfdt.

Definition jacobian_dfdc (cc : list D) : list (list D) :=
  map (fun i => map (fun j => dR_over_dC cc i j) (seq 0 (NumberOfSpecies lib)))
      (seq 0 (NumberOfSpecies lib)).

(** A square matrix of the size of the system. *)
Definition square (m : list (list D)) : Prop :=
  length m = NumberOfSpecies lib /\
  Forall (fun row => length row = NumberOfSpecies lib) m.

End Closed_form.

(** ** A test mixture

    Two species and one reaction, A -> B, with a rate constant proportional
    to the temperature; molar enthalpy [cp * T], so that the enthalpy is
    inverted by a division. Used to run the model on concrete inputs. *)

Section Test_mixture.

Context {D : Type} `{Scalar D}.

Local Open Scope scalar_scope.

Definition test_mixture (Rgas W0 W1 cp k : D) : OpenSMOKE D :=
  {| R_J_kmol := Rgas;
     NumberOfSpecies := 2;
     MolecularWeight_From_MoleFractions := fun x =>
       match x with
       | [x0; x1] => x0 * W0 + x1 * W1
       | _ => lit_0
       end;
     GetTemperatureFromEnthalpyAndMoleFractions := fun H P x T => H / cp;
     FormationRates := fun r i =>
       let rate := k * at_kinetics_T r * nth 0 (at_c r) lit_0 in
       match i with
       | O => lit_0 - rate
       | _ => rate
       end;
     DerivativesOfFormationRates := fun r i j =>
       let d := k * at_kinetics_T r in
       match i, j with
       | O, O => lit_0 - d
       | S O, O => d
       | _, _ => lit_0
       end |}.

(** A reactor as a program sets it up: constructed, then configured. *)
Definition test_reactor (T0 P0 U : D) : batchAdiabaticOdeSystem D :=
  setInternalEnergy
    (setInitialPressure
       (setInitialTemperature (constructor lit_0 lit_0 lit_0) T0) P0) U.

(** Maps nobody has called yet. *)
Definition fresh_world : World D :=
  {| thermoMap_ := {| thermo_T := lit_0; thermo_P := lit_0 |};
     kineticsMap_ := {| kinetics_T := lit_0; kinetics_P := lit_0;
                        rates := {| at_thermo_T := lit_0; at_thermo_P := lit_0;
                                    at_kinetics_T := lit_0; at_kinetics_P := lit_0;
                                    at_c := [] |} |};
     calls := [] |}.

End Test_mixture.

(** The test mixture in binary64: R = 8314.4621 J/kmol/K, molecular weights
    2 and 28 kg/kmol, cp = 29000 J/kmol/K, and a reactor at 1000 K, 101325 Pa
    with U = 740000 J/kg. *)
Definition mixture64 : OpenSMOKE float :=
  test_mixture 0x1.03d3b2617c1bep+13%float 2%float 28%float 29000%float 0.5%float.

Definition reactor64 : batchAdiabaticOdeSystem float :=
  test_reactor 1000%float 101325%float 740000%float.

(** Concentrations in kmol/m3: an ordinary mixture (1/128 and 1/256), one
    with a negative overshoot in the second entry and another with the same
    clipped copy, one so dilute that the closure is far from the initial
    guess, all zeros, and one whose total overflows. *)
Definition cc64 : list float := [0x1p-7; 0x1p-8]%float.
Definition overshoot64 : list float := [0x1p-7; -0x1p-10]%float.
Definition overshoot64' : list float := [0x1p-7; -3]%float.
Definition dilute64 : list float := [0x1p-20; 0x1p-20]%float.
Definition zeros64 : list float := [0; 0]%float.
Definition huge64 : list float := [0x1p1023; 0x1p1023]%float.

(** A hundred thousand species of equal concentration. *)
Definition equal64 : list float := replicate (Z.to_nat 100000) 1%float.

(** One tenth and seven tenths, as the doubles nearest to them. *)
Definition tenths64 : list float := [0x1.999999999999ap-4; 0x1.6666666666666p-1]%float.

Definition depleted64 : list float := [-0x1p-10; 0]%float.

(** The two zeros of binary64, and the entries that clip to one of them. *)
Definition signed_zero (v : float) : Prop :=
  v = 0%float \/ v = (-0)%float.

Definition zero_or_negative (v : float) : Prop :=
  sltb v lit_0 = true \/ signed_zero v.

(** Output fields as the integrator hands them over. *)
Definition field64 : list float := [1; 1]%float.
Definition matrix64 : list (list float) := [[1; 1]; [1; 1]]%float.

(** ** Doubles as real numbers

    What is needed to state the size of a rounding error: the real number
    a double stands for, read off its specification [spec_float] (sign,
    mantissa, exponent), and the places a real number can take between two
    consecutive mantissas, as the rounding of [SpecFloat] records them. *)

(** Two to the power [e]. *)
Definition bpow (e : Z) : R := powerRZ 2 e.

(** [y] lies in [[m, m+1)] at the place the location tells. *)
Definition inbetween (m : Z) (y : R) (l : location) : Prop :=
  match l with
  | loc_Exact => y = IZR m
  | loc_Inexact Lt => (IZR m < y < IZR m + / 2)%R
  | loc_Inexact Eq => y = (IZR m + / 2)%R
  | loc_Inexact Gt => (IZR m + / 2 < y < IZR m + 1)%R
  end.

(** The real number of a specification float (0 for the infinities and NaN). *)
Definition value (f : spec_float) : R :=
  match f with
  | S754_finite s m e =>
      ((if s then - IZR (Zpos m) else IZR (Zpos m)) * bpow e)%R
  | _ => 0%R
  end.

(** A zero or a positive finite number. *)
Definition nonneg_finite (f : spec_float) : Prop :=
  match f with
  | S754_zero _ => True
  | S754_finite false _ _ => True
  | _ => False
  end.

(** The exponent function and the validity test of binary64. *)
Abbreviation fexp64 := (fexp FloatOps.prec FloatOps.emax).
Abbreviation valid64 := (valid_binary FloatOps.prec FloatOps.emax).

(** The real number a double stands for. *)
Definition B2R (f : float) : R := value (FloatOps.Prim2SF f).

(** Zero or a positive finite double. *)
Definition finite_nonneg (f : float) : Prop := nonneg_finite (FloatOps.Prim2SF f).

(** NaN or +infinity. *)
Definition nan_or_infinity (f : float) : Prop :=
  FloatOps.Prim2SF f = S754_nan \/ FloatOps.Prim2SF f = S754_infinity false.

(** The unit roundoff of binary64, 2^-53, and half its smallest positive
    number, 2^-1075. *)
Definition u64 : R := bpow (-53).
Definition eta64 : R := bpow (-1075).

(** The exact total of a list of doubles. *)
Definition Rsum (l : list float) : R :=
  fold_right (fun f acc => (B2R f + acc)%R) 0%R l.

(** * Properties *)

(** ** The loops *)

Section Loops.

Context {D : Type} `{Scalar D}.

Implicit Types (w : World D).

Lemma bind_unfold {A B} (m : M D A) (f : A -> M D B) w :
  (m ≫= f) w = match m w with Some (a, w') => f a w' | None => None end.
Proof. reflexivity. Qed.

(** A loop whose body leaves the world alone and keeps an invariant. *)
Lemma for_invariant {A} (I : nat -> A -> Prop) n (body : nat -> A -> M D A) a w :
  I O a ->
  (forall i a, (i < n)%nat -> I i a -> exists a', body i a w = Some (a', w) /\ I (S i) a') ->
  exists a', for_ n body a w = Some (a', w) /\ I n a'.
Proof.
  intros H0 Hstep. induction n as [|n IH]; simpl.
  - exists a. split; [reflexivity | exact H0].
  - destruct IH as (a1 & Hrun & Hinv).
    { intros i b Hi. apply Hstep. lia. }
    destruct (Hstep n a1) as (a2 & Hbody & Hinv2); [lia | exact Hinv |].
    exists a2. split; [| exact Hinv2].
    rewrite bind_unfold, Hrun. exact Hbody.
Qed.

Lemma index_Some {A} (l : list A) i v w :
  l !! i = Some v -> index l i w = Some (v, w).
Proof. intros Hl. unfold index. by rewrite Hl. Qed.

Lemma index_None {A} (l : list A) i w :
  (length l <= i)%nat -> index l i w = None.
Proof. intros Hl. unfold index. by rewrite (lookup_ge_None_2 l i Hl). Qed.

Lemma assign_Some {A} (l : list A) i v w :
  (i < length l)%nat -> assign l i v w = Some (<[i:=v]> l, w).
Proof. intros Hl. unfold assign. by rewrite decide_True. Qed.

(** Filling a fresh vector from the entries of a field. *)
Lemma fill_index (f : D -> D) n (l : list D) w :
  (n <= length l)%nat ->
  fill n (fun i => li ← index l i; mret (f li)) w = Some (map f (take n l), w).
Proof.
  intros Hn. unfold fill.
  destruct (for_invariant (fun i v => v = map f (take i l)) n
              (fun i v => vi ← (li ← index l i; mret (f li)); mret (v ++ [vi])) [] w)
    as (v & Hrun & ->); [by rewrite take_0 | | exact Hrun].
  intros i v Hi ->.
  destruct (lookup_lt_is_Some_2 l i) as [li Hli]; [lia |].
  exists (map f (take (S i) l)). split; [| reflexivity].
  rewrite !bind_unfold, (index_Some _ _ _ _ Hli). simpl.
  unfold mret, M_ret. rewrite (take_S_r _ _ _ Hli), map_app. reflexivity.
Qed.

(** A field shorter than the loop bound is read outside: undefined. *)
Lemma fill_index_outside (f : D -> D) n (l : list D) w :
  (length l < n)%nat ->
  fill n (fun i => li ← index l i; mret (f li)) w = None.
Proof.
  intros Hn. unfold fill. induction n as [|n IH]; [lia |]. simpl.
  rewrite bind_unfold.
  destruct (decide (length l < n)%nat) as [Hlt|Hge].
  - by rewrite (IH Hlt).
  - destruct (for_invariant (fun i v => True) n
                (fun i v => vi ← (li ← index l i; mret (f li)); mret (v ++ [vi])) [] w)
      as (v & Hrun & _); [done | |].
    + intros i v Hi _.
      destruct (lookup_lt_is_Some_2 l i) as [li Hli]; [lia |].
      eexists. split; [| done].
      rewrite !bind_unfold, (index_Some _ _ _ _ Hli). reflexivity.
    + rewrite Hrun, !bind_unfold, index_None; [done | lia].
Qed.

Lemma map_const_seq {A} (a : A) s n :
  map (fun _ : nat => a) (seq s n) = replicate n a.
Proof.
  revert s. induction n as [|n IH]; intros s; simpl; [reflexivity |].
  by rewrite IH.
Qed.

Lemma overwrite_next {A} (g : nat -> A) i (l : list A) :
  (i < length l)%nat ->
  <[i:=g i]> (map g (seq 0 i) ++ drop i l) = map g (seq 0 (S i)) ++ drop (S i) l.
Proof.
  intros Hi. destruct (lookup_lt_is_Some_2 l i Hi) as [li Hli].
  rewrite seq_S, map_app. simpl. rewrite (drop_S _ _ _ Hli).
  rewrite insert_app_r_alt; rewrite length_map, length_seq; [| lia].
  rewrite Nat.sub_diag. simpl. by rewrite <-app_assoc.
Qed.

(** Overwriting the first [n] entries of a field, one per iteration. *)
Lemma for_overwrite {A} (g : nat -> A) n (body : nat -> list A -> M D (list A))
    (l : list A) w :
  (n <= length l)%nat ->
  (forall i l', (i < n)%nat -> length l' = length l ->
     body i l' w = Some (<[i:=g i]> l', w)) ->
  for_ n body l w = Some (map g (seq 0 n) ++ drop n l, w).
Proof.
  intros Hn Hbody.
  destruct (for_invariant (fun i l' => l' = map g (seq 0 i) ++ drop i l) n body l w)
    as (l' & Hrun & ->); [by rewrite drop_0 | | exact Hrun].
  intros i l' Hi ->.
  exists (map g (seq 0 (S i)) ++ drop (S i) l). split; [| reflexivity].
  rewrite Hbody; [| lia |].
  - rewrite overwrite_next; [reflexivity | lia].
  - rewrite length_app, length_map, length_seq, length_drop. lia.
Qed.

(** Overwriting the first [n] columns of row [i] of a matrix. *)
Lemma for_row (g : nat -> D) n i (m : list (list D)) row w :
  m !! i = Some row ->
  (n <= length row)%nat ->
  for_ n (fun j m' => assign2 m' i j (g j)) m w
  = Some (<[i:=map g (seq 0 n) ++ drop n row]> m, w).
Proof.
  intros Hrow Hn.
  pose proof (lookup_lt_Some _ _ _ Hrow) as Hi.
  destruct (for_invariant
              (fun j m' => m' = <[i:=map g (seq 0 j) ++ drop j row]> m) n
              (fun j m' => assign2 m' i j (g j)) m w)
    as (m' & Hrun & ->); [| | exact Hrun].
  - simpl. rewrite drop_0. symmetry. by apply list_insert_id.
  - intros j m' Hj ->.
    exists (<[i:=map g (seq 0 (S j)) ++ drop (S j) row]> m). split; [| reflexivity].
    unfold assign2. rewrite bind_unfold.
    rewrite (index_Some _ _ (map g (seq 0 j) ++ drop j row));
      [| by apply list_lookup_insert_eq].
    rewrite bind_unfold, assign_Some;
      [| rewrite length_app, length_map, length_seq, length_drop; lia].
    rewrite assign_Some; [| by rewrite length_insert].
    rewrite list_insert_insert_eq, overwrite_next; [reflexivity | lia].
Qed.

(** Overwriting a square matrix, row by row and column by column. *)
Lemma for_matrix (g : nat -> nat -> D) n (m : list (list D)) w :
  length m = n ->
  Forall (fun row => length row = n) m ->
  for_ n (fun i m' => for_ n (fun j m'' => assign2 m'' i j (g i j)) m') m w
  = Some (map (fun i => map (g i) (seq 0 n)) (seq 0 n), w).
Proof.
  intros Hlen Hrows.
  destruct (for_invariant
              (fun i m' => m' = map (fun i => map (g i) (seq 0 n)) (seq 0 i) ++ drop i m) n
              (fun i m' => for_ n (fun j m'' => assign2 m'' i j (g i j)) m') m w)
    as (m' & Hrun & ->); [by rewrite drop_0 | |].
  - intros i m' Hi ->.
    destruct (lookup_lt_is_Some_2 m i) as [row Hrow]; [lia |].
    assert (length row = n) as Hrowlen.
    { rewrite Forall_lookup in Hrows. exact (Hrows i row Hrow). }
    eexists. split.
    + apply for_row with (row := row); [| lia].
      rewrite lookup_app_r; rewrite length_map, length_seq; [| lia].
      by rewrite Nat.sub_diag, lookup_drop, Nat.add_0_r.
    + rewrite drop_ge, app_nil_r by lia.
      apply (overwrite_next (fun i => map (g i) (seq 0 n))). lia.
  - rewrite Hrun. by rewrite drop_ge, app_nil_r by lia.
Qed.

End Loops.

(** ** The closure loop and the two entry points in closed form *)

Section Closed_form_facts.

Context {D : Type} `{Scalar D}.

Variable lib : OpenSMOKE D.
Variable this : batchAdiabaticOdeSystem D.

Implicit Types (w : World D) (cc c x : list D) (TP : D * D).

Local Open Scope scalar_scope.

Lemma add_calls_nil w : add_calls w [] = w.
Proof. destruct w. unfold add_calls. simpl. by rewrite app_nil_r. Qed.

Lemma add_calls_record w e (l : list (Call D)) :
  add_calls (record e w) l = add_calls w (e :: l).
Proof. unfold add_calls, record. simpl. by rewrite <-app_assoc. Qed.

Lemma closure_state_S cTot mw x TP k :
  closure_state lib this cTot mw x TP (S k)
  = closure_state lib this cTot mw x (closure_step lib this cTot mw x TP) k.
Proof. unfold closure_state. apply Nat.iter_succ_r. Qed.

Lemma closure_queries_S cTot mw x TP k :
  closure_queries lib this cTot mw x TP (S k)
  = closure_query this cTot mw x TP
    :: closure_queries lib this cTot mw x (closure_step lib this cTot mw x TP) k.
Proof.
  unfold closure_queries. rewrite <-cons_seq. simpl. f_equal.
  rewrite <-seq_shift, map_map. apply map_ext. intros j.
  by rewrite closure_state_S.
Qed.

(** The loop of [derivatives] runs [closure_iterations] iterations of
    [closure_step] and sends their queries. *)
Lemma derivatives_closure_eq n cTot mw x P T w :
  derivatives_closure lib this n cTot mw x P T w
  = Some (closure_state lib this cTot mw x (T, P)
            (closure_iterations lib this n cTot mw x (T, P)),
          add_calls w (closure_queries lib this cTot mw x (T, P)
                         (closure_iterations lib this n cTot mw x (T, P)))).
Proof.
  revert P T w. induction n as [|n IH]; intros P T w.
  - simpl. by rewrite add_calls_nil.
  - simpl. rewrite bind_unfold. simpl.
    unfold tolerance_met, target_enthalpy.
    destruct (fabs _ / _ <? lit_1e_4).
    + reflexivity.
    + rewrite IH, add_calls_record, closure_state_S, closure_queries_S.
      reflexivity.
Qed.

(** The loop of [jacobian] is the loop of [derivatives]. *)
Lemma jacobian_closure_eq n cTot mw x P T w :
  jacobian_closure lib this n cTot mw x P T w
  = derivatives_closure lib this n cTot mw x P T w.
Proof.
  revert P T w. induction n as [|n IH]; intros P T w; [reflexivity |].
  simpl. rewrite !bind_unfold. simpl.
  destruct (fabs _ / _ <? lit_1e_4); [reflexivity | apply IH].
Qed.

Lemma closure_iterations_le n cTot mw x TP :
  (closure_iterations lib this n cTot mw x TP <= n)%nat.
Proof.
  revert TP. induction n as [|n IH]; intros TP; simpl; [lia |].
  destruct (tolerance_met _ _); [lia |].
  specialize (IH (closure_step lib this cTot mw x TP)). lia.
Qed.

Lemma closure_iterations_pos n cTot mw x TP :
  (0 < n)%nat -> (0 < closure_iterations lib this n cTot mw x TP)%nat.
Proof.
  intros Hn. destruct n as [|n]; [lia |]. simpl.
  destruct (tolerance_met _ _); lia.
Qed.

Lemma length_clipped cc : length (clipped cc) = length cc.
Proof. apply length_map. Qed.

Lemma length_mole_fractions c : length (mole_fractions c) = length c.
Proof. apply length_map. Qed.

(** Lines 85-92 of [derivatives], 125-132 of [jacobian]. *)
Lemma reconstruction_eq cc w :
  (NumberOfSpecies lib <= length cc)%nat ->
  fill (NumberOfSpecies lib)
    (fun i => cci ← index cc i; mret (std_max cci lit_0)) w
  = Some (clipped (take (NumberOfSpecies lib) cc), w)
  /\ fill (NumberOfSpecies lib)
       (fun i => ci ← index (clipped (take (NumberOfSpecies lib) cc)) i;
                 mret (ci / sum (clipped (take (NumberOfSpecies lib) cc)))) w
     = Some (mole_fractions (clipped (take (NumberOfSpecies lib) cc)), w).
Proof.
  intros Hcc. split.
  - apply (fill_index (fun cci => std_max cci lit_0)). exact Hcc.
  - rewrite (fill_index (fun ci => ci / sum (clipped (take (NumberOfSpecies lib) cc)))).
    + rewrite (take_ge (clipped (take (NumberOfSpecies lib) cc))); [reflexivity |].
      rewrite length_clipped, length_take. lia.
    + rewrite length_clipped, length_take. lia.
Qed.

(** [derivatives] on fields that are long enough. *)
Lemma derivatives_eq t cc dcdt w :
  (NumberOfSpecies lib <= length cc)%nat ->
  (NumberOfSpecies lib <= length dcdt)%nat ->
  derivatives lib this t cc dcdt w
  = Some (derivatives_result lib this cc dcdt, derivatives_world lib this cc w).
Proof.
  intros Hcc Hdcdt. unfold derivatives.
  destruct (reconstruction_eq cc w Hcc) as [Hc Hx].
  rewrite bind_unfold, Hc, bind_unfold, Hx, bind_unfold. simpl.
  rewrite bind_unfold, derivatives_closure_eq.
  set (c := clipped (take (NumberOfSpecies lib) cc)).
  set (xs := mole_fractions c).
  set (mw := MolecularWeight_From_MoleFractions lib xs).
  set (k := closure_iterations lib this _ (sum c) mw xs _).
  destruct (closure_state lib this (sum c) mw xs
              (TInitial_ this, PInitial_ this) k) as [T P] eqn:HTP.
  repeat (rewrite bind_unfold; simpl).
  rewrite for_overwrite with (g := FormationRates lib
    {| at_thermo_T := T; at_thermo_P := P; at_kinetics_T := T;
       at_kinetics_P := P; at_c := c |}); [| exact Hdcdt |].
  - unfold derivatives_result, derivatives_world, closed_rates_input,
      reconstruction_calls, reconstruct_and_close.
    fold c. fold xs. fold mw. fold k. rewrite HTP. simpl.
    unfold record, add_calls. simpl.
    repeat (rewrite <-app_assoc; simpl). reflexivity.
  - intros i l' Hi Hl'.
    rewrite bind_unfold, (index_Some _ _ (FormationRates lib
      {| at_thermo_T := T; at_thermo_P := P; at_kinetics_T := T;
         at_kinetics_P := P; at_c := c |} i)).
    + apply assign_Some. lia.
    + rewrite list_lookup_fmap, lookup_seq_lt by lia. reflexivity.
Qed.

(** [jacobian] on fields that are long enough and a square matrix. *)
Lemma jacobian_eq t cc dfdt dfdc w :
  (NumberOfSpecies lib <= length cc)%nat ->
  (NumberOfSpecies lib <= length dfdt)%nat ->
  square lib dfdc ->
  jacobian lib this t cc dfdt dfdc w
  = Some ((jacobian_dfdt lib dfdt, jacobian_dfdc lib this cc),
          jacobian_world lib this cc w).
Proof.
  intros Hcc Hdfdt [Hlen Hrows]. unfold jacobian.
  destruct (reconstruction_eq cc w Hcc) as [Hc Hx].
  rewrite bind_unfold, Hc, bind_unfold, Hx, bind_unfold. simpl.
  rewrite bind_unfold, jacobian_closure_eq, derivatives_closure_eq.
  set (c := clipped (take (NumberOfSpecies lib) cc)).
  set (xs := mole_fractions c).
  set (mw := MolecularWeight_From_MoleFractions lib xs).
  set (k := closure_iterations lib this _ (sum c) mw xs _).
  destruct (closure_state lib this (sum c) mw xs
              (TInitial_ this, PInitial_ this) k) as [T P] eqn:HTP.
  repeat (rewrite bind_unfold; simpl).
  rewrite for_overwrite with (g := fun _ : nat => lit_0); [| exact Hdfdt |].
  - rewrite bind_unfold, for_matrix; [| exact Hlen | exact Hrows].
    unfold jacobian_dfdt, jacobian_dfdc, dR_over_dC, jacobian_world,
      closed_rates_input, reconstruction_calls, reconstruct_and_close.
    fold c. fold xs. fold mw. fold k. rewrite HTP. simpl.
    unfold record, add_calls, rates_input, mret, M_ret. simpl.
    repeat (rewrite <-app_assoc; simpl).
    rewrite map_const_seq. reflexivity.
  - intros i l' Hi Hl'. apply assign_Some. lia.
Qed.

End Closed_form_facts.

(** ** The thermodynamic closure loop *)

Section Closure.

Context {D : Type} `{Scalar D}.

Variable lib : OpenSMOKE D.
Variable this : batchAdiabaticOdeSystem D.

Implicit Types (w : World D) (cc c x : list D) (TP : D * D).

Local Open Scope scalar_scope.

Lemma stops_at_1 cTot mw x TP :
  stops_at lib this cTot mw x TP 1
  = tolerance_met (snd TP) (snd (closure_step lib this cTot mw x TP)).
Proof. reflexivity. Qed.

Lemma stops_at_S cTot mw x TP j :
  stops_at lib this cTot mw x TP (S (S j))
  = stops_at lib this cTot mw x (closure_step lib this cTot mw x TP) (S j).
Proof. unfold stops_at. simpl pred. by rewrite !closure_state_S. Qed.

(** The loop runs as long as the test of step d fails. *)
Lemma closure_iterations_running n cTot mw x TP j :
  (0 < j < closure_iterations lib this n cTot mw x TP)%nat ->
  stops_at lib this cTot mw x TP j = false.
Proof.
  revert TP j. induction n as [|n IH]; intros TP j; simpl; [lia |].
  destruct (tolerance_met _ _) eqn:Htest; [lia |].
  intros Hj. destruct j as [|[|j]]; [lia | by rewrite stops_at_1 |].
  rewrite stops_at_S. apply IH. lia.
Qed.

(** It ends before the budget is used up only when the test succeeds. *)
Lemma closure_iterations_early n cTot mw x TP :
  (closure_iterations lib this n cTot mw x TP < n)%nat ->
  stops_at lib this cTot mw x TP (closure_iterations lib this n cTot mw x TP) = true.
Proof.
  revert TP. induction n as [|n IH]; intros TP; simpl; [lia |].
  destruct (tolerance_met _ _) eqn:Htest; [by rewrite stops_at_1 |].
  intros Hk.
  pose proof (closure_iterations_pos lib this n cTot mw x
                (closure_step lib this cTot mw x TP)) as Hpos.
  destruct (closure_iterations lib this n cTot mw x
              (closure_step lib this cTot mw x TP)) as [|k] eqn:Hit; [lia |].
  rewrite stops_at_S, <-Hit. apply IH. lia.
Qed.

(** After at least one iteration the pressure is the ideal gas pressure at
    the temperature just computed. *)
Lemma closure_state_ideal_gas cTot mw x TP k :
  (0 < k)%nat ->
  snd (closure_state lib this cTot mw x TP k)
  = cTot * (R_J_kmol lib * fst (closure_state lib this cTot mw x TP k)).
Proof. intros Hk. destruct k as [|k]; [lia | reflexivity]. Qed.

Lemma closure_queries_iterations cTot mw x TP k :
  filter is_closure_iteration (closure_queries lib this cTot mw x TP k)
  = closure_queries lib this cTot mw x TP k.
Proof.
  unfold closure_queries. induction (seq 0 k) as [|j l IH]; [reflexivity |].
  simpl. rewrite filter_cons. simpl. by rewrite IH.
Qed.

Lemma length_closure_queries cTot mw x TP k :
  length (closure_queries lib this cTot mw x TP k) = k.
Proof. unfold closure_queries. by rewrite length_map, length_seq. Qed.

(** C3: every iteration of the closure loop computes the target enthalpy
    H = U + P / (cTot * mw) from the previous pressure, asks the
    thermodynamic map for the temperature at H * mw with the previous
    temperature as seed, and sets P = cTot * (R * T) from the new
    temperature; the loop stops before its budget is used up exactly at the
    first iteration whose relative pressure change |P - Pold| / P is below
    1e-4. *)
Theorem closure_loop_iterations n cTot mw x P T w :
  exists k : nat,
    (k <= n)%nat /\ ((0 < n)%nat -> (0 < k)%nat) /\
    derivatives_closure lib this n cTot mw x P T w
    = Some (closure_state lib this cTot mw x (T, P) k,
            add_calls w (closure_queries lib this cTot mw x (T, P) k)) /\
    (forall j, (j < k)%nat ->
       let Told := fst (closure_state lib this cTot mw x (T, P) j) in
       let Pold := snd (closure_state lib this cTot mw x (T, P) j) in
       let Hj := U_ this + Pold / (cTot * mw) in
       let Tj := GetTemperatureFromEnthalpyAndMoleFractions lib (Hj * mw) Pold x Told in
       let Pj := cTot * (R_J_kmol lib * Tj) in
       closure_queries lib this cTot mw x (T, P) k !! j
       = Some (Thermo_GetTemperatureFromEnthalpyAndMoleFractions (Hj * mw) Pold x Told) /\
       closure_state lib this cTot mw x (T, P) (S j) = (Tj, Pj) /\
       stops_at lib this cTot mw x (T, P) (S j) = (fabs (Pj - Pold) / Pj <? lit_1e_4)) /\
    (forall j, (0 < j < k)%nat -> stops_at lib this cTot mw x (T, P) j = false) /\
    ((k < n)%nat -> stops_at lib this cTot mw x (T, P) k = true).
Proof.
  exists (closure_iterations lib this n cTot mw x (T, P)).
  split; [apply closure_iterations_le |].
  split; [apply closure_iterations_pos |].
  split; [apply derivatives_closure_eq |].
  split; [| split].
  - intros j Hj. cbv zeta. split; [| split].
    + unfold closure_queries.
      rewrite list_lookup_fmap, lookup_seq_lt by lia. reflexivity.
    + reflexivity.
    + reflexivity.
  - apply closure_iterations_running.
  - apply closure_iterations_early.
Qed.

End Closure.

(** ** The two entry points *)

Section Entry_points.

Context {D : Type} `{Scalar D}.

Variable lib : OpenSMOKE D.
Variable this : batchAdiabaticOdeSystem D.

Implicit Types (w : World D) (cc c x dcdt dfdt : list D) (dfdc : list (list D)).

Local Open Scope scalar_scope.

(** No setter touches the iteration budget the constructor sets. *)
Lemma constructed_maxIterations (r : batchAdiabaticOdeSystem D) :
  constructed r -> maxIterations_ r = 10%Z.
Proof. induction 1; simpl; congruence. Qed.

(** The clipped copy, entry by entry. *)
Lemma clipped_lookup cc i cci :
  cc !! i = Some cci ->
  clipped cc !! i = Some (if cci <? lit_0 then lit_0 else cci).
Proof. intros Hi. unfold clipped. by rewrite list_lookup_fmap, Hi. Qed.

(** On a field of the size of the system the whole field is read. *)
Lemma reconstruct_and_close_full cc :
  length cc = NumberOfSpecies lib ->
  closed_c (reconstruct_and_close lib this cc) = clipped cc /\
  closed_cTot (reconstruct_and_close lib this cc) = sum (clipped cc) /\
  closed_x (reconstruct_and_close lib this cc) = mole_fractions (clipped cc) /\
  closed_mw (reconstruct_and_close lib this cc)
  = MolecularWeight_From_MoleFractions lib (mole_fractions (clipped cc)).
Proof.
  intros Hcc. unfold reconstruct_and_close. simpl.
  rewrite take_ge by lia. done.
Qed.

(** The closed state is a function of the clipped copy. *)
Lemma reconstruct_and_close_clipped cc1 cc2 :
  length cc1 = NumberOfSpecies lib ->
  length cc2 = NumberOfSpecies lib ->
  clipped cc1 = clipped cc2 ->
  reconstruct_and_close lib this cc1 = reconstruct_and_close lib this cc2.
Proof.
  intros H1 H2 Heq. unfold reconstruct_and_close.
  rewrite !take_ge by lia. by rewrite Heq.
Qed.

Lemma closed_state_of cc :
  (closed_T (reconstruct_and_close lib this cc),
   closed_P (reconstruct_and_close lib this cc))
  = closure_state lib this
      (closed_cTot (reconstruct_and_close lib this cc))
      (closed_mw (reconstruct_and_close lib this cc))
      (closed_x (reconstruct_and_close lib this cc))
      (TInitial_ this, PInitial_ this)
      (closed_iterations (reconstruct_and_close lib this cc)).
Proof. unfold reconstruct_and_close. simpl. by destruct (closure_state _ _ _ _ _ _ _). Qed.

Lemma closed_iterations_le cc :
  (closed_iterations (reconstruct_and_close lib this cc)
   <= Z.to_nat (maxIterations_ this))%nat.
Proof. apply closure_iterations_le. Qed.

(** The iterations among the calls of one evaluation. *)
Lemma reconstruction_calls_iterations cc (tail : list (Call D)) :
  Forall (fun e => is_closure_iteration e = false) tail ->
  length (filter is_closure_iteration (reconstruction_calls lib this cc ++ tail))
  = closed_iterations (reconstruct_and_close lib this cc).
Proof.
  intros Htail. unfold reconstruction_calls.
  cbv zeta. rewrite <-app_comm_cons, filter_cons. simpl.
  rewrite !list.filter_app, closure_queries_iterations.
  rewrite !length_app, length_closure_queries.
  assert (filter is_closure_iteration tail = []) as ->.
  { induction Htail as [|e l He _ IH]; [reflexivity |].
    rewrite filter_cons, He. simpl. exact IH. }
  simpl. lia.
Qed.

(** C4: the closure loop of [derivatives] runs at most [maxIterations_] = 10
    iterations; whether or not the tolerance is met the call returns, and the
    kinetics maps are evaluated at the last (T, P) computed; when no
    iteration meets the tolerance that is the pair of the tenth. *)
Theorem closure_budget t cc dcdt w :
  constructed this ->
  length cc = NumberOfSpecies lib ->
  length dcdt = NumberOfSpecies lib ->
  exists (k : nat) (T P : D) (out : list D) (w' : World D) (new : list (Call D)),
    maxIterations_ this = 10%Z /\
    derivatives lib this t cc dcdt w = Some (out, w') /\
    calls w' = calls w ++ new /\
    length (filter is_closure_iteration new) = k /\
    (k <= 10)%nat /\
    ((forall j, (0 < j <= 10)%nat ->
        stops_at lib this (sum (clipped cc))
          (MolecularWeight_From_MoleFractions lib (mole_fractions (clipped cc)))
          (mole_fractions (clipped cc)) (TInitial_ this, PInitial_ this) j = false) ->
     k = 10%nat) /\
    (T, P) = closure_state lib this (sum (clipped cc))
               (MolecularWeight_From_MoleFractions lib (mole_fractions (clipped cc)))
               (mole_fractions (clipped cc)) (TInitial_ this, PInitial_ this) k /\
    thermoMap_ w' = {| thermo_T := T; thermo_P := P |} /\
    kinetics_T (kineticsMap_ w') = T /\
    kinetics_P (kineticsMap_ w') = P /\
    rates (kineticsMap_ w')
    = {| at_thermo_T := T; at_thermo_P := P; at_kinetics_T := T;
         at_kinetics_P := P; at_c := clipped cc |} /\
    out = map (FormationRates lib (rates (kineticsMap_ w')))
              (seq 0 (NumberOfSpecies lib)).
Proof.
  intros Hthis Hcc Hdcdt.
  pose proof (constructed_maxIterations this Hthis) as Hmax.
  destruct (reconstruct_and_close_full cc Hcc) as (Hc & HcTot & Hx & Hmw).
  pose proof (closed_state_of cc) as HTP.
  pose proof (closed_iterations_le cc) as Hle.
  rewrite HcTot, Hx, Hmw in HTP. rewrite Hmax in Hle.
  exists (closed_iterations (reconstruct_and_close lib this cc)),
    (closed_T (reconstruct_and_close lib this cc)),
    (closed_P (reconstruct_and_close lib this cc)),
    (derivatives_result lib this cc dcdt), (derivatives_world lib this cc w),
    (reconstruction_calls lib this cc
       ++ [Kinetics_ReactionRates (closed_c (reconstruct_and_close lib this cc));
           Kinetics_FormationRates]).
  split; [exact Hmax |].
  split; [apply derivatives_eq; lia |].
  split; [reflexivity |].
  split; [apply reconstruction_calls_iterations; by repeat constructor |].
  split; [exact Hle |].
  split.
  { intros Hnever.
    destruct (decide (closed_iterations (reconstruct_and_close lib this cc) = 10%nat))
      as [Hk|Hk]; [exact Hk | exfalso].
    assert (closed_iterations (reconstruct_and_close lib this cc)
            < Z.to_nat (maxIterations_ this))%nat as Hlt by (rewrite Hmax; lia).
    pose proof (closure_iterations_pos lib this (Z.to_nat (maxIterations_ this))
                  (closed_cTot (reconstruct_and_close lib this cc))
                  (closed_mw (reconstruct_and_close lib this cc))
                  (closed_x (reconstruct_and_close lib this cc))
                  (TInitial_ this, PInitial_ this)) as Hpos.
    pose proof (closure_iterations_early lib this (Z.to_nat (maxIterations_ this))
                  (closed_cTot (reconstruct_and_close lib this cc))
                  (closed_mw (reconstruct_and_close lib this cc))
                  (closed_x (reconstruct_and_close lib this cc))
                  (TInitial_ this, PInitial_ this) Hlt) as Hstop.
    change (closure_iterations lib this (Z.to_nat (maxIterations_ this))
              (closed_cTot (reconstruct_and_close lib this cc))
              (closed_mw (reconstruct_and_close lib this cc))
              (closed_x (reconstruct_and_close lib this cc))
              (TInitial_ this, PInitial_ this))
      with (closed_iterations (reconstruct_and_close lib this cc)) in Hstop, Hpos.
    rewrite HcTot, Hx, Hmw in Hstop.
    rewrite Hnever in Hstop; [discriminate |].
    rewrite Hmax in Hpos. lia. }
  split; [exact HTP |].
  split; [reflexivity |].
  split; [reflexivity |].
  split; [reflexivity |].
  split.
  - unfold derivatives_world. cbn [kineticsMap_ rates].
    unfold closed_rates_input. cbv zeta. by rewrite Hc.
  - unfold derivatives_result, derivatives_world. simpl.
    rewrite drop_ge, app_nil_r by lia. reflexivity.
Qed.

(** The closed state of a constructed reactor obeys the ideal gas law. *)
Lemma closed_ideal_gas cc :
  constructed this ->
  length cc = NumberOfSpecies lib ->
  closed_P (reconstruct_and_close lib this cc)
  = sum (clipped cc) * (R_J_kmol lib * closed_T (reconstruct_and_close lib this cc)).
Proof.
  intros Hthis Hcc.
  pose proof (constructed_maxIterations this Hthis) as Hmax.
  destruct (reconstruct_and_close_full cc Hcc) as (Hc & HcTot & Hx & Hmw).
  pose proof (closed_state_of cc) as HTP.
  pose proof (closure_state_ideal_gas lib this
                (closed_cTot (reconstruct_and_close lib this cc))
                (closed_mw (reconstruct_and_close lib this cc))
                (closed_x (reconstruct_and_close lib this cc))
                (TInitial_ this, PInitial_ this)
                (closed_iterations (reconstruct_and_close lib this cc))) as Hgas.
  rewrite <-HTP in Hgas. simpl in Hgas. rewrite <-HcTot. apply Hgas.
  apply closure_iterations_pos. rewrite Hmax. lia.
Qed.

(** C10: when either entry point leaves the closure loop, by the tolerance
    or by the budget, the temperature and pressure it pushes into the
    thermodynamic and kinetics maps satisfy P = cTot * (R * T): the pressure
    update is the last assignment of every iteration, and at least one
    iteration runs. *)
Theorem final_state_ideal_gas t cc dcdt dfdt dfdc w :
  constructed this ->
  length cc = NumberOfSpecies lib ->
  length dcdt = NumberOfSpecies lib ->
  length dfdt = NumberOfSpecies lib ->
  square lib dfdc ->
  exists (out : list D) (w1 : World D) (jac : list D * list (list D)) (w2 : World D),
    derivatives lib this t cc dcdt w = Some (out, w1) /\
    jacobian lib this t cc dfdt dfdc w = Some (jac, w2) /\
    forall w', w' = w1 \/ w' = w2 ->
      thermo_P (thermoMap_ w')
      = sum (clipped cc) * (R_J_kmol lib * thermo_T (thermoMap_ w')) /\
      kinetics_P (kineticsMap_ w')
      = sum (clipped cc) * (R_J_kmol lib * kinetics_T (kineticsMap_ w')) /\
      Thermo_SetTemperature (thermo_T (thermoMap_ w')) ∈ calls w' /\
      Thermo_SetPressure (thermo_P (thermoMap_ w')) ∈ calls w' /\
      Kinetics_SetTemperature (kinetics_T (kineticsMap_ w')) ∈ calls w' /\
      Kinetics_SetPressure (kinetics_P (kineticsMap_ w')) ∈ calls w'.
Proof.
  intros Hthis Hcc Hdcdt Hdfdt Hdfdc.
  pose proof (closed_ideal_gas cc Hthis Hcc) as Hgas.
  exists (derivatives_result lib this cc dcdt), (derivatives_world lib this cc w),
    (jacobian_dfdt lib dfdt, jacobian_dfdc lib this cc), (jacobian_world lib this cc w).
  split; [apply derivatives_eq; lia |].
  split; [apply jacobian_eq; [lia | lia | exact Hdfdc] |].
  intros w' [-> | ->]; cbn [derivatives_world jacobian_world thermoMap_ kineticsMap_
    thermo_T thermo_P kinetics_T kinetics_P calls];
    (split; [exact Hgas |]); (split; [exact Hgas |]);
    unfold reconstruction_calls; cbv zeta;
    rewrite !elem_of_app, !elem_of_cons, !elem_of_app, !elem_of_cons; tauto.
Qed.

(** C5: for every input, [jacobian] sets every entry of [dfdt] to zero, and
    entry (i, j) of [dfdc] to entry (i, j) of the matrix dR/dc that the
    kinetics map returns for the clipped concentrations at the closed state. *)
Theorem jacobian_outputs t cc dfdt dfdc w :
  length cc = NumberOfSpecies lib ->
  length dfdt = NumberOfSpecies lib ->
  square lib dfdc ->
  exists (dfdt' : list D) (dfdc' : list (list D)) (w' : World D),
    jacobian lib this t cc dfdt dfdc w = Some ((dfdt', dfdc'), w') /\
    dfdt' = replicate (NumberOfSpecies lib) lit_0 /\
    length dfdt' = NumberOfSpecies lib /\
    list.last (calls w') = Some (Kinetics_DerivativesOfFormationRates (clipped cc)) /\
    length dfdc' = NumberOfSpecies lib /\
    forall i j, (i < NumberOfSpecies lib)%nat -> (j < NumberOfSpecies lib)%nat ->
      exists row, dfdc' !! i = Some row /\
        length row = NumberOfSpecies lib /\
        row !! j = Some (DerivativesOfFormationRates lib
                           (rates_input w' (clipped cc)) i j).
Proof.
  intros Hcc Hdfdt Hdfdc.
  destruct (reconstruct_and_close_full cc Hcc) as (Hc & _).
  exists (jacobian_dfdt lib dfdt), (jacobian_dfdc lib this cc),
    (jacobian_world lib this cc w).
  split; [apply jacobian_eq; [lia | lia | exact Hdfdc] |].
  split; [unfold jacobian_dfdt; by rewrite drop_ge, app_nil_r by lia |].
  split.
  { unfold jacobian_dfdt.
    rewrite length_app, length_replicate, length_drop. lia. }
  split.
  { unfold jacobian_world. cbn [calls].
    rewrite !app_assoc, last_snoc. by rewrite Hc. }
  split; [unfold jacobian_dfdc; by rewrite length_map, length_seq |].
  intros i j Hi Hj.
  exists (map (fun j => dR_over_dC lib this cc i j) (seq 0 (NumberOfSpecies lib))).
  split; [| split].
  - unfold jacobian_dfdc. by rewrite list_lookup_fmap, lookup_seq_lt by lia.
  - by rewrite length_map, length_seq.
  - rewrite list_lookup_fmap, lookup_seq_lt by lia. simpl.
    unfold dR_over_dC, closed_rates_input, rates_input, jacobian_world.
    cbv zeta. cbn [thermoMap_ kineticsMap_ thermo_T thermo_P kinetics_T kinetics_P].
    by rewrite Hc.
Qed.

(** C6: the raw concentrations are only read to be clipped at zero, a
    negative entry giving 0 and any other entry itself; the kinetics map is
    handed the clipped copy, and two inputs with the same clipped copy give
    the same derivative and Jacobian outputs (and leave the same world). *)
Theorem outputs_from_clipped_copy t cc cc' dcdt dfdt dfdc w :
  length cc = NumberOfSpecies lib ->
  length cc' = NumberOfSpecies lib ->
  length dcdt = NumberOfSpecies lib ->
  length dfdt = NumberOfSpecies lib ->
  square lib dfdc ->
  clipped cc' = clipped cc ->
  (forall i cci, cc !! i = Some cci ->
     clipped cc !! i = Some (if cci <? lit_0 then lit_0 else cci)) /\
  exists (out : list D) (w1 : World D) (jac : list D * list (list D)) (w2 : World D),
    derivatives lib this t cc dcdt w = Some (out, w1) /\
    jacobian lib this t cc dfdt dfdc w = Some (jac, w2) /\
    Kinetics_ReactionRates (clipped cc) ∈ calls w1 /\
    Kinetics_DerivativesOfFormationRates (clipped cc) ∈ calls w2 /\
    derivatives lib this t cc' dcdt w = Some (out, w1) /\
    jacobian lib this t cc' dfdt dfdc w = Some (jac, w2).
Proof.
  intros Hcc Hcc' Hdcdt Hdfdt Hdfdc Heq.
  split; [apply clipped_lookup |].
  destruct (reconstruct_and_close_full cc Hcc) as (Hc & _).
  pose proof (reconstruct_and_close_clipped cc' cc Hcc' Hcc Heq) as Hs.
  exists (derivatives_result lib this cc dcdt), (derivatives_world lib this cc w),
    (jacobian_dfdt lib dfdt, jacobian_dfdc lib this cc), (jacobian_world lib this cc w).
  split; [apply derivatives_eq; lia |].
  split; [apply jacobian_eq; [lia | lia | exact Hdfdc] |].
  split.
  { unfold derivatives_world. cbn [calls]. rewrite Hc, !elem_of_app, !elem_of_cons. tauto. }
  split.
  { unfold jacobian_world. cbn [calls]. rewrite Hc, !elem_of_app, !elem_of_cons. tauto. }
  split.
  - rewrite derivatives_eq by lia.
    unfold derivatives_result, derivatives_world, closed_rates_input, reconstruction_calls.
    by rewrite Hs.
  - rewrite jacobian_eq; [| lia | lia | exact Hdfdc].
    unfold jacobian_dfdc, jacobian_world, dR_over_dC, closed_rates_input,
      reconstruction_calls.
    by rewrite Hs.
Qed.

(** C7: on the same input and configuration [jacobian] repeats the
    reconstruction and closure of [derivatives]: both send the same calls up
    to the four setters (the same mole fractions to the molecular weight
    query, the same enthalpy, pressure and seed to every iteration), push the
    same final (T, P) into both maps and hand the same clipped concentrations
    to the kinetics map. *)
Theorem jacobian_repeats_derivatives t cc dcdt dfdt dfdc w :
  length cc = NumberOfSpecies lib ->
  length dcdt = NumberOfSpecies lib ->
  length dfdt = NumberOfSpecies lib ->
  square lib dfdc ->
  exists (out : list D) (w1 : World D) (jac : list D * list (list D)) (w2 : World D)
         (shared : list (Call D)) (T P : D),
    derivatives lib this t cc dcdt w = Some (out, w1) /\
    jacobian lib this t cc dfdt dfdc w = Some (jac, w2) /\
    calls w1 = calls w ++ shared
                 ++ [Kinetics_ReactionRates (clipped cc); Kinetics_FormationRates] /\
    calls w2 = calls w ++ shared
                 ++ [Kinetics_DerivativesOfFormationRates (clipped cc)] /\
    head shared
    = Some (Thermo_MolecularWeight_From_MoleFractions (mole_fractions (clipped cc))) /\
    (T, P) = closure_state lib this (sum (clipped cc))
               (MolecularWeight_From_MoleFractions lib (mole_fractions (clipped cc)))
               (mole_fractions (clipped cc)) (TInitial_ this, PInitial_ this)
               (length (filter is_closure_iteration shared)) /\
    thermoMap_ w1 = {| thermo_T := T; thermo_P := P |} /\
    thermoMap_ w2 = {| thermo_T := T; thermo_P := P |} /\
    kinetics_T (kineticsMap_ w1) = T /\ kinetics_P (kineticsMap_ w1) = P /\
    kinetics_T (kineticsMap_ w2) = T /\ kinetics_P (kineticsMap_ w2) = P.
Proof.
  intros Hcc Hdcdt Hdfdt Hdfdc.
  destruct (reconstruct_and_close_full cc Hcc) as (Hc & HcTot & Hx & Hmw).
  pose proof (closed_state_of cc) as HTP. rewrite HcTot, Hx, Hmw in HTP.
  exists (derivatives_result lib this cc dcdt), (derivatives_world lib this cc w),
    (jacobian_dfdt lib dfdt, jacobian_dfdc lib this cc), (jacobian_world lib this cc w),
    (reconstruction_calls lib this cc),
    (closed_T (reconstruct_and_close lib this cc)),
    (closed_P (reconstruct_and_close lib this cc)).
  split; [apply derivatives_eq; lia |].
  split; [apply jacobian_eq; [lia | lia | exact Hdfdc] |].
  split; [unfold derivatives_world; cbn [calls]; by rewrite Hc |].
  split; [unfold jacobian_world; cbn [calls]; by rewrite Hc |].
  split; [unfold reconstruction_calls; cbv zeta; cbn [head]; by rewrite Hx |].
  split.
  { rewrite <-(app_nil_r (reconstruction_calls lib this cc)).
    rewrite reconstruction_calls_iterations by constructor. exact HTP. }
  done.
Qed.

(** C9: [derivatives] called twice with the same time, the same
    concentrations and the same configuration returns the same vector both
    times, whatever state the maps and the output field were left in: no
    state of an earlier call is read. *)
Theorem derivatives_deterministic t cc dcdt dcdt' w :
  length cc = NumberOfSpecies lib ->
  length dcdt = NumberOfSpecies lib ->
  length dcdt' = NumberOfSpecies lib ->
  exists (out : list D) (w1 w2 : World D),
    derivatives lib this t cc dcdt w = Some (out, w1) /\
    derivatives lib this t cc dcdt' w1 = Some (out, w2) /\
    length out = NumberOfSpecies lib /\
    thermoMap_ w2 = thermoMap_ w1 /\
    kineticsMap_ w2 = kineticsMap_ w1.
Proof.
  intros Hcc Hdcdt Hdcdt'.
  exists (derivatives_result lib this cc dcdt), (derivatives_world lib this cc w),
    (derivatives_world lib this cc (derivatives_world lib this cc w)).
  split; [apply derivatives_eq; lia |].
  split.
  { rewrite derivatives_eq by lia. unfold derivatives_result.
    by rewrite !drop_ge by lia. }
  split.
  { unfold derivatives_result.
    rewrite length_app, length_map, length_seq, length_drop. lia. }
  done.
Qed.

End Entry_points.

(** ** The claims on the test mixture *)

Lemma constructed_reactor64 : constructed reactor64.
Proof. unfold reactor64, test_reactor. repeat constructor. Defined.

Lemma square_matrix64 : square mixture64 matrix64.
Proof. split; [reflexivity | repeat constructor]. Defined.

(** On the dilute mixture no iteration meets the tolerance: all ten run and
    the call returns all the same. *)
Lemma closure_budget_witness :
  exists (out : list float) (w' : World float),
    derivatives mixture64 reactor64 0%float dilute64 field64 fresh_world = Some (out, w') /\
    length (filter is_closure_iteration (calls w')) = 10%nat /\
    map (stops_at mixture64 reactor64 (sum (clipped dilute64))
           (MolecularWeight_From_MoleFractions mixture64 (mole_fractions (clipped dilute64)))
           (mole_fractions (clipped dilute64))
           (TInitial_ reactor64, PInitial_ reactor64)) (seq 1 10)
    = replicate 10 false.
Proof.
  destruct (closure_budget mixture64 reactor64 0%float dilute64 field64 fresh_world)
    as (k & T & P & out & w' & new & _ & Hrun & _);
    [exact constructed_reactor64 | reflexivity | reflexivity |].
  exists out, w'. split; [exact Hrun |].
  vm_compute in Hrun. injection Hrun as _ <-.
  split; vm_compute; reflexivity.
Defined.

Lemma final_state_ideal_gas_witness :
  exists (out : list float) (w1 : World float),
    derivatives mixture64 reactor64 0%float cc64 field64 fresh_world = Some (out, w1) /\
    thermo_P (thermoMap_ w1)
    = (sum (clipped cc64) * (R_J_kmol mixture64 * thermo_T (thermoMap_ w1)))%D.
Proof.
  destruct (final_state_ideal_gas mixture64 reactor64 0%float cc64 field64 field64
              matrix64 fresh_world)
    as (out & w1 & jac & w2 & Hrun & _ & Hgas);
    [exact constructed_reactor64 | reflexivity | reflexivity | reflexivity
    | exact square_matrix64 |].
  exists out, w1. split; [exact Hrun |].
  destruct (Hgas w1) as [HP _]; [by left | exact HP].
Defined.

Lemma jacobian_outputs_witness :
  exists (dfdt' : list float) (dfdc' : list (list float)) (w' : World float),
    jacobian mixture64 reactor64 0%float cc64 field64 matrix64 fresh_world
    = Some ((dfdt', dfdc'), w') /\
    dfdt' = [0; 0]%float.
Proof.
  destruct (jacobian_outputs mixture64 reactor64 0%float cc64 field64 matrix64 fresh_world)
    as (dfdt' & dfdc' & w' & Hrun & Hzero & _);
    [reflexivity | reflexivity | exact square_matrix64 |].
  exists dfdt', dfdc', w'. split; [exact Hrun | exact Hzero].
Defined.

Lemma outputs_from_clipped_copy_witness :
  exists (out : list float) (w1 : World float),
    derivatives mixture64 reactor64 0%float overshoot64 field64 fresh_world = Some (out, w1) /\
    derivatives mixture64 reactor64 0%float overshoot64' field64 fresh_world = Some (out, w1) /\
    Kinetics_ReactionRates [0x1p-7; 0]%float ∈ calls w1.
Proof.
  destruct (outputs_from_clipped_copy mixture64 reactor64 0%float overshoot64 overshoot64'
              field64 field64 matrix64 fresh_world)
    as (_ & out & w1 & jac & w2 & Hrun & _ & Hclip & _ & Hrun' & _);
    [reflexivity | reflexivity | reflexivity | reflexivity | exact square_matrix64
    | reflexivity |].
  exists out, w1. split; [exact Hrun |]. split; [exact Hrun' | exact Hclip].
Defined.

Lemma jacobian_repeats_derivatives_witness :
  exists (out : list float) (w1 : World float) (jac : list float * list (list float))
         (w2 : World float),
    derivatives mixture64 reactor64 0%float cc64 field64 fresh_world = Some (out, w1) /\
    jacobian mixture64 reactor64 0%float cc64 field64 matrix64 fresh_world = Some (jac, w2) /\
    thermoMap_ w1 = thermoMap_ w2.
Proof.
  destruct (jacobian_repeats_derivatives mixture64 reactor64 0%float cc64 field64 field64
              matrix64 fresh_world)
    as (out & w1 & jac & w2 & shared & T & P & Hd & Hj & _ & _ & _ & _ & H1 & H2 & _);
    [reflexivity | reflexivity | reflexivity | exact square_matrix64 |].
  exists out, w1, jac, w2. split; [exact Hd |]. split; [exact Hj |].
  exact (eq_trans H1 (eq_sym H2)).
Defined.

Lemma derivatives_deterministic_witness :
  exists (out : list float) (w1 w2 : World float),
    derivatives mixture64 reactor64 0%float cc64 field64 fresh_world = Some (out, w1) /\
    derivatives mixture64 reactor64 0%float cc64 zeros64 w1 = Some (out, w2).
Proof.
  destruct (derivatives_deterministic mixture64 reactor64 0%float cc64 field64 zeros64
              fresh_world)
    as (out & w1 & w2 & H1 & H2 & _); [reflexivity | reflexivity | reflexivity |].
  exists out, w1, w2. split; [exact H1 | exact H2].
Defined.

(** ** The services an evaluation reaches *)

Section Reached_services.

Context {D : Type} `{Scalar D}.

Variable lib : OpenSMOKE D.
Variable this : batchAdiabaticOdeSystem D.

Implicit Types (w : World D) (cc : list D).

Lemma closure_queries_kinetics cTot mw x TP k :
  filter is_kinetics_call (closure_queries lib this cTot mw x TP k) = [].
Proof.
  unfold closure_queries. induction (seq 0 k) as [|j l IH]; [reflexivity |].
  simpl. rewrite filter_cons. simpl. exact IH.
Qed.

(** Of the calls up to the setters, the kinetics map sees the last two. *)
Lemma reconstruction_calls_kinetics cc :
  filter is_kinetics_call (reconstruction_calls lib this cc)
  = [Kinetics_SetTemperature (closed_T (reconstruct_and_close lib this cc));
     Kinetics_SetPressure (closed_P (reconstruct_and_close lib this cc))].
Proof.
  unfold reconstruction_calls. cbv zeta.
  rewrite filter_cons. simpl.
  by rewrite list.filter_app, closure_queries_kinetics.
Qed.

(** Every evaluation starts by asking for the molecular weight. *)
Lemma derivatives_first_call cc w :
  calls (derivatives_world lib this cc w) !! length (calls w)
  = Some (Thermo_MolecularWeight_From_MoleFractions
            (closed_x (reconstruct_and_close lib this cc))).
Proof.
  unfold derivatives_world. cbn [calls].
  rewrite lookup_app_r by lia. by rewrite Nat.sub_diag.
Qed.

End Reached_services.

(** ** A zero total concentration in binary64 *)

Section Zero_total.

Variable lib : OpenSMOKE float.
Variable this : batchAdiabaticOdeSystem float.

Implicit Types (w : World float) (cc c dcdt dfdt : list float).

Lemma std_max_zero_or_negative v :
  zero_or_negative v -> signed_zero (std_max v lit_0).
Proof.
  unfold std_max. intros [Hneg | [-> | ->]].
  - rewrite Hneg. by left.
  - by left.
  - by right.
Qed.

Lemma clipped_zero_or_negative cc :
  Forall zero_or_negative cc -> Forall signed_zero (clipped cc).
Proof.
  intros Hcc. unfold clipped.
  induction Hcc as [|v cc Hv _ IH]; simpl; constructor; [| exact IH].
  by apply std_max_zero_or_negative.
Qed.

Lemma add_signed_zero a b :
  signed_zero a -> signed_zero b -> signed_zero (PrimFloat.add a b).
Proof. intros [-> | ->] [-> | ->]; vm_compute; auto. Qed.

Lemma div_signed_zero a b :
  signed_zero a -> signed_zero b -> PrimFloat.div a b = PrimFloat.nan.
Proof. intros [-> | ->] [-> | ->]; reflexivity. Qed.

Lemma sum_signed_zero c : Forall signed_zero c -> signed_zero (sum c).
Proof.
  intros Hc. destruct Hc as [|c0 rest Hc0 Hrest]; [by left |].
  simpl. revert c0 Hc0. induction Hrest as [|c1 rest Hc1 _ IH]; intros c0 Hc0.
  - exact Hc0.
  - simpl. apply IH. by apply add_signed_zero.
Qed.

Lemma mole_fractions_signed_zero c :
  Forall signed_zero c -> mole_fractions c = replicate (length c) PrimFloat.nan.
Proof.
  intros Hc. unfold mole_fractions.
  pose proof (sum_signed_zero c Hc) as Hsum. revert Hsum. generalize (sum c).
  intros s Hs. induction Hc as [|c0 rest Hc0 _ IH]; [reflexivity |].
  simpl. f_equal; [by apply div_signed_zero | exact IH].
Qed.

(** C1, as the code has it: on a concentration vector whose entries are all
    zero or negative, the clipped total is zero and nothing detects it. Both
    entry points divide by it, hand mole fractions that are all NaN to the
    thermodynamic map, run the closure loop, call the kinetics services as
    for any other input and return. *)
Theorem zero_total_is_not_detected t cc dcdt dfdt dfdc w :
  Forall zero_or_negative cc ->
  length cc = NumberOfSpecies lib ->
  length dcdt = NumberOfSpecies lib ->
  length dfdt = NumberOfSpecies lib ->
  square lib dfdc ->
  exists (out : list float) (w1 : World float)
         (jac : list float * list (list float)) (w2 : World float) (T P : float),
    derivatives lib this t cc dcdt w = Some (out, w1) /\
    jacobian lib this t cc dfdt dfdc w = Some (jac, w2) /\
    signed_zero (sum (clipped cc)) /\
    mole_fractions (clipped cc) = replicate (NumberOfSpecies lib) PrimFloat.nan /\
    calls w1 !! length (calls w)
    = Some (Thermo_MolecularWeight_From_MoleFractions
              (replicate (NumberOfSpecies lib) PrimFloat.nan)) /\
    calls w2 !! length (calls w)
    = Some (Thermo_MolecularWeight_From_MoleFractions
              (replicate (NumberOfSpecies lib) PrimFloat.nan)) /\
    filter is_kinetics_call (calls w1)
    = filter is_kinetics_call (calls w)
      ++ [Kinetics_SetTemperature T; Kinetics_SetPressure P;
          Kinetics_ReactionRates (clipped cc); Kinetics_FormationRates] /\
    filter is_kinetics_call (calls w2)
    = filter is_kinetics_call (calls w)
      ++ [Kinetics_SetTemperature T; Kinetics_SetPressure P;
          Kinetics_DerivativesOfFormationRates (clipped cc)].
Proof.
  intros Hzero Hcc Hdcdt Hdfdt Hdfdc.
  destruct (reconstruct_and_close_full lib this cc Hcc) as (Hc & _ & Hx & _).
  pose proof (clipped_zero_or_negative cc Hzero) as Hclip.
  pose proof (mole_fractions_signed_zero (clipped cc) Hclip) as Hnan.
  rewrite length_clipped, Hcc in Hnan.
  exists (derivatives_result lib this cc dcdt), (derivatives_world lib this cc w),
    (jacobian_dfdt lib dfdt, jacobian_dfdc lib this cc), (jacobian_world lib this cc w),
    (closed_T (reconstruct_and_close lib this cc)),
    (closed_P (reconstruct_and_close lib this cc)).
  split; [apply derivatives_eq; lia |].
  split; [apply jacobian_eq; [lia | lia | exact Hdfdc] |].
  split; [by apply sum_signed_zero |].
  split; [exact Hnan |].
  split; [by rewrite derivatives_first_call, Hx, Hnan |].
  split.
  { unfold jacobian_world. cbn [calls]. rewrite lookup_app_r by lia.
    rewrite Nat.sub_diag. unfold reconstruction_calls. cbv zeta. cbn [app lookup list_lookup].
    by rewrite Hx, Hnan. }
  split.
  - unfold derivatives_world. cbn [calls].
    rewrite !list.filter_app, reconstruction_calls_kinetics, Hc.
    rewrite !filter_cons. simpl. reflexivity.
  - unfold jacobian_world. cbn [calls].
    rewrite !list.filter_app, reconstruction_calls_kinetics, Hc.
    rewrite !filter_cons. simpl. reflexivity.
Qed.

End Zero_total.

Lemma zero_total_is_not_detected_witness :
  exists (out : list float) (w1 : World float),
    derivatives mixture64 reactor64 0%float depleted64 field64 fresh_world = Some (out, w1) /\
    calls w1 !! 0%nat
    = Some (Thermo_MolecularWeight_From_MoleFractions [PrimFloat.nan; PrimFloat.nan]).
Proof.
  destruct (zero_total_is_not_detected mixture64 reactor64 0%float depleted64 field64
              field64 matrix64 fresh_world)
    as (out & w1 & jac & w2 & T & P & Hrun & _ & _ & _ & Hfirst & _);
    [| reflexivity | reflexivity | reflexivity | exact square_matrix64 |].
  - constructor; [left; reflexivity |].
    constructor; [right; left; reflexivity | constructor].
  - exists out, w1. split; [exact Hrun | exact Hfirst].
Defined.

(** C1 as stated fails: on the all-zero input of the test mixture
    [derivatives] and [jacobian] return, NaN in their outputs, and the
    kinetics map has been set to NaN temperature and pressure and queried. *)
Lemma all_zero_input_reaches_kinetics :
  option_map (fun r => (fst r, filter is_kinetics_call (calls (snd r))))
    (derivatives mixture64 reactor64 0%float zeros64 field64 fresh_world)
  = Some ([PrimFloat.nan; PrimFloat.nan],
          [Kinetics_SetTemperature PrimFloat.nan; Kinetics_SetPressure PrimFloat.nan;
           Kinetics_ReactionRates [0; 0]%float; Kinetics_FormationRates]) /\
  option_map (fun r => (fst r, filter is_kinetics_call (calls (snd r))))
    (jacobian mixture64 reactor64 0%float zeros64 field64 matrix64 fresh_world)
  = Some (([0; 0]%float,
           [[PrimFloat.nan; 0%float]; [PrimFloat.nan; 0%float]]),
          [Kinetics_SetTemperature PrimFloat.nan; Kinetics_SetPressure PrimFloat.nan;
           Kinetics_DerivativesOfFormationRates [0; 0]%float]).
Proof. split; vm_compute; reflexivity. Qed.

(** ** Scaled concentrations (lines 85-104) *)

Section Scaled_input.

Context {D : Type} `{Scalar D}.

Variable lib : OpenSMOKE D.
Variable this : batchAdiabaticOdeSystem D.

Implicit Types (w : World D) (cc dcdt : list D).

Local Open Scope scalar_scope.

(** The second call of an evaluation is the first enthalpy inversion. *)
Lemma derivatives_second_call cc w :
  constructed this ->
  length cc = NumberOfSpecies lib ->
  calls (derivatives_world lib this cc w) !! S (length (calls w))
  = Some (first_closure_query lib this cc).
Proof.
  intros Hthis Hcc.
  pose proof (constructed_maxIterations this Hthis) as Hmax.
  pose proof (closure_iterations_pos lib this (Z.to_nat (maxIterations_ this))
                (closed_cTot (reconstruct_and_close lib this cc))
                (closed_mw (reconstruct_and_close lib this cc))
                (closed_x (reconstruct_and_close lib this cc))
                (TInitial_ this, PInitial_ this)) as Hpos.
  change (closure_iterations lib this (Z.to_nat (maxIterations_ this))
            (closed_cTot (reconstruct_and_close lib this cc))
            (closed_mw (reconstruct_and_close lib this cc))
            (closed_x (reconstruct_and_close lib this cc))
            (TInitial_ this, PInitial_ this))
    with (closed_iterations (reconstruct_and_close lib this cc)) in Hpos.
  rewrite Hmax in Hpos.
  unfold derivatives_world. cbn [calls].
  rewrite lookup_app_r by lia.
  replace (S (length (calls w)) - length (calls w))%nat with 1%nat by lia.
  unfold reconstruction_calls. cbv zeta.
  destruct (closed_iterations (reconstruct_and_close lib this cc)) as [|k] eqn:Hk;
    [lia |].
  unfold closure_queries. simpl.
  unfold closure_query, target_enthalpy, first_closure_query. simpl.
  by rewrite take_ge by lia.
Qed.

(** The run on a concentration vector scaled by k, whatever the arithmetic:
    it works on the clipped entries k * cc_i and on their own total, from
    its first iteration to the final P = cTot * (R * T). *)
Lemma scaled_runs t k cc dcdt w :
  constructed this ->
  length cc = NumberOfSpecies lib ->
  length dcdt = NumberOfSpecies lib ->
  exists (out out' : list D) (w1 w1' : World D),
    derivatives lib this t cc dcdt w = Some (out, w1) /\
    derivatives lib this t (map (smul k) cc) dcdt w = Some (out', w1') /\
    at_c (rates (kineticsMap_ w1)) = clipped cc /\
    at_c (rates (kineticsMap_ w1')) = clipped (map (smul k) cc) /\
    calls w1 !! S (length (calls w)) = Some (first_closure_query lib this cc) /\
    calls w1' !! S (length (calls w))
    = Some (first_closure_query lib this (map (smul k) cc)) /\
    thermo_P (thermoMap_ w1)
    = sum (clipped cc) * (R_J_kmol lib * thermo_T (thermoMap_ w1)) /\
    thermo_P (thermoMap_ w1')
    = sum (clipped (map (smul k) cc)) * (R_J_kmol lib * thermo_T (thermoMap_ w1')).
Proof.
  intros Hthis Hcc Hdcdt.
  assert (length (map (smul k) cc) = NumberOfSpecies lib) as Hcc'
    by (by rewrite length_map).
  destruct (reconstruct_and_close_full lib this cc Hcc) as (Hc & _).
  destruct (reconstruct_and_close_full lib this _ Hcc') as (Hc' & _).
  exists (derivatives_result lib this cc dcdt),
    (derivatives_result lib this (map (smul k) cc) dcdt),
    (derivatives_world lib this cc w),
    (derivatives_world lib this (map (smul k) cc) w).
  split; [apply derivatives_eq; lia |].
  split; [apply derivatives_eq; lia |].
  split; [exact Hc |].
  split; [exact Hc' |].
  split; [by apply derivatives_second_call |].
  split; [by apply derivatives_second_call |].
  split; [exact (closed_ideal_gas lib this cc Hthis Hcc) |].
  exact (closed_ideal_gas lib this (map (smul k) cc) Hthis Hcc').
Qed.

End Scaled_input.

(** * Rounding in binary64 *)

(** ** Powers of two *)

Section Powers.

Local Open Scope R_scope.

Lemma bpow_pos e : 0 < bpow e.
Proof. apply powerRZ_lt. lra. Qed.

Lemma bpow_add a b : bpow (a + b) = bpow a * bpow b.
Proof. apply powerRZ_add. lra. Qed.

Lemma bpow_0 : bpow 0 = 1.
Proof. reflexivity. Qed.

Lemma bpow_1 : bpow 1 = 2.
Proof. unfold bpow. simpl. lra. Qed.

Lemma bpow_m1 : bpow (-1) = / 2.
Proof. unfold bpow. simpl. f_equal. lra. Qed.

Lemma bpow_succ e : bpow (e + 1) = 2 * bpow e.
Proof. rewrite bpow_add, bpow_1. lra. Qed.

Lemma bpow_pred e : bpow (e - 1) = bpow e / 2.
Proof.
  replace (e - 1)%Z with (e + -1)%Z by lia.
  rewrite bpow_add, bpow_m1. lra.
Qed.

Lemma bpow_opp e : bpow (- e) = / bpow e.
Proof.
  pose proof (bpow_pos e) as Hpos.
  pose proof (bpow_add e (- e)) as Hadd.
  rewrite Z.add_opp_diag_r, bpow_0 in Hadd.
  apply Rmult_eq_reg_l with (bpow e); [| lra].
  rewrite <-Hadd. field. lra.
Qed.

Lemma bpow_ge_1 n : (0 <= n)%Z -> 1 <= bpow n.
Proof.
  intros Hn. pattern n. apply natlike_ind; [rewrite bpow_0; lra | | exact Hn].
  intros x Hx IH. unfold Z.succ. rewrite bpow_succ. lra.
Qed.

Lemma bpow_le a b : (a <= b)%Z -> bpow a <= bpow b.
Proof.
  intros Hab. replace b with (a + (b - a))%Z by lia.
  rewrite bpow_add.
  pose proof (bpow_pos a). pose proof (bpow_ge_1 (b - a) ltac:(lia)).
  nra.
Qed.

Lemma bpow_lt a b : (a < b)%Z -> bpow a < bpow b.
Proof.
  intros Hab. apply Rlt_le_trans with (bpow (a + 1)).
  - rewrite bpow_succ. pose proof (bpow_pos a). lra.
  - apply bpow_le. lia.
Qed.

Lemma bpow_IZR n : (0 <= n)%Z -> bpow n = IZR (2 ^ n).
Proof.
  intros Hn. pattern n. apply natlike_ind; [reflexivity | | exact Hn].
  intros x Hx IH. unfold Z.succ. rewrite bpow_succ, IH, Z.pow_add_r by lia.
  rewrite mult_IZR. simpl. lra.
Qed.

End Powers.

(** The number of binary digits. *)
Lemma digits2_pos_spec p :
  (2 ^ (Zpos (digits2_pos p) - 1) <= Zpos p < 2 ^ Zpos (digits2_pos p))%Z.
Proof.
  induction p as [p IH|p IH|]; simpl digits2_pos.
  - rewrite Pos2Z.inj_succ. replace (Z.succ (Zpos (digits2_pos p)) - 1)%Z
      with (Z.succ (Zpos (digits2_pos p) - 1))%Z by lia.
    rewrite !Z.pow_succ_r by lia. lia.
  - rewrite Pos2Z.inj_succ. replace (Z.succ (Zpos (digits2_pos p)) - 1)%Z
      with (Z.succ (Zpos (digits2_pos p) - 1))%Z by lia.
    rewrite !Z.pow_succ_r by lia. lia.
  - simpl. lia.
Qed.

Lemma Zdigits2_spec m :
  (0 < m)%Z -> (2 ^ (Zdigits2 m - 1) <= m < 2 ^ Zdigits2 m)%Z /\ (0 < Zdigits2 m)%Z.
Proof.
  destruct m as [|p|p]; try lia. intros _. simpl.
  split; [apply digits2_pos_spec | lia].
Qed.

Lemma Zdigits2_bpow m :
  (0 < m)%Z -> (bpow (Zdigits2 m - 1) <= IZR m < bpow (Zdigits2 m))%R.
Proof.
  intros Hm. destruct (Zdigits2_spec m Hm) as [[Hlo Hhi] Hd].
  rewrite !bpow_IZR by lia. split; [by apply IZR_le | by apply IZR_lt].
Qed.

Lemma Zdigits2_unique m d :
  (0 < d)%Z -> (2 ^ (d - 1) <= m < 2 ^ d)%Z -> Zdigits2 m = d.
Proof.
  intros Hd [Hlo Hhi].
  assert (0 < m)%Z as Hm by (pose proof (Z.pow_pos_nonneg 2 (d - 1)); lia).
  destruct (Zdigits2_spec m Hm) as [[Hlo' Hhi'] Hd'].
  destruct (Z.lt_trichotomy (Zdigits2 m) d) as [Hlt | [Heq | Hgt]]; [| exact Heq |].
  - assert (2 ^ Zdigits2 m <= 2 ^ (d - 1))%Z by (apply Z.pow_le_mono_r; lia). lia.
  - assert (2 ^ d <= 2 ^ (Zdigits2 m - 1))%Z by (apply Z.pow_le_mono_r; lia). lia.
Qed.

(** ** Locations *)

Section Locations.

Local Open Scope R_scope.

Lemma inbetween_bounds m y l : inbetween m y l -> IZR m <= y < IZR m + 1.
Proof. destruct l as [|[]]; simpl; lra. Qed.

Lemma loc_of_shr_record_of_loc m l :
  loc_of_shr_record (shr_record_of_loc m l) = l /\
  shr_m (shr_record_of_loc m l) = m.
Proof. by destruct l as [|[]]. Qed.

Lemma shr_1_spec mrs y :
  (0 <= shr_m mrs)%Z ->
  inbetween (shr_m mrs) y (loc_of_shr_record mrs) ->
  (0 <= shr_m (shr_1 mrs))%Z /\
  inbetween (shr_m (shr_1 mrs)) (y / 2) (loc_of_shr_record (shr_1 mrs)).
Proof.
  destruct mrs as [m r s]. cbn [shr_m]. intros Hm.
  destruct m as [|[p|p|]|p]; [| | | | exfalso; lia];
    destruct r, s; cbn [shr_1 shr_m loc_of_shr_record inbetween orb];
    try rewrite (IZR_POS_xO p); try rewrite (IZR_POS_xI p);
    try generalize (IZR (Z.pos p)); intros; (split; [lia | lra]).
Qed.

Lemma iter_pos_shr_1_spec p : forall mrs y,
  (0 <= shr_m mrs)%Z ->
  inbetween (shr_m mrs) y (loc_of_shr_record mrs) ->
  (0 <= shr_m (iter_pos shr_1 p mrs))%Z /\
  inbetween (shr_m (iter_pos shr_1 p mrs)) (y * bpow (- Zpos p))
    (loc_of_shr_record (iter_pos shr_1 p mrs)).
Proof.
  induction p as [p IH|p IH|]; intros mrs y Hm Hy; simpl iter_pos.
  - destruct (shr_1_spec mrs y Hm Hy) as [Hm1 Hy1].
    destruct (IH _ _ Hm1 Hy1) as [Hm2 Hy2].
    destruct (IH _ _ Hm2 Hy2) as [Hm3 Hy3].
    split; [exact Hm3 |].
    replace (y * bpow (- Zpos p~1)) with (y / 2 * bpow (- Zpos p) * bpow (- Zpos p));
      [exact Hy3 |].
    replace (- Zpos p~1)%Z with (-1 + (- Zpos p + - Zpos p))%Z by lia.
    rewrite !bpow_add, bpow_m1. lra.
  - destruct (IH _ _ Hm Hy) as [Hm2 Hy2].
    destruct (IH _ _ Hm2 Hy2) as [Hm3 Hy3].
    split; [exact Hm3 |].
    replace (y * bpow (- Zpos p~0)) with (y * bpow (- Zpos p) * bpow (- Zpos p));
      [exact Hy3 |].
    replace (- Zpos p~0)%Z with (- Zpos p + - Zpos p)%Z by lia.
    rewrite !bpow_add. lra.
  - destruct (shr_1_spec mrs y Hm Hy) as [Hm1 Hy1].
    split; [exact Hm1 |]. change (- Z.pos 1)%Z with (-1)%Z. rewrite bpow_m1. exact Hy1.
Qed.

End Locations.

(** ** Rounding to binary64 *)

Lemma fexp64_eq e : fexp64 e = Z.max (e - 53) (-1074).
Proof. reflexivity. Qed.

Section Rounding.

Local Open Scope R_scope.

Lemma Zdigits2_succ_le m : (0 <= m)%Z -> IZR m + 1 <= bpow (Zdigits2 m).
Proof.
  intros Hm. destruct (decide (m = 0%Z)) as [-> | Hne].
  - cbn [Zdigits2]. rewrite bpow_0. lra.
  - destruct (Zdigits2_spec m ltac:(lia)) as [[_ Hhi] Hd].
    rewrite bpow_IZR by lia. rewrite <-plus_IZR. apply IZR_le. lia.
Qed.

Lemma shr_fexp_spec m e l X :
  (0 <= m)%Z ->
  (e <= fexp64 (Zdigits2 m + e))%Z ->
  inbetween m (X * bpow (- e)) l ->
  exists mrs,
    shr_fexp FloatOps.prec FloatOps.emax m e l = (mrs, fexp64 (Zdigits2 m + e)) /\
    (0 <= shr_m mrs)%Z /\
    inbetween (shr_m mrs) (X * bpow (- fexp64 (Zdigits2 m + e))) (loc_of_shr_record mrs) /\
    (fexp64 (Zdigits2 m + e) = e -> shr_m mrs = m /\ loc_of_shr_record mrs = l).
Proof.
  intros Hm He Hin. unfold shr_fexp, shr.
  set (e' := fexp64 (Zdigits2 m + e)) in *.
  destruct (loc_of_shr_record_of_loc m l) as [Hl Hrm].
  destruct (e' - e)%Z as [|p|p] eqn:Hn.
  - assert (e' = e) as Hee by lia.
    exists (shr_record_of_loc m l). rewrite Hee, Hl, Hrm. by repeat split.
  - pose proof (iter_pos_shr_1_spec p (shr_record_of_loc m l) (X * bpow (- e))) as Hit.
    rewrite Hl, Hrm in Hit. destruct (Hit Hm Hin) as [Hm' Hin'].
    exists (iter_pos shr_1 p (shr_record_of_loc m l)).
    split; [f_equal; lia |]. split; [exact Hm' |]. split; [| lia].
    replace (- e')%Z with (- e + - Z.pos p)%Z by lia.
    rewrite bpow_add, <-Rmult_assoc. exact Hin'.
  - lia.
Qed.

Lemma round_nearest_even_spec m y l :
  inbetween m y l ->
  (m <= round_nearest_even m l <= m + 1)%Z /\
  Rabs (IZR (round_nearest_even m l) - y) <= / 2 /\
  (l = loc_Exact -> IZR (round_nearest_even m l) = y).
Proof.
  intros Hin. destruct l as [|[]]; simpl in *.
  - split; [lia |]. split; [| by intros _]. rewrite Hin.
    replace (IZR m - IZR m) with 0 by lra. rewrite Rabs_R0. lra.
  - destruct (Z.even m).
    + split; [lia |]. split; [| done]. apply Rabs_le. lra.
    + split; [lia |]. split; [| done]. rewrite plus_IZR. apply Rabs_le. lra.
  - split; [lia |]. split; [| done]. apply Rabs_le. lra.
  - split; [lia |]. split; [| done]. rewrite plus_IZR. apply Rabs_le. lra.
Qed.

(** A second [shr_fexp] leaves a mantissa of at most 53 digits alone. *)
Lemma shr_fexp_canonical m e :
  (0 <= m < 2 ^ 53)%Z ->
  (-1074 <= e)%Z ->
  shr_fexp FloatOps.prec FloatOps.emax m e loc_Exact
  = ({| shr_m := m; shr_r := false; shr_s := false |}, e).
Proof.
  intros Hm He. unfold shr_fexp, shr.
  assert (Zdigits2 m <= 53)%Z as Hd.
  { destruct (decide (m = 0%Z)) as [-> | Hne]; [simpl; lia |].
    destruct (Zdigits2_spec m ltac:(lia)) as [[Hlo _] Hd].
    destruct (Z_le_gt_dec (Zdigits2 m) 53) as [Hle | Hgt]; [exact Hle | exfalso].
    assert (2 ^ 53 <= 2 ^ (Zdigits2 m - 1))%Z by (apply Z.pow_le_mono_r; lia).
    lia. }
  rewrite fexp64_eq.
  destruct (Z.max (Zdigits2 m + e - 53) (-1074) - e)%Z as [|p|p] eqn:Hn;
    [reflexivity | lia | reflexivity].
Qed.

Lemma shr_fexp_carry e :
  (-1074 <= e)%Z ->
  shr_fexp FloatOps.prec FloatOps.emax (2 ^ 53) e loc_Exact
  = ({| shr_m := 2 ^ 52; shr_r := false; shr_s := false |}, (e + 1)%Z).
Proof.
  intros He. unfold shr_fexp, shr. rewrite fexp64_eq.
  change (Zdigits2 (2 ^ 53)) with 54%Z.
  replace (Z.max (54 + e - 53) (-1074) - e)%Z with 1%Z by lia.
  reflexivity.
Qed.

Lemma binary_round_aux_spec m e l X :
  (0 <= m)%Z ->
  (e <= fexp64 (Zdigits2 m + e))%Z ->
  inbetween m (X * bpow (- e)) l ->
  (binary_round_aux FloatOps.prec FloatOps.emax false m e l = S754_infinity false /\
   bpow 1023 <= X) \/
  (nonneg_finite (binary_round_aux FloatOps.prec FloatOps.emax false m e l) /\
   (Rabs (value (binary_round_aux FloatOps.prec FloatOps.emax false m e l) - X)
    <= bpow (-53) * X \/
    (Rabs (value (binary_round_aux FloatOps.prec FloatOps.emax false m e l) - X)
     <= bpow (-1075) /\
     (l <> loc_Exact \/ (e < -1074)%Z)))).
Proof.
  intros Hm He Hin.
  destruct (shr_fexp_spec m e l X Hm He Hin) as (mrs & Heq & Hm' & Hin' & Hsame).
  unfold binary_round_aux. rewrite Heq. cbv beta iota.
  set (d := Zdigits2 m) in *. set (e' := fexp64 (d + e)) in *.
  set (m' := shr_m mrs) in *. set (l' := loc_of_shr_record mrs) in *.
  destruct (round_nearest_even_spec m' _ l' Hin') as (Hmm & Habs & Hex).
  set (m'' := round_nearest_even m' l') in *.
  pose proof (inbetween_bounds _ _ _ Hin) as HX.
  pose proof (inbetween_bounds _ _ _ Hin') as HY.
  pose proof (Zdigits2_succ_le m Hm) as Hd. fold d in Hd.
  assert (-1074 <= e')%Z as Hemin by (unfold e'; rewrite fexp64_eq; lia).
  assert (d + e - 53 <= e')%Z as Hprec by (unfold e'; rewrite fexp64_eq; lia).
  assert (e' = (d + e - 53)%Z \/ e' = (-1074)%Z) as Hcase
    by (unfold e'; rewrite fexp64_eq; lia).
  pose proof (bpow_pos e') as Hbe'. pose proof (bpow_pos (- e')) as Hbme'.
  pose proof (bpow_pos (- e)) as Hbme.
  assert (bpow e' * bpow (- e') = 1) as Hinv
    by (rewrite <-bpow_add, Z.add_opp_diag_r; apply bpow_0).
  assert (0 <= X) as HX0.
  { assert (0 <= IZR m) by (apply IZR_le; lia). 
    destruct (Rle_or_lt 0 X) as [H0 | H0]; [exact H0 | exfalso].
    assert (X * bpow (- e) < 0) by nra. lra. }
  (* the shifted mantissa has at most 53 digits *)
  assert (X * bpow (- e') < bpow 53) as HY53.
  { replace (- e')%Z with (- e + (e - e'))%Z by lia.
    rewrite bpow_add, <-Rmult_assoc.
    apply Rlt_le_trans with (bpow d * bpow (e - e')).
    - apply Rmult_lt_compat_r; [apply bpow_pos | lra].
    - rewrite <-bpow_add. apply bpow_le. lia. }
  assert (m' < 2 ^ 53)%Z as Hm53.
  { apply lt_IZR. rewrite <-bpow_IZR by lia. lra. }
  (* and exactly 53 in the normal range *)
  assert (e' = (d + e - 53)%Z -> bpow 52 <= X * bpow (- e')) as HY52.
  { intros He'.
    assert (0 < m)%Z as Hmpos.
    { destruct (decide (m = 0%Z)) as [Hm0 | Hne]; [| lia].
      exfalso. assert (d = 0%Z) as Hd0 by (unfold d; rewrite Hm0; reflexivity). lia. }
    destruct (Zdigits2_bpow m Hmpos) as [Hlo _]. fold d in Hlo.
    replace (- e')%Z with (- e + (e - e'))%Z by lia.
    rewrite bpow_add, <-Rmult_assoc.
    replace 52%Z with (d - 1 + (e - e'))%Z by lia. rewrite bpow_add.
    apply Rmult_le_compat_r; [pose proof (bpow_pos (e - e')); lra | lra]. }
  (* the value that comes out *)
  assert (Rabs (IZR m'' * bpow e' - X) <= bpow e' / 2) as Herr.
  { replace (IZR m'' * bpow e' - X) with ((IZR m'' - X * bpow (- e')) * bpow e')
      by (rewrite Rmult_minus_distr_r, Rmult_assoc, (Rmult_comm (bpow (- e'))), Hinv; lra).
    rewrite Rabs_mult, (Rabs_pos_eq (bpow e')) by lra. nra. }
  assert (Rabs (IZR m'' * bpow e' - X) <= bpow (-53) * X \/
          (Rabs (IZR m'' * bpow e' - X) <= bpow (-1075) /\
           (l <> loc_Exact \/ (e < -1074)%Z))) as Hbound.
  { destruct Hcase as [He' | He'].
    - left. specialize (HY52 He').
      assert (bpow 52 * bpow e' <= X) as HXlo.
      { replace X with (X * bpow (- e') * bpow e')
          by (rewrite Rmult_assoc, (Rmult_comm (bpow (- e'))), Hinv; lra).
        apply Rmult_le_compat_r; lra. }
      assert (bpow e' / 2 = bpow (-53) * (bpow 52 * bpow e')) as Hhalf.
      { rewrite <-Rmult_assoc, <-bpow_add. change (-53 + 52)%Z with (-1)%Z.
        rewrite bpow_m1. lra. }
      apply Rle_trans with (bpow e' / 2); [exact Herr |]. rewrite Hhalf.
      apply Rmult_le_compat_l; [left; apply bpow_pos | exact HXlo].
    - assert (bpow e' / 2 = bpow (-1075)) as Hsub.
      { rewrite He'. change (-1075)%Z with (-1074 - 1)%Z. by rewrite bpow_pred. }
      assert (l = loc_Exact \/ l <> loc_Exact) as [Hl | Hl]
        by (destruct l; [by left | by right]); [| right].
      + destruct (Z_lt_le_dec e (-1074)) as [Hlt | Hge]; [right | left].
        * split; [| by right]. rewrite <-Hsub. exact Herr.
        * destruct Hsame as [Hmm' Hll']; [lia |].
          specialize (Hex ltac:(congruence)).
          replace (IZR m'' * bpow e' - X) with 0.
          { rewrite Rabs_R0. pose proof (bpow_pos (-53)). nra. }
          rewrite Hex, Rmult_assoc, (Rmult_comm (bpow (- e'))), Hinv. lra.
      + split; [| by left]. rewrite <-Hsub. exact Herr. }
  destruct (decide (m'' = (2 ^ 53)%Z)) as [Hcarry | Hnocarry].
  - (* the rounding carried into a 54th digit *)
    rewrite Hcarry, shr_fexp_carry by exact Hemin. cbv beta iota. cbn [shr_m].
    change (2 ^ 52)%Z with (Z.pos (2 ^ 52)).
    assert (IZR m'' * bpow e' = IZR (Z.pos (2 ^ 52)) * bpow (e' + 1)) as Hval.
    { rewrite Hcarry, bpow_succ. change (2 ^ 53)%Z with (2 * Z.pos (2 ^ 52))%Z.
      rewrite mult_IZR. lra. }
    destruct (Z.leb_spec (e' + 1) (FloatOps.emax - FloatOps.prec)) as [Hle | Hgt].
    + right. split; [exact I |]. cbn [value]. rewrite <-Hval. exact Hbound.
    + left. split; [reflexivity |].
      change (FloatOps.emax - FloatOps.prec)%Z with 971%Z in Hgt.
      assert (e' = (d + e - 53)%Z) as He' by lia. specialize (HY52 He').
      apply Rle_trans with (bpow 52 * bpow e').
      * rewrite <-bpow_add. apply bpow_le. lia.
      * replace X with (X * bpow (- e') * bpow e')
          by (rewrite Rmult_assoc, (Rmult_comm (bpow (- e'))), Hinv; lra).
        apply Rmult_le_compat_r; lra.
  - rewrite shr_fexp_canonical by lia. cbv beta iota. cbn [shr_m].
    destruct m'' as [|p|p] eqn:Hm''; [| | lia].
    + right. split; [exact I |]. cbn [value].
      rewrite Rmult_0_l in Hbound. exact Hbound.
    + destruct (Z.leb_spec e' (FloatOps.emax - FloatOps.prec)) as [Hle | Hgt].
      * right. split; [exact I |]. cbn [value]. exact Hbound.
      * left. split; [reflexivity |].
        change (FloatOps.emax - FloatOps.prec)%Z with 971%Z in Hgt.
        assert (e' = (d + e - 53)%Z) as He' by lia. specialize (HY52 He').
        apply Rle_trans with (bpow 52 * bpow e').
        -- rewrite <-bpow_add. apply bpow_le. lia.
        -- replace X with (X * bpow (- e') * bpow e')
             by (rewrite Rmult_assoc, (Rmult_comm (bpow (- e'))), Hinv; lra).
           apply Rmult_le_compat_r; lra.
Qed.

End Rounding.

(** ** Addition and division of non-negative binary64 numbers *)

Section Operations.

Local Open Scope R_scope.

Lemma valid64_exponent s m e :
  valid64 (S754_finite s m e) = true -> (-1074 <= e)%Z.
Proof.
  unfold valid_binary, bounded, canonical_mantissa. intros Hv.
  apply andb_prop in Hv as [Hc _]. apply Z.eqb_eq in Hc.
  rewrite fexp64_eq in Hc. lia.
Qed.

Lemma iter_xO_spec d m :
  Zpos (Pos.iter xO m d) = (Zpos m * 2 ^ Zpos d)%Z /\
  Zpos (digits2_pos (Pos.iter xO m d)) = (Zpos (digits2_pos m) + Zpos d)%Z.
Proof.
  induction d as [|d IH] using Pos.peano_ind.
  - simpl. split; lia.
  - rewrite Pos.iter_succ. destruct IH as [IHv IHd].
    rewrite Pos2Z.inj_xO, IHv. cbn [digits2_pos]. rewrite !Pos2Z.inj_succ, IHd.
    rewrite Z.pow_succ_r by lia. split; lia.
Qed.

(** Aligning a mantissa to a smaller exponent keeps the value. *)
Lemma shl_align_spec m e t :
  snd (shl_align m e t) = Z.min e t /\
  IZR (Zpos (fst (shl_align m e t))) * bpow (snd (shl_align m e t))
  = IZR (Zpos m) * bpow e /\
  (Zpos (digits2_pos (fst (shl_align m e t))) + snd (shl_align m e t)
   = Zpos (digits2_pos m) + e)%Z.
Proof.
  unfold shl_align. destruct (t - e)%Z as [|p|p] eqn:Hte; cbn [fst snd].
  - split; [lia |]. by split.
  - split; [lia |]. by split.
  - destruct (iter_xO_spec p m) as [Hv Hd]. split; [lia |]. split; [| lia].
    rewrite Hv, mult_IZR, <-bpow_IZR by lia. rewrite Rmult_assoc, <-bpow_add.
    do 2 f_equal. lia.
Qed.

Lemma binary_round_spec m e :
  (-1074 <= e)%Z ->
  (binary_round FloatOps.prec FloatOps.emax false m e = S754_infinity false /\
   bpow 1023 <= IZR (Zpos m) * bpow e) \/
  (nonneg_finite (binary_round FloatOps.prec FloatOps.emax false m e) /\
   Rabs (value (binary_round FloatOps.prec FloatOps.emax false m e) - IZR (Zpos m) * bpow e)
   <= bpow (-53) * (IZR (Zpos m) * bpow e)).
Proof.
  intros He. unfold binary_round.
  destruct (shl_align_spec m e (fexp64 (Zpos (digits2_pos m) + e))) as (He' & Hv & Hd).
  destruct (shl_align m e (fexp64 (Zpos (digits2_pos m) + e))) as [mz ez].
  cbn [fst snd] in *.
  assert (inbetween (Zpos mz) (IZR (Zpos m) * bpow e * bpow (- ez)) loc_Exact) as Hin.
  { simpl. rewrite <-Hv, Rmult_assoc, <-bpow_add, Z.add_opp_diag_r, bpow_0. lra. }
  assert (ez <= fexp64 (Zdigits2 (Zpos mz) + ez))%Z as Hez.
  { cbn [Zdigits2]. rewrite Hd, He'. lia. }
  destruct (binary_round_aux_spec (Zpos mz) ez loc_Exact _ ltac:(lia) Hez Hin)
    as [[Hinf Hbig] | [Hfin [Hrel | [_ [Hl | Hlt]]]]].
  - left. by split.
  - right. by split.
  - done.
  - exfalso. rewrite fexp64_eq in He'. lia.
Qed.

Lemma SF64add_finite mx ex my ey :
  (-1074 <= ex)%Z -> (-1074 <= ey)%Z ->
  let x := S754_finite false mx ex in
  let y := S754_finite false my ey in
  (FloatAxioms.SF64add x y = S754_infinity false /\ bpow 1023 <= value x + value y) \/
  (nonneg_finite (FloatAxioms.SF64add x y) /\
   Rabs (value (FloatAxioms.SF64add x y) - (value x + value y))
   <= bpow (-53) * (value x + value y)).
Proof.
  intros Hex Hey x y. unfold FloatAxioms.SF64add, SFadd, x, y. cbn [value cond_Zopp].
  destruct (shl_align_spec mx ex (Z.min ex ey)) as (Hex' & Hvx & _).
  destruct (shl_align_spec my ey (Z.min ex ey)) as (Hey' & Hvy & _).
  replace (Z.min ex (Z.min ex ey)) with (Z.min ex ey) in Hex' by lia.
  replace (Z.min ey (Z.min ex ey)) with (Z.min ex ey) in Hey' by lia.
  rewrite Hex' in Hvx. rewrite Hey' in Hvy.
  rewrite <-Hvx, <-Hvy, <-Rmult_plus_distr_r, <-plus_IZR.
  rewrite <-Pos2Z.inj_add. cbn [binary_normalize].
  apply binary_round_spec. lia.
Qed.

Lemma SF64add_nonneg x y :
  valid64 x = true -> valid64 y = true ->
  nonneg_finite x -> nonneg_finite y ->
  (FloatAxioms.SF64add x y = S754_infinity false /\ bpow 1023 <= value x + value y) \/
  (nonneg_finite (FloatAxioms.SF64add x y) /\
   Rabs (value (FloatAxioms.SF64add x y) - (value x + value y))
   <= bpow (-53) * (value x + value y)).
Proof.
  intros Hvx Hvy Hx Hy.
  destruct x as [sx|sx| |sx mx ex]; try done; destruct y as [sy|sy| |sy my ey]; try done.
  - right. split; [by destruct sx, sy |].
    assert (value (FloatAxioms.SF64add (S754_zero sx) (S754_zero sy)) = 0) as ->
      by (by destruct sx, sy).
    cbn [value]. rewrite Rplus_0_r, Rminus_0_r, Rabs_R0. lra.
  - destruct sy; [done |]. right. split; [exact I |].
    change (FloatAxioms.SF64add (S754_zero sx) (S754_finite false my ey))
      with (S754_finite false my ey).
    cbn [value]. rewrite Rplus_0_l, Rminus_diag, Rabs_R0.
    pose proof (bpow_pos (-53)). pose proof (bpow_pos ey).
    assert (0 < IZR (Zpos my)) by (apply IZR_lt; lia).
    apply Rmult_le_pos; [lra | apply Rmult_le_pos; lra].
  - destruct sx; [done |]. right. split; [exact I |].
    change (FloatAxioms.SF64add (S754_finite false mx ex) (S754_zero sy))
      with (S754_finite false mx ex).
    cbn [value]. rewrite Rplus_0_r, Rminus_diag, Rabs_R0.
    pose proof (bpow_pos (-53)). pose proof (bpow_pos ex).
    assert (0 < IZR (Zpos mx)) by (apply IZR_lt; lia).
    apply Rmult_le_pos; [lra | apply Rmult_le_pos; lra].
  - destruct sx; [done |]. destruct sy; [done |].
    apply SF64add_finite; by eapply valid64_exponent.
Qed.

End Operations.

Section Division.

Local Open Scope R_scope.

(** The location of the remainder of an integer division. *)
Lemma new_location_spec m2 q r :
  (0 < m2)%Z -> (0 <= r < m2)%Z ->
  inbetween q (IZR q + IZR r / IZR m2) (new_location m2 r).
Proof.
  intros Hm2 Hr.
  assert (0 < IZR m2) as HM by (apply IZR_lt; lia).
  assert (0 <= IZR r < IZR m2) as HR by (split; [apply IZR_le | apply IZR_lt]; lia).
  assert (IZR r / IZR m2 * IZR m2 = IZR r) as Ht by (field; lra).
  assert (forall c, (IZR r < c * IZR m2 -> IZR r / IZR m2 < c) /\
                    (c * IZR m2 < IZR r -> c < IZR r / IZR m2)) as Hdiv.
  { intros c. split; intros Hc.
    - apply Rmult_lt_reg_r with (IZR m2); [exact HM | by rewrite Ht].
    - apply Rmult_lt_reg_r with (IZR m2); [exact HM | by rewrite Ht]. }
  revert Ht Hdiv. generalize (IZR r / IZR m2). intros t Ht Hdiv.
  assert (r = 0%Z -> t = 0) as Hzero.
  { intros Hr0. rewrite Hr0 in Ht. apply Rmult_integral in Ht as [Ht | Ht]; lra. }
  assert (r <> 0%Z -> 0 < t < 1) as Hpos.
  { intros Hr0. assert (0 < IZR r) as HRpos by (apply IZR_lt; lia).
    split; [apply (Hdiv 0) | apply (Hdiv 1)]; lra. }
  unfold new_location, new_location_even, new_location_odd.
  destruct (Z.even m2) eqn:Heven; cbv beta;
    (destruct (Z.eqb_spec r 0) as [Hr0 | Hr0];
     [rewrite (Hzero Hr0); simpl; lra | specialize (Hpos Hr0)]).
  - destruct (Z.compare_spec (2 * r) m2) as [Hc | Hc | Hc]; cbn [inbetween].
    + apply (f_equal IZR) in Hc. rewrite mult_IZR in Hc.
      assert (t = / 2) as -> by (apply Rmult_eq_reg_r with (IZR m2); lra). lra.
    + apply IZR_lt in Hc. rewrite mult_IZR in Hc.
      assert (t < / 2) by (apply (Hdiv (/ 2)); lra). lra.
    + apply IZR_lt in Hc. rewrite mult_IZR in Hc.
      assert (/ 2 < t) by (apply (Hdiv (/ 2)); lra). lra.
  - assert ((2 * r)%Z <> m2) as Hodd.
    { intros Heq. rewrite <-Heq, Z.even_mul in Heven. discriminate. }
    destruct (Z.compare_spec (2 * r + 1) m2) as [Hc | Hc | Hc]; cbn [inbetween].
    + assert (2 * r < m2)%Z as Hlt by lia.
      apply IZR_lt in Hlt. rewrite mult_IZR in Hlt.
      assert (t < / 2) by (apply (Hdiv (/ 2)); lra). lra.
    + assert (2 * r < m2)%Z as Hlt by lia.
      apply IZR_lt in Hlt. rewrite mult_IZR in Hlt.
      assert (t < / 2) by (apply (Hdiv (/ 2)); lra). lra.
    + assert (m2 < 2 * r)%Z as Hlt by lia.
      apply IZR_lt in Hlt. rewrite mult_IZR in Hlt.
      assert (/ 2 < t) by (apply (Hdiv (/ 2)); lra). lra.
Qed.

Lemma Zdigits2_nonneg m : (0 <= Zdigits2 m)%Z.
Proof. destruct m; simpl; lia. Qed.

Lemma Zdigits2_ge m k : (0 <= k)%Z -> (2 ^ k <= m)%Z -> (k + 1 <= Zdigits2 m)%Z.
Proof.
  intros Hk Hm.
  assert (0 < m)%Z as Hpos by (pose proof (Z.pow_pos_nonneg 2 k); lia).
  destruct (Zdigits2_spec m Hpos) as [[_ Hhi] Hd].
  destruct (Z_lt_le_dec k (Zdigits2 m)) as [Hlt | Hge]; [lia | exfalso].
  assert (2 ^ Zdigits2 m <= 2 ^ k)%Z by (apply Z.pow_le_mono_r; lia). lia.
Qed.

Lemma SFdiv_core_binary_spec m1 e1 m2 e2 :
  (0 < m1)%Z -> (0 < m2)%Z ->
  let q := fst (fst (SFdiv_core_binary FloatOps.prec FloatOps.emax m1 e1 m2 e2)) in
  let e' := snd (fst (SFdiv_core_binary FloatOps.prec FloatOps.emax m1 e1 m2 e2)) in
  let l := snd (SFdiv_core_binary FloatOps.prec FloatOps.emax m1 e1 m2 e2) in
  (0 <= q)%Z /\
  (e' <= fexp64 (Zdigits2 q + e'))%Z /\
  inbetween q (IZR m1 * bpow e1 / (IZR m2 * bpow e2) * bpow (- e')) l.
Proof.
  intros Hm1 Hm2. unfold SFdiv_core_binary.
  set (d1 := Zdigits2 m1). set (d2 := Zdigits2 m2).
  set (e' := Z.min (fexp64 (d1 + e1 - (d2 + e2))) (e1 - e2)).
  set (s := (e1 - e2 - e')%Z).
  assert (0 <= s)%Z as Hs by (unfold s, e'; lia).
  set (m' := match s with Z.pos _ => Z.shiftl m1 s | 0%Z => m1 | Z.neg _ => 0%Z end).
  assert (m' = (m1 * 2 ^ s)%Z) as Hm'.
  { unfold m'. destruct s as [|p|p] eqn:Hseq; [simpl; lia | | lia].
    by rewrite Z.shiftl_mul_pow2. }
  pose proof (Z_div_mod m' m2 ltac:(lia)) as Hdm.
  destruct (Z.div_eucl m' m2) as [q r]. destruct Hdm as [Hqr Hr].
  cbn [fst snd].
  assert (0 < 2 ^ s)%Z as Hpow by (apply Z.pow_pos_nonneg; lia).
  assert (0 <= q)%Z as Hq by nia.
  split; [exact Hq |].
  destruct (Zdigits2_spec m1 Hm1) as [[Hlo1 Hhi1] Hd1]. fold d1 in Hlo1, Hhi1, Hd1.
  destruct (Zdigits2_spec m2 Hm2) as [[Hlo2 Hhi2] Hd2]. fold d2 in Hlo2, Hhi2, Hd2.
  split.
  - (* the quotient has digits enough *)
    assert (d1 + s - d2 <= Zdigits2 q)%Z as Hdq.
    { destruct (Z_le_gt_dec (d1 + s - d2) 0) as [Hle | Hgt].
      - pose proof (Zdigits2_nonneg q). lia.
      - assert (2 ^ (d1 + s - d2 - 1) <= q)%Z as Hqlo.
        { destruct (Z_le_gt_dec (2 ^ (d1 + s - d2 - 1)) q) as [Hok | Hbad];
            [exact Hok | exfalso].
          assert (2 ^ (d1 - 1 + s) = 2 ^ (d1 + s - d2 - 1) * 2 ^ d2)%Z as Hsplit
            by (rewrite <-Z.pow_add_r by lia; f_equal; lia).
          assert (2 ^ (d1 - 1 + s) = 2 ^ (d1 - 1) * 2 ^ s)%Z as Hsplit'
            by (rewrite <-Z.pow_add_r by lia; f_equal; lia).
          assert (0 < 2 ^ (d1 + s - d2 - 1))%Z by (apply Z.pow_pos_nonneg; lia).
          assert (2 ^ (d1 - 1 + s) <= m')%Z by (rewrite Hm', Hsplit'; nia).
          assert (m' < (q + 1) * m2)%Z by lia.
          assert ((q + 1) * m2 <= 2 ^ (d1 + s - d2 - 1) * m2)%Z by nia.
          assert (2 ^ (d1 + s - d2 - 1) * m2 < 2 ^ (d1 + s - d2 - 1) * 2 ^ d2)%Z by nia.
          lia. }
        pose proof (Zdigits2_ge q (d1 + s - d2 - 1) ltac:(lia) Hqlo). lia. }
    assert (s = e1 - e2 - e')%Z as Hsdef by reflexivity.
    assert (e' = Z.min (Z.max (d1 + e1 - (d2 + e2) - 53) (-1074)) (e1 - e2)) as He'def
      by reflexivity.
    rewrite fexp64_eq. lia.
  - (* and the remainder is located *)
    assert (IZR m1 * bpow e1 / (IZR m2 * bpow e2) * bpow (- e')
            = IZR q + IZR r / IZR m2) as ->.
    { assert (0 < IZR m2) as HM2 by (apply IZR_lt; lia).
      pose proof (bpow_pos e2) as Hb2.
      assert (bpow e1 = bpow s * bpow e' * bpow e2) as ->.
      { rewrite <-!bpow_add. f_equal. unfold s. lia. }
      assert (bpow e' * bpow (- e') = 1) as Hinv
        by (rewrite <-bpow_add, Z.add_opp_diag_r; apply bpow_0).
      assert (IZR m1 * bpow s = IZR m2 * IZR q + IZR r) as Hval.
      { rewrite bpow_IZR by lia. rewrite <-!mult_IZR, <-plus_IZR. f_equal. lia. }
      transitivity (IZR m1 * bpow s * (bpow e' * bpow (- e')) / IZR m2).
      - field. lra.
      - rewrite Hinv, Rmult_1_r, Hval. field. lra. }
    apply new_location_spec; lia.
Qed.

Lemma SF64div_nonneg x my ey :
  valid64 x = true ->
  nonneg_finite x ->
  let y := S754_finite false my ey in
  (FloatAxioms.SF64div x y = S754_infinity false /\ bpow 1023 <= value x / value y) \/
  (nonneg_finite (FloatAxioms.SF64div x y) /\
   Rabs (value (FloatAxioms.SF64div x y) - value x / value y)
   <= bpow (-53) * (value x / value y) + bpow (-1075)).
Proof.
  intros Hvx Hx y. unfold y.
  assert (0 < value (S754_finite false my ey)) as Hy.
  { cbn [value]. apply Rmult_lt_0_compat; [apply IZR_lt; lia | apply bpow_pos]. }
  destruct x as [sx|sx| |sx mx ex]; try done.
  - right. split; [exact I |].
    change (FloatAxioms.SF64div (S754_zero sx) (S754_finite false my ey))
      with (S754_zero (xorb sx false)).
    cbn [value] in *. unfold Rdiv. rewrite Rmult_0_l, Rminus_0_r, Rabs_R0, Rmult_0_r.
    pose proof (bpow_pos (-1075)). lra.
  - destruct sx; [done |].
    unfold FloatAxioms.SF64div, SFdiv. cbn [xorb].
    pose proof (SFdiv_core_binary_spec (Zpos mx) ex (Zpos my) ey ltac:(lia) ltac:(lia))
      as Hcore.
    destruct (SFdiv_core_binary FloatOps.prec FloatOps.emax (Z.pos mx) ex (Z.pos my) ey)
      as [[mz ez] lz].
    cbn [fst snd] in Hcore. destruct Hcore as (Hq & Hez & Hin).
    cbn [value] in *.
    set (X := IZR (Z.pos mx) * bpow ex / (IZR (Z.pos my) * bpow ey)) in *.
    assert (0 <= X) as HX.
    { unfold X. apply Rmult_le_pos; [| left; by apply Rinv_0_lt_compat].
      apply Rmult_le_pos; [apply IZR_le; lia | left; apply bpow_pos]. }
    pose proof (bpow_pos (-1075)) as Hpos1. pose proof (bpow_pos (-53)) as Hpos2.
    destruct (binary_round_aux_spec mz ez lz X Hq Hez Hin)
      as [[Hinf Hbig] | [Hfin [Hrel | [Habs _]]]].
    + left. by split.
    + right. split; [exact Hfin |]. lra.
    + right. split; [exact Hfin |]. nra.
Qed.

End Division.

(** ** Multiplication by a positive double *)

Section Multiplication.

Local Open Scope R_scope.

(** The sign is only carried along by the rounding. *)
Lemma binary_round_aux_sign (sx : bool) m e l :
  binary_round_aux FloatOps.prec FloatOps.emax sx m e l
  = match binary_round_aux FloatOps.prec FloatOps.emax false m e l with
    | S754_zero _ => S754_zero sx
    | S754_infinity _ => S754_infinity sx
    | S754_finite _ m' e' => S754_finite sx m' e'
    | S754_nan => S754_nan
    end.
Proof.
  unfold binary_round_aux.
  destruct (shr_fexp FloatOps.prec FloatOps.emax m e l) as [mrs' e'].
  destruct (shr_fexp FloatOps.prec FloatOps.emax
              (round_nearest_even (shr_m mrs') (loc_of_shr_record mrs')) e' loc_Exact)
    as [mrs'' e''].
  destruct (shr_m mrs'') as [|p|p]; [reflexivity | | reflexivity].
  by destruct (Z.leb e'' (FloatOps.emax - FloatOps.prec)).
Qed.

Lemma valid64_canonical s m e :
  valid64 (S754_finite s m e) = true ->
  e = Z.max (Zpos (digits2_pos m) + e - 53) (-1074).
Proof.
  unfold valid_binary, bounded, canonical_mantissa. intros Hv.
  apply andb_prop in Hv as [Hc _]. apply Z.eqb_eq in Hc.
  rewrite fexp64_eq in Hc. lia.
Qed.

(** The product of two valid mantissas is rounded as a whole. *)
Lemma SFmul_finite_spec mx ex my ey :
  valid64 (S754_finite false mx ex) = true ->
  valid64 (S754_finite false my ey) = true ->
  let X := IZR (Zpos mx) * bpow ex * (IZR (Zpos my) * bpow ey) in
  let r := binary_round_aux FloatOps.prec FloatOps.emax false
             (Zpos (mx * my)) (ex + ey) loc_Exact in
  (r = S754_infinity false /\ bpow 1023 <= X) \/
  (nonneg_finite r /\ Rabs (value r - X) <= bpow (-53) * X + bpow (-1075)).
Proof.
  intros Hvx Hvy X r.
  pose proof (valid64_canonical _ _ _ Hvx) as Hcx.
  pose proof (valid64_canonical _ _ _ Hvy) as Hcy.
  assert (0 <= X) as HX.
  { unfold X. repeat apply Rmult_le_pos; try (apply IZR_le; lia);
      left; apply bpow_pos. }
  assert (inbetween (Zpos (mx * my)) (X * bpow (- (ex + ey))) loc_Exact) as Hin.
  { simpl. unfold X. rewrite Pos2Z.inj_mul, mult_IZR.
    replace (- (ex + ey))%Z with (- ex + - ey)%Z by lia.
    rewrite bpow_add, !bpow_opp.
    pose proof (bpow_pos ex). pose proof (bpow_pos ey). field. lra. }
  assert (ex + ey <= fexp64 (Zdigits2 (Zpos (mx * my)) + (ex + ey)))%Z as He.
  { destruct (digits2_pos_spec mx) as [Hlox _]. destruct (digits2_pos_spec my) as [Hloy _].
    assert (Zpos (digits2_pos mx) + Zpos (digits2_pos my) - 1
            <= Zdigits2 (Zpos (mx * my)))%Z as Hd.
    { replace (Zpos (digits2_pos mx) + Zpos (digits2_pos my) - 1)%Z
        with (Zpos (digits2_pos mx) - 1 + (Zpos (digits2_pos my) - 1) + 1)%Z by lia.
      apply Zdigits2_ge; [lia |].
      rewrite Z.pow_add_r, Pos2Z.inj_mul by lia.
      apply Z.mul_le_mono_nonneg; try lia; apply Z.pow_nonneg; lia. }
    rewrite fexp64_eq. lia. }
  pose proof (bpow_pos (-53)) as Hu. pose proof (bpow_pos (-1075)) as Heta.
  destruct (binary_round_aux_spec (Zpos (mx * my)) (ex + ey) loc_Exact X ltac:(lia) He Hin)
    as [[Hinf Hbig] | [Hfin [Hrel | [Habs _]]]].
  - left. by split.
  - right. split; [exact Hfin |]. fold r in Hrel. lra.
  - right. split; [exact Hfin |]. fold r in Habs.
    assert (0 <= bpow (-53) * X) by (apply Rmult_le_pos; lra). lra.
Qed.

End Multiplication.

(** ** Non-negative doubles and their real values *)

Section Doubles.

Local Open Scope R_scope.

Implicit Types (a b s v : float).

Lemma Rabs_le_both (x y : R) : Rabs x <= y -> - y <= x <= y.
Proof. unfold Rabs. destruct (Rcase_abs x); lra. Qed.

Lemma u64_pos : 0 < u64.
Proof. apply bpow_pos. Qed.

Lemma eta64_pos : 0 < eta64.
Proof. apply bpow_pos. Qed.

Lemma u64_lt_1 : u64 < 1.
Proof. unfold u64. rewrite <-bpow_0. apply bpow_lt. lia. Qed.

Lemma B2R_nonneg a : finite_nonneg a -> 0 <= B2R a.
Proof.
  unfold finite_nonneg, B2R. destruct (FloatOps.Prim2SF a) as [| | |[] m e]; simpl; try lra;
    try done.
  intros _. apply Rmult_le_pos; [apply IZR_le; lia | left; apply bpow_pos].
Qed.

Lemma finite_nonneg_not_nan_or_infinity a :
  finite_nonneg a -> nan_or_infinity a -> False.
Proof.
  unfold finite_nonneg, nan_or_infinity. intros Hg [Hb | Hb]; by rewrite Hb in Hg.
Qed.

(** What [std::max(v, 0.)] can be. *)
Lemma std_max_0_cases v :
  finite_nonneg (std_max v 0%float) \/ nan_or_infinity (std_max v 0%float).
Proof.
  unfold std_max. cbn [sltb binary64]. rewrite FloatAxioms.ltb_spec.
  change (FloatOps.Prim2SF 0%float) with (S754_zero false).
  unfold finite_nonneg, nan_or_infinity.
  destruct (FloatOps.Prim2SF v) as [sv|sv| |sv m e] eqn:Hv; cbn [SFltb SFcompare].
  - left. rewrite Hv. exact I.
  - destruct sv.
    + left. change (FloatOps.Prim2SF 0%float) with (S754_zero false). exact I.
    + right. right. exact Hv.
  - right. left. exact Hv.
  - destruct sv.
    + left. change (FloatOps.Prim2SF 0%float) with (S754_zero false). exact I.
    + left. rewrite Hv. exact I.
Qed.

Lemma add_finite_nonneg a b :
  finite_nonneg a -> finite_nonneg b ->
  (PrimFloat.add a b = infinity /\ bpow 1023 <= B2R a + B2R b) \/
  (finite_nonneg (PrimFloat.add a b) /\
   (1 - u64) * (B2R a + B2R b) <= B2R (PrimFloat.add a b) <= (1 + u64) * (B2R a + B2R b)).
Proof.
  intros Ha Hb. unfold finite_nonneg, B2R in *. rewrite FloatAxioms.add_spec.
  destruct (SF64add_nonneg _ _ (FloatAxioms.Prim2SF_valid a) (FloatAxioms.Prim2SF_valid b)
              Ha Hb) as [[Hinf Hbig] | [Hfin Hrel]].
  - left. split; [| exact Hbig].
    apply FloatAxioms.Prim2SF_inj. rewrite FloatAxioms.add_spec. exact Hinf.
  - right. split; [exact Hfin |].
    apply Rabs_le_both in Hrel. unfold u64. lra.
Qed.

Lemma add_nan_or_infinity_l a b :
  nan_or_infinity a -> finite_nonneg b \/ nan_or_infinity b ->
  nan_or_infinity (PrimFloat.add a b).
Proof.
  unfold nan_or_infinity, finite_nonneg. rewrite FloatAxioms.add_spec.
  intros [Ha | Ha] Hb; rewrite Ha; [by left |].
  destruct (FloatOps.Prim2SF b) as [sb|sb| |sb m e].
  - by right.
  - destruct Hb as [Hb | [Hb | Hb]]; try done. injection Hb as ->. by right.
  - by left.
  - by right.
Qed.

Lemma add_nan_or_infinity_r a b :
  finite_nonneg a -> nan_or_infinity b -> nan_or_infinity (PrimFloat.add a b).
Proof.
  unfold nan_or_infinity, finite_nonneg. rewrite FloatAxioms.add_spec.
  intros Ha [Hb | Hb]; rewrite Hb.
  - left. by destruct (FloatOps.Prim2SF a).
  - right. by destruct (FloatOps.Prim2SF a) as [sa|sa| |[] m e].
Qed.

(** A double that compares above zero and is not +infinity is positive and
    finite. *)
Lemma positive_finite s :
  PrimFloat.ltb 0%float s = true -> s <> infinity ->
  exists m e, FloatOps.Prim2SF s = S754_finite false m e.
Proof.
  rewrite FloatAxioms.ltb_spec.
  change (FloatOps.Prim2SF 0%float) with (S754_zero false).
  intros Hlt Hfin.
  destruct (FloatOps.Prim2SF s) as [ss|ss| |ss m e] eqn:Hs; cbn in Hlt; try discriminate.
  - destruct ss; [discriminate |]. exfalso. apply Hfin.
    apply FloatAxioms.Prim2SF_inj. by rewrite Hs.
  - destruct ss; [discriminate |]. by exists m, e.
Qed.

Lemma div_finite_nonneg a s m e :
  finite_nonneg a -> FloatOps.Prim2SF s = S754_finite false m e ->
  (PrimFloat.div a s = infinity /\ bpow 1023 <= B2R a / B2R s) \/
  (finite_nonneg (PrimFloat.div a s) /\
   (1 - u64) * (B2R a / B2R s) - eta64 <= B2R (PrimFloat.div a s)
   <= (1 + u64) * (B2R a / B2R s) + eta64).
Proof.
  intros Ha Hs. unfold finite_nonneg, B2R in *. rewrite FloatAxioms.div_spec, Hs.
  destruct (SF64div_nonneg _ m e (FloatAxioms.Prim2SF_valid a) Ha)
    as [[Hinf Hbig] | [Hfin Hrel]].
  - left. split; [| exact Hbig].
    apply FloatAxioms.Prim2SF_inj. rewrite FloatAxioms.div_spec, Hs. exact Hinf.
  - right. split; [exact Hfin |].
    apply Rabs_le_both in Hrel. unfold u64, eta64. lra.
Qed.

End Doubles.

(** ** Sums and quotients of non-negative doubles *)

Section Sums.

Local Open Scope R_scope.

Implicit Types (a b s v : float) (l : list float).

Lemma Rsum_nonneg l : Forall finite_nonneg l -> 0 <= Rsum l.
Proof.
  induction 1 as [|v l Hv _ IH]; simpl; [lra |].
  pose proof (B2R_nonneg v Hv). lra.
Qed.

Lemma add_cases a b :
  finite_nonneg a \/ nan_or_infinity a ->
  finite_nonneg b \/ nan_or_infinity b ->
  finite_nonneg (PrimFloat.add a b) \/ nan_or_infinity (PrimFloat.add a b).
Proof.
  intros [Ha | Ha] Hb.
  - destruct Hb as [Hb | Hb].
    + destruct (add_finite_nonneg a b Ha Hb) as [[Hinf _] | [Hfin _]]; [| by left].
      right. right. by rewrite Hinf.
    + right. by apply add_nan_or_infinity_r.
  - right. by apply add_nan_or_infinity_l.
Qed.

(** A finite left-to-right sum has only finite terms. *)
Lemma fold_left_add_finite l : forall a,
  Forall (fun v => finite_nonneg v \/ nan_or_infinity v) l ->
  finite_nonneg a \/ nan_or_infinity a ->
  finite_nonneg (fold_left PrimFloat.add l a) ->
  finite_nonneg a /\ Forall finite_nonneg l.
Proof.
  induction l as [|b l IH]; intros a Hl Ha Hr; simpl in Hr.
  - split; [exact Hr | constructor].
  - inversion Hl as [|? ? Hb Hl']; subst.
    destruct (IH _ Hl' (add_cases a b Ha Hb) Hr) as [Hab Hfin].
    assert (finite_nonneg a) as Ha'.
    { destruct Ha as [Ha | Ha]; [exact Ha | exfalso].
      eapply finite_nonneg_not_nan_or_infinity; [exact Hab |].
      by apply add_nan_or_infinity_l. }
    assert (finite_nonneg b) as Hb'.
    { destruct Hb as [Hb | Hb]; [exact Hb | exfalso].
      eapply finite_nonneg_not_nan_or_infinity; [exact Hab |].
      by apply add_nan_or_infinity_r. }
    split; [exact Ha' | by constructor].
Qed.

Lemma infinity_not_finite_nonneg : ~ finite_nonneg infinity.
Proof. intros H. exact H. Qed.

(** Each addition is off by at most one unit roundoff. *)
Lemma fold_left_add_bounds l : forall a,
  finite_nonneg a -> Forall finite_nonneg l ->
  finite_nonneg (fold_left PrimFloat.add l a) ->
  (1 - u64) ^ length l * (B2R a + Rsum l)
  <= B2R (fold_left PrimFloat.add l a)
  <= (1 + u64) ^ length l * (B2R a + Rsum l).
Proof.
  pose proof u64_pos as Hu. pose proof u64_lt_1 as Hu1.
  induction l as [|b l IH]; intros a Ha Hl Hr;
    cbn [length pow fold_left Rsum fold_right] in *.
  - lra.
  - inversion Hl as [|? ? Hb Hl']; subst.
    fold (Rsum l) in *.
    destruct (fold_left_add_finite l (PrimFloat.add a b)) as [Hab _]; [| | exact Hr |].
    { clear -Hl'. induction Hl' as [|v l Hv _ IH]; constructor; [by left | exact IH]. }
    { apply add_cases; by left. }
    destruct (add_finite_nonneg a b Ha Hb) as [[Hinf _] | [_ Hrel]].
    { rewrite Hinf in Hab. by apply infinity_not_finite_nonneg in Hab. }
    specialize (IH _ Hab Hl' Hr).
    pose proof (Rsum_nonneg l Hl') as Hsum.
    pose proof (B2R_nonneg a Ha) as HA. pose proof (B2R_nonneg b Hb) as HB.
    assert (0 <= (1 - u64) ^ length l) as Hlo by (apply pow_le; lra).
    assert (0 <= (1 + u64) ^ length l) as Hhi by (apply pow_le; lra).
    split.
    + apply Rle_trans with ((1 - u64) ^ length l * (B2R (PrimFloat.add a b) + Rsum l));
        [| lra].
      rewrite (Rmult_comm (1 - u64)), Rmult_assoc.
      apply Rmult_le_compat_l; [exact Hlo |]. nra.
    + apply Rle_trans with ((1 + u64) ^ length l * (B2R (PrimFloat.add a b) + Rsum l));
        [lra |].
      rewrite (Rmult_comm (1 + u64)), Rmult_assoc.
      apply Rmult_le_compat_l; [exact Hhi |]. nra.
Qed.

(** A sum whose exact total is far from the overflow threshold is finite. *)
Lemma fold_left_add_no_overflow l : forall a,
  finite_nonneg a -> Forall finite_nonneg l ->
  (1 + u64) ^ length l * (B2R a + Rsum l) < bpow 1023 ->
  finite_nonneg (fold_left PrimFloat.add l a).
Proof.
  pose proof u64_pos as Hu.
  induction l as [|b l IH]; intros a Ha Hl Hsmall;
    cbn [length pow fold_left Rsum fold_right] in *; [exact Ha |].
  fold (Rsum l) in *.
  inversion Hl as [|? ? Hb Hl']; subst.
  pose proof (Rsum_nonneg l Hl') as Hsum.
  pose proof (B2R_nonneg a Ha) as HA. pose proof (B2R_nonneg b Hb) as HB.
  assert (1 <= (1 + u64) ^ length l) as Hhi by (apply pow_R1_Rle; lra).
  destruct (add_finite_nonneg a b Ha Hb) as [[_ Hbig] | [Hab Hrel]].
  - exfalso.
    assert (1 <= (1 + u64) * (1 + u64) ^ length l) as Hk.
    { replace 1 with (1 * 1) at 1 by lra. apply Rmult_le_compat; lra. }
    assert (1 * (B2R a + (B2R b + Rsum l))
            <= (1 + u64) * (1 + u64) ^ length l * (B2R a + (B2R b + Rsum l)))
      by (apply Rmult_le_compat_r; lra).
    lra.
  - apply IH; [exact Hab | exact Hl' |].
    apply Rle_lt_trans with ((1 + u64) * (1 + u64) ^ length l * (B2R a + (B2R b + Rsum l)));
      [| exact Hsmall].
    rewrite (Rmult_comm (1 + u64)), Rmult_assoc.
    apply Rmult_le_compat_l; [lra |]. nra.
Qed.

Lemma elem_of_Rsum_le l v : Forall finite_nonneg l -> v ∈ l -> B2R v <= Rsum l.
Proof.
  induction 1 as [|b l Hb Hl IH]; intros Hv.
  - by apply elem_of_nil in Hv.
  - simpl. pose proof (Rsum_nonneg l Hl). pose proof (B2R_nonneg b Hb).
    apply elem_of_cons in Hv as [-> | Hv]; [lra |]. specialize (IH Hv). lra.
Qed.

(** Dividing every entry by a positive double. *)
Lemma map_div_bounds s m e l :
  FloatOps.Prim2SF s = S754_finite false m e ->
  Forall finite_nonneg l ->
  Forall (fun v => B2R v / B2R s < bpow 1023) l ->
  Forall finite_nonneg (map (fun v => PrimFloat.div v s) l) /\
  (1 - u64) * (Rsum l / B2R s) - INR (length l) * eta64
  <= Rsum (map (fun v => PrimFloat.div v s) l)
  <= (1 + u64) * (Rsum l / B2R s) + INR (length l) * eta64.
Proof.
  intros Hs Hl Hsmall.
  induction Hl as [|v l Hv Hl IH].
  - simpl. split; [constructor |]. unfold Rdiv. rewrite Rmult_0_l. lra.
  - inversion Hsmall as [|? ? Hv1 Hsmall']; subst.
    destruct (IH Hsmall') as [IHfin IHsum].
    destruct (div_finite_nonneg v s m e Hv Hs) as [[_ Hbig] | [Hfin Hrel]]; [lra |].
    split; [by constructor |].
    change (length (v :: l)) with (S (length l)). rewrite S_INR.
    cbn [map Rsum fold_right]. fold (Rsum l).
    fold (Rsum (map (fun v => PrimFloat.div v s) l)).
    unfold Rdiv in *. rewrite Rmult_plus_distr_r. lra.
Qed.

End Sums.

(** ** The mole fractions of a finite total *)

Section Mole_fractions.

Local Open Scope R_scope.

Lemma u64_eq : u64 = / 9007199254740992.
Proof.
  unfold u64. change (-53)%Z with (- (53))%Z. rewrite bpow_opp, bpow_IZR by lia.
  reflexivity.
Qed.

Lemma pow_lo (n : nat) : 1 - INR n * u64 <= (1 - u64) ^ n.
Proof.
  pose proof u64_pos as Hu. pose proof u64_lt_1 as Hu1.
  induction n as [|n IH]; [simpl; lra |].
  rewrite S_INR. cbn [pow].
  assert (0 <= INR n) as Hn by apply pos_INR.
  apply Rle_trans with ((1 - u64) * (1 - INR n * u64)).
  - assert (0 <= INR n * u64 * u64) by (apply Rmult_le_pos; [apply Rmult_le_pos |]; lra).
    lra.
  - apply Rmult_le_compat_l; lra.
Qed.

Lemma pow_hi (n : nat) :
  (n <= 4096)%nat -> (1 + u64) ^ n <= 1 + INR n * (u64 * (1 + / 1048576)).
Proof.
  pose proof u64_pos as Hu. pose proof u64_eq as Hueq.
  induction n as [|n IH]; intros Hn; [simpl; lra |].
  specialize (IH ltac:(lia)).
  rewrite S_INR. cbn [pow].
  assert (0 <= INR n <= 4096) as Hn'.
  { split; [apply pos_INR |]. rewrite INR_IZR_INZ. apply IZR_le. lia. }
  apply Rle_trans with ((1 + u64) * (1 + INR n * (u64 * (1 + / 1048576)))).
  - apply Rmult_le_compat_l; lra.
  - assert (INR n * u64 <= 4096 * u64) by (apply Rmult_le_compat_r; lra).
    assert (INR n * u64 * (u64 * (1 + / 1048576)) <= 4096 * u64 * (u64 * (1 + / 1048576))).
    { apply Rmult_le_compat_r; [| assumption].
      apply Rmult_le_pos; lra. }
    assert (4096 * u64 * (u64 * (1 + / 1048576)) <= u64 * / 1048576).
    { rewrite Hueq. lra. }
    lra.
Qed.

Lemma sum_to_one_arith (k L H Q X Rv : R) :
  0 <= k <= / 1152921504606846976 ->
  1 - 4096 * u64 <= L ->
  1 <= H <= 1 + 4096 * (u64 * (1 + / 1048576)) ->
  0 <= Q -> Q * L <= 1 -> 1 <= Q * H ->
  (1 - u64) * Q - k <= X <= (1 + u64) * Q + k ->
  0 <= X ->
  L * X <= Rv <= H * X ->
  - / 1000000000000 <= Rv - 1 <= / 1000000000000.
Proof.
  intros Hk HL HH HQ HQL HQH HX HX0 HR.
  pose proof u64_eq as Hueq.
  assert (Q * (1 - 4096 * u64) <= 1) as HQ1.
  { apply Rle_trans with (Q * L); [| exact HQL]. apply Rmult_le_compat_l; lra. }
  assert (1 <= Q * (1 + 4096 * (u64 * (1 + / 1048576)))) as HQ2.
  { apply Rle_trans with (Q * H); [exact HQH |]. apply Rmult_le_compat_l; lra. }
  assert ((1 - 4096 * u64) * X <= Rv) as HR1.
  { apply Rle_trans with (L * X); [| lra]. apply Rmult_le_compat_r; lra. }
  assert (Rv <= (1 + 4096 * (u64 * (1 + / 1048576))) * X) as HR2.
  { apply Rle_trans with (H * X); [lra |]. apply Rmult_le_compat_r; lra. }
  rewrite Hueq in *. lra.
Qed.

End Mole_fractions.

Section Mole_fractions_of_finite_total.

Local Open Scope R_scope.

Lemma B2R_positive s m e :
  FloatOps.Prim2SF s = S754_finite false m e -> 0 < B2R s.
Proof.
  intros Hs. unfold B2R. rewrite Hs. cbn [value].
  apply Rmult_lt_0_compat; [apply IZR_lt; lia | apply bpow_pos].
Qed.

Lemma clipped_cases (cc : list float) :
  Forall (fun v => finite_nonneg v \/ nan_or_infinity v) (clipped cc).
Proof.
  unfold clipped. induction cc as [|v cc IH]; simpl; constructor; [| exact IH].
  apply std_max_0_cases.
Qed.

(** The mole fractions of a list of non-negative doubles whose total is
    positive and finite: every one is finite, and their left-to-right sum
    is within 1e-12 of 1 for up to 4096 entries. *)
Lemma sum_mole_fractions (c : list float) :
  (length c <= 4096)%nat ->
  Forall (fun v => finite_nonneg v \/ nan_or_infinity v) c ->
  PrimFloat.ltb 0%float (sum c) = true ->
  sum c <> infinity ->
  Forall finite_nonneg (mole_fractions c) /\
  finite_nonneg (sum (mole_fractions c)) /\
  Rabs (B2R (sum (mole_fractions c)) - 1) <= / 1000000000000.
Proof.
  intros Hlen Hc Hpos Hfin.
  destruct c as [|c0 rest]; [discriminate Hpos |].
  destruct (positive_finite _ Hpos Hfin) as (m & e & Hs).
  pose proof (B2R_positive _ m e Hs) as HS.
  unfold mole_fractions. cbn [sdiv binary64].
  set (s := sum (c0 :: rest)) in *.
  assert (s = fold_left PrimFloat.add rest c0) as Hsum by reflexivity.
  inversion Hc as [|? ? Hc0 Hrest]; subst.
  assert (finite_nonneg s) as Hsfin by (unfold finite_nonneg; by rewrite Hs).
  destruct (fold_left_add_finite rest c0 Hrest Hc0) as [Hc0f Hrestf];
    [by rewrite <-Hsum |].
  assert (Forall finite_nonneg (c0 :: rest)) as Hcf by (by constructor).
  pose proof (fold_left_add_bounds rest c0 Hc0f Hrestf ltac:(by rewrite <-Hsum)) as Hb.
  rewrite <-Hsum in Hb.
  change (B2R c0 + Rsum rest) with (Rsum (c0 :: rest)) in Hb.
  set (n := length rest) in *. set (T := Rsum (c0 :: rest)) in *.
  assert (n <= 4095)%nat as Hn by (cbn [length] in Hlen; lia).
  pose proof (Rsum_nonneg _ Hcf) as HT. fold T in HT.
  pose proof u64_pos as Hu. pose proof u64_lt_1 as Hu1. pose proof u64_eq as Hueq.
  pose proof (pow_lo n) as HL. pose proof (pow_hi n ltac:(lia)) as HH.
  assert (0 <= INR n <= 4095) as HnR.
  { split; [apply pos_INR |]. rewrite INR_IZR_INZ. apply IZR_le. lia. }
  assert (1 - 4096 * u64 <= (1 - u64) ^ n) as HL'.
  { apply Rle_trans with (1 - INR n * u64); [| exact HL].
    assert (INR n * u64 <= 4096 * u64) by (apply Rmult_le_compat_r; lra). lra. }
  assert (1 <= (1 + u64) ^ n <= 1 + 4096 * (u64 * (1 + / 1048576))) as HH'.
  { split; [apply pow_R1_Rle; lra |].
    apply Rle_trans with (1 + INR n * (u64 * (1 + / 1048576))); [exact HH |].
    assert (INR n * (u64 * (1 + / 1048576)) <= 4096 * (u64 * (1 + / 1048576)))
      by (apply Rmult_le_compat_r; lra).
    lra. }
  set (L := (1 - u64) ^ n) in *. set (H := (1 + u64) ^ n) in *.
  (* the exact total over the rounded one *)
  set (Q := T / B2R s).
  assert (0 <= Q) as HQ by (unfold Q; apply Rmult_le_pos; [| left; apply Rinv_0_lt_compat]; lra).
  assert (Q * B2R s = T) as HQs by (unfold Q; field; lra).
  assert (0 < L) as HLpos by (rewrite Hueq in HL'; lra).
  assert (Q * L <= 1) as HQL.
  { apply Rmult_le_reg_r with (B2R s); [exact HS |].
    rewrite Rmult_1_l. replace (Q * L * B2R s) with (L * T) by (rewrite <-HQs; ring). lra. }
  assert (1 <= Q * H) as HQH.
  { apply Rmult_le_reg_r with (B2R s); [exact HS |].
    rewrite Rmult_1_l. replace (Q * H * B2R s) with (H * T) by (rewrite <-HQs; ring). lra. }
  assert (Q <= 2) as HQ2.
  { assert (Q * (1 - 4096 * u64) <= Q * L) by (apply Rmult_le_compat_l; lra).
    rewrite Hueq in *. lra. }
  assert (8 <= bpow 1023) as Hbig.
  { apply Rle_trans with (bpow 3); [| apply bpow_le; lia].
    rewrite (bpow_IZR 3) by lia. simpl. lra. }
  (* no quotient overflows *)
  assert (Forall (fun v => B2R v / B2R s < bpow 1023) (c0 :: rest)) as Hsmall.
  { apply list.Forall_forall. intros v Hv.
    pose proof (elem_of_Rsum_le _ v Hcf Hv) as Hle. fold T in Hle.
    apply Rle_lt_trans with Q; [| lra].
    unfold Q, Rdiv. apply Rmult_le_compat_r; [left; by apply Rinv_0_lt_compat | exact Hle]. }
  destruct (map_div_bounds s m e (c0 :: rest) Hs Hcf Hsmall) as [Hxf Hx].
  fold T in Hx. fold Q in Hx.
  split; [exact Hxf |].
  set (x := map (fun v => PrimFloat.div v s) (c0 :: rest)) in *.
  set (k := INR (length (c0 :: rest)) * eta64) in *.
  assert (0 <= k <= / 1152921504606846976) as Hk.
  { unfold k. pose proof eta64_pos as Heta.
    assert (0 <= INR (length (c0 :: rest)) <= 4096) as HN.
    { split; [apply pos_INR |]. rewrite INR_IZR_INZ. apply IZR_le. lia. }
    split; [apply Rmult_le_pos; lra |].
    apply Rle_trans with (4096 * eta64); [apply Rmult_le_compat_r; lra |].
    unfold eta64.
    replace 4096 with (bpow 12) by (rewrite bpow_IZR by lia; reflexivity).
    rewrite <-bpow_add.
    apply Rle_trans with (bpow (- (60))); [apply bpow_le; lia |].
    rewrite bpow_opp, bpow_IZR by lia. apply Rle_refl. }
  pose proof (Rsum_nonneg _ Hxf) as HX0.
  (* the sum of the quotients *)
  assert (sum x = fold_left PrimFloat.add (map (fun v => PrimFloat.div v s) rest)
                    (PrimFloat.div c0 s)) as Hsumx by reflexivity.
  inversion Hxf as [|? ? Hx0f Hxrf]; subst.
  assert (finite_nonneg (sum x)) as Hrfin.
  { rewrite Hsumx. apply fold_left_add_no_overflow; [exact Hx0f | exact Hxrf |].
    rewrite length_map. fold n. fold H.
    change (B2R (PrimFloat.div c0 s) + Rsum (map (fun v => PrimFloat.div v s) rest))
      with (Rsum x).
    assert (H * Rsum x <= (1 + 4096 * (u64 * (1 + / 1048576))) * Rsum x)
      by (apply Rmult_le_compat_r; lra).
    rewrite Hueq in *. lra. }
  split; [exact Hrfin |].
  pose proof (fold_left_add_bounds _ _ Hx0f Hxrf ltac:(by rewrite <-Hsumx)) as Hr.
  rewrite <-Hsumx, length_map in Hr. fold n in Hr. fold L in Hr. fold H in Hr.
  change (B2R (PrimFloat.div c0 s) + Rsum (map (fun v => PrimFloat.div v s) rest))
    with (Rsum x) in Hr.
  apply Rabs_le.
  exact (sum_to_one_arith k L H Q (Rsum x) (B2R (sum x)) Hk HL' HH' HQ HQL HQH Hx HX0 Hr).
Qed.

End Mole_fractions_of_finite_total.

Section Scaled_doubles.

Local Open Scope R_scope.

Implicit Types (a k v s : float) (c cc : list float).

(** [std::max(a, 0.)] on the specification. *)
Lemma Prim2SF_std_max_0 a :
  FloatOps.Prim2SF (std_max a 0%float)
  = if SFltb (FloatOps.Prim2SF a) (S754_zero false) then S754_zero false
    else FloatOps.Prim2SF a.
Proof.
  unfold std_max. cbn [sltb binary64]. rewrite FloatAxioms.ltb_spec.
  change (FloatOps.Prim2SF 0%float) with (S754_zero false).
  by destruct (SFltb (FloatOps.Prim2SF a) (S754_zero false)).
Qed.

(** A clipped entry times a positive finite factor: the product overflows,
    or it is the clipped product up to one rounding. *)
Lemma std_max_0_scaled k v mk ek :
  FloatOps.Prim2SF k = S754_finite false mk ek ->
  finite_nonneg (std_max v 0%float) ->
  nan_or_infinity (std_max (PrimFloat.mul k v) 0%float) \/
  (finite_nonneg (std_max (PrimFloat.mul k v) 0%float) /\
   (1 - u64) * (B2R k * B2R (std_max v 0%float)) - eta64
   <= B2R (std_max (PrimFloat.mul k v) 0%float)
   <= (1 + u64) * (B2R k * B2R (std_max v 0%float)) + eta64).
Proof.
  intros Hk. unfold finite_nonneg, nan_or_infinity, B2R.
  rewrite !Prim2SF_std_max_0, FloatAxioms.mul_spec, Hk.
  pose proof (FloatAxioms.Prim2SF_valid k) as Hvk. rewrite Hk in Hvk.
  pose proof (FloatAxioms.Prim2SF_valid v) as Hvv.
  pose proof u64_pos as Hu. pose proof eta64_pos as Heta.
  assert (0 < value (S754_finite false mk ek)) as HK.
  { cbn [value]. apply Rmult_lt_0_compat; [apply IZR_lt; lia | apply bpow_pos]. }
  destruct (FloatOps.Prim2SF v) as [sv|sv| |sv m e]; cbn [SFltb SFcompare].
  - (* a zero *)
    intros _. right. unfold FloatAxioms.SF64mul. cbn [SFmul SFltb SFcompare value].
    split; [exact I |]. rewrite Rmult_0_r, Rmult_0_r. lra.
  - (* an infinity *)
    destruct sv; [| done]. intros _. right.
    unfold FloatAxioms.SF64mul. cbn [SFmul xorb SFltb SFcompare value].
    split; [exact I |]. rewrite Rmult_0_r, Rmult_0_r. lra.
  - done.
  - unfold FloatAxioms.SF64mul. cbn [SFmul xorb].
    destruct (SFmul_finite_spec mk ek m e Hvk Hvv) as [[Hinf Hbig] | [Hfin Hrel]].
    + (* the product overflows *)
      destruct sv; intros _.
      * right. rewrite binary_round_aux_sign, Hinf. cbn [SFltb SFcompare value].
        split; [exact I |]. rewrite Rmult_0_r, Rmult_0_r. lra.
      * left. right. rewrite Hinf. reflexivity.
    + destruct sv; intros _.
      * (* a negative entry: both clipped to zero *)
        right. rewrite binary_round_aux_sign.
        destruct (binary_round_aux FloatOps.prec FloatOps.emax false
                    (Z.pos (mk * m)) (ek + e) loc_Exact) as [s0|s0| |[] m0 e0];
          try done; cbn [SFltb SFcompare value];
          (split; [exact I |]); rewrite Rmult_0_r, Rmult_0_r; lra.
      * right. apply Rabs_le_both in Hrel.
        destruct (binary_round_aux FloatOps.prec FloatOps.emax false
                    (Z.pos (mk * m)) (ek + e) loc_Exact) as [s0|s0| |[] m0 e0];
          try done; cbn [SFltb SFcompare]; (split; [exact I |]);
          cbn [value] in *; unfold u64, eta64; lra.
Qed.

(** The exact total of the clipped scaled entries. *)
Lemma clipped_scaled_total k mk ek cc :
  FloatOps.Prim2SF k = S754_finite false mk ek ->
  Forall finite_nonneg (clipped cc) ->
  Forall finite_nonneg (clipped (map (PrimFloat.mul k) cc)) ->
  (1 - u64) * (B2R k * Rsum (clipped cc)) - INR (length cc) * eta64
  <= Rsum (clipped (map (PrimFloat.mul k) cc))
  <= (1 + u64) * (B2R k * Rsum (clipped cc)) + INR (length cc) * eta64.
Proof.
  intros Hk. unfold clipped. cbn [lit_0 binary64].
  induction cc as [|v cc IH]; intros Hc Hc'.
  - simpl. lra.
  - cbn [map] in Hc, Hc'.
    inversion Hc as [|? ? Hv Hcc]; subst. inversion Hc' as [|? ? Hv' Hcc']; subst.
    specialize (IH Hcc Hcc').
    destruct (std_max_0_scaled k v mk ek Hk Hv) as [Hbad | [_ Hrel]].
    { exfalso. by eapply finite_nonneg_not_nan_or_infinity. }
    change (length (v :: cc)) with (S (length cc)). rewrite S_INR.
    cbn [map Rsum fold_right].
    fold (Rsum (map (fun cci => std_max cci 0%float) cc)).
    fold (Rsum (map (fun cci => std_max cci 0%float) (map (PrimFloat.mul k) cc))).
    lra.
Qed.

(** A sum of clipped entries is finite, NaN or +infinity. *)
Lemma fold_left_add_cases c : forall a,
  Forall (fun v => finite_nonneg v \/ nan_or_infinity v) c ->
  finite_nonneg a \/ nan_or_infinity a ->
  finite_nonneg (fold_left PrimFloat.add c a) \/
  nan_or_infinity (fold_left PrimFloat.add c a).
Proof.
  induction c as [|b c IH]; intros a Hc Ha; [exact Ha |].
  inversion Hc as [|? ? Hb Hc']; subst. simpl. apply IH; [exact Hc' |].
  by apply add_cases.
Qed.

(** A total below +infinity has only finite terms, and is off their exact
    total by at most one unit roundoff for each addition. *)
Lemma finite_total c :
  Forall (fun v => finite_nonneg v \/ nan_or_infinity v) c ->
  PrimFloat.ltb (sum c) infinity = true ->
  Forall finite_nonneg c /\
  (1 - u64) ^ pred (length c) * Rsum c <= B2R (sum c)
  <= (1 + u64) ^ pred (length c) * Rsum c.
Proof.
  intros Hc Hlt. destruct c as [|c0 rest].
  - split; [constructor |]. simpl. unfold B2R.
    change (FloatOps.Prim2SF 0%float) with (S754_zero false). simpl. lra.
  - change (sum (c0 :: rest)) with (fold_left PrimFloat.add rest c0) in *.
    inversion Hc as [|? ? Hc0 Hrest]; subst.
    assert (finite_nonneg (fold_left PrimFloat.add rest c0)) as Hfin.
    { destruct (fold_left_add_cases rest c0 Hrest Hc0) as [Hf | [Hnan | Hinf]];
        [exact Hf | exfalso | exfalso];
        rewrite FloatAxioms.ltb_spec in Hlt;
        change (FloatOps.Prim2SF infinity) with (S754_infinity false) in Hlt.
      - by rewrite Hnan in Hlt.
      - by rewrite Hinf in Hlt. }
    destruct (fold_left_add_finite rest c0 Hrest Hc0 Hfin) as [Hc0f Hrestf].
    split; [by constructor |].
    exact (fold_left_add_bounds rest c0 Hc0f Hrestf Hfin).
Qed.

Lemma scaled_total_arith (k0 L H W X Rv Y : R) :
  0 <= k0 ->
  1 - 4096 * u64 <= L ->
  1 <= H <= 1 + 4096 * (u64 * (1 + / 1048576)) ->
  0 <= W -> L * W <= Y <= H * W ->
  (1 - u64) * W - k0 <= X <= (1 + u64) * W + k0 ->
  0 <= X ->
  L * X <= Rv <= H * X ->
  - (/ 1000000000000 * Y + 2 * k0) <= Rv - Y <= / 1000000000000 * Y + 2 * k0.
Proof.
  intros Hk HL HH HW HY HX HX0 HR.
  pose proof u64_eq as Hueq.
  assert ((1 - 4096 * u64) * W <= Y) as HY1.
  { apply Rle_trans with (L * W); [| lra]. apply Rmult_le_compat_r; lra. }
  assert (Y <= (1 + 4096 * (u64 * (1 + / 1048576))) * W) as HY2.
  { apply Rle_trans with (H * W); [lra |]. apply Rmult_le_compat_r; lra. }
  assert ((1 - 4096 * u64) * X <= Rv) as HR1.
  { apply Rle_trans with (L * X); [| lra]. apply Rmult_le_compat_r; lra. }
  assert (Rv <= (1 + 4096 * (u64 * (1 + / 1048576))) * X) as HR2.
  { apply Rle_trans with (H * X); [lra |]. apply Rmult_le_compat_r; lra. }
  rewrite Hueq in *. lra.
Qed.

(** Scaling the concentrations by a positive finite factor scales their
    clipped total by that factor, up to rounding. *)
Lemma scaled_total k cc :
  (length cc <= 4096)%nat ->
  PrimFloat.ltb 0%float k = true ->
  PrimFloat.ltb k infinity = true ->
  PrimFloat.ltb (sum (clipped cc)) infinity = true ->
  PrimFloat.ltb (sum (clipped (map (PrimFloat.mul k) cc))) infinity = true ->
  Rabs (B2R (sum (clipped (map (PrimFloat.mul k) cc))) - B2R k * B2R (sum (clipped cc)))
  <= / 1000000000000 * (B2R k * B2R (sum (clipped cc))) + bpow (-1062).
Proof.
  intros Hlen Hkpos Hkfin Hs Hs'.
  assert (k <> infinity) as Hkne.
  { intros Heq. rewrite Heq in Hkfin. discriminate Hkfin. }
  destruct (positive_finite k Hkpos Hkne) as (mk & ek & Hk).
  pose proof (B2R_positive k mk ek Hk) as HK.
  destruct (finite_total (clipped cc) (clipped_cases cc) Hs) as [Hc Hb].
  destruct (finite_total _ (clipped_cases (map (PrimFloat.mul k) cc)) Hs') as [Hc' Hb'].
  pose proof (clipped_scaled_total k mk ek cc Hk Hc Hc') as Ht.
  rewrite length_clipped in Hb. rewrite length_clipped, length_map in Hb'.
  set (n := pred (length cc)) in *.
  assert (n <= 4095)%nat as Hn by (unfold n; lia).
  pose proof u64_pos as Hu. pose proof u64_lt_1 as Hu1. pose proof u64_eq as Hueq.
  pose proof (pow_lo n) as HL. pose proof (pow_hi n ltac:(lia)) as HH.
  assert (0 <= INR n <= 4095) as HnR.
  { split; [apply pos_INR |]. rewrite INR_IZR_INZ. apply IZR_le. lia. }
  assert (1 - 4096 * u64 <= (1 - u64) ^ n) as HL'.
  { apply Rle_trans with (1 - INR n * u64); [| exact HL].
    assert (INR n * u64 <= 4096 * u64) by (apply Rmult_le_compat_r; lra). lra. }
  assert (1 <= (1 + u64) ^ n <= 1 + 4096 * (u64 * (1 + / 1048576))) as HH'.
  { split; [apply pow_R1_Rle; lra |].
    apply Rle_trans with (1 + INR n * (u64 * (1 + / 1048576))); [exact HH |].
    assert (INR n * (u64 * (1 + / 1048576)) <= 4096 * (u64 * (1 + / 1048576)))
      by (apply Rmult_le_compat_r; lra).
    lra. }
  set (L := (1 - u64) ^ n) in *. set (H := (1 + u64) ^ n) in *.
  pose proof (Rsum_nonneg _ Hc) as HT. pose proof (Rsum_nonneg _ Hc') as HT'.
  set (T := Rsum (clipped cc)) in *.
  set (T' := Rsum (clipped (map (PrimFloat.mul k) cc))) in *.
  set (k0 := INR (length cc) * eta64) in *.
  assert (0 <= k0 /\ 2 * k0 <= bpow (-1062)) as [Hk0 Hk0'].
  { unfold k0. pose proof eta64_pos as Heta.
    assert (0 <= INR (length cc) <= 4096) as HN.
    { split; [apply pos_INR |]. rewrite INR_IZR_INZ. apply IZR_le. lia. }
    split; [apply Rmult_le_pos; lra |].
    apply Rle_trans with (2 * (4096 * eta64)).
    - apply Rmult_le_compat_l; [lra |]. apply Rmult_le_compat_r; lra.
    - unfold eta64. replace 4096 with (bpow 12) by (rewrite bpow_IZR by lia; reflexivity).
      rewrite <-bpow_1 at 1. rewrite <-!bpow_add. apply bpow_le. lia. }
  assert (0 <= B2R k * T) as HW by (apply Rmult_le_pos; lra).
  assert (L * (B2R k * T) <= B2R k * B2R (sum (clipped cc)) <= H * (B2R k * T)) as HY.
  { split.
    - replace (L * (B2R k * T)) with (B2R k * (L * T)) by ring.
      apply Rmult_le_compat_l; lra.
    - replace (H * (B2R k * T)) with (B2R k * (H * T)) by ring.
      apply Rmult_le_compat_l; lra. }
  pose proof (scaled_total_arith k0 L H (B2R k * T) T'
                (B2R (sum (clipped (map (PrimFloat.mul k) cc))))
                (B2R k * B2R (sum (clipped cc))) Hk0 HL' HH' HW HY Ht HT' Hb') as Hfinal.
  apply Rabs_le. lra.
Qed.

End Scaled_doubles.

(** * Properties that depend on rounding *)

(** ** The mole fractions handed to the thermodynamic map (lines 88-92) *)

Section Mole_fractions_binary64.

Variable lib : OpenSMOKE float.
Variable this : batchAdiabaticOdeSystem float.

Implicit Types (w : World float) (cc dcdt : list float).

Local Open Scope scalar_scope.

(** C8, as the code has it: for every concentration vector of at most 4096
    species whose clipped total is strictly positive and finite, the mole
    fractions [derivatives] hands to the thermodynamic map are the clipped
    concentrations over their total, every one a finite non-negative double,
    and their left-to-right sum is a finite double within 1e-12 of 1. *)
Theorem mole_fractions_sum_to_one t cc dcdt w :
  length cc = NumberOfSpecies lib ->
  length dcdt = NumberOfSpecies lib ->
  (NumberOfSpecies lib <= 4096)%nat ->
  sltb lit_0 (sum (clipped cc)) = true ->
  sltb (sum (clipped cc)) infinity = true ->
  exists (x out : list float) (w' : World float),
    derivatives lib this t cc dcdt w = Some (out, w') /\
    calls w' !! length (calls w) = Some (Thermo_MolecularWeight_From_MoleFractions x) /\
    x = map (fun ci => ci / sum (clipped cc)) (clipped cc) /\
    Forall finite_nonneg x /\
    finite_nonneg (sum x) /\
    (Rabs (B2R (sum x) - 1) <= / 1000000000000)%R.
Proof.
  intros Hcc Hdcdt Hn Hpos Hfin.
  destruct (reconstruct_and_close_full lib this cc Hcc) as (_ & _ & Hx & _).
  assert (sum (clipped cc) <> infinity) as Hne.
  { intros Heq. rewrite Heq in Hfin. discriminate Hfin. }
  destruct (sum_mole_fractions (clipped cc)) as (Hxf & Hsf & Hs);
    [by rewrite length_clipped, Hcc | apply clipped_cases | exact Hpos | exact Hne |].
  exists (mole_fractions (clipped cc)), (derivatives_result lib this cc dcdt),
    (derivatives_world lib this cc w).
  split; [apply derivatives_eq; lia |].
  split; [by rewrite derivatives_first_call, Hx |].
  split; [reflexivity |].
  split; [exact Hxf |]. split; [exact Hsf | exact Hs].
Qed.

End Mole_fractions_binary64.

Lemma mole_fractions_sum_to_one_witness :
  exists (x out : list float) (w' : World float),
    derivatives mixture64 reactor64 0%float cc64 field64 fresh_world = Some (out, w') /\
    calls w' !! 0%nat = Some (Thermo_MolecularWeight_From_MoleFractions x) /\
    (Rabs (B2R (sum x) - 1) <= / 1000000000000)%R.
Proof.
  destruct (mole_fractions_sum_to_one mixture64 reactor64 0%float cc64 field64 fresh_world)
    as (x & out & w' & Hrun & Hfirst & _ & _ & _ & Hsum);
    [reflexivity | reflexivity | simpl; lia | reflexivity | reflexivity |].
  exists x, out, w'. split; [exact Hrun |]. split; [exact Hfirst | exact Hsum].
Defined.

(** C8 as stated fails in binary64: the total of two entries of 2^1023
    overflows to +infinity, which is strictly positive; both mole fractions
    are then 0 and their sum is 0, more than 1e-12 away from 1. *)
Lemma overflowing_total_mole_fractions :
  sltb lit_0 (sum (clipped huge64)) = true /\
  sum (clipped huge64) = PrimFloat.infinity /\
  option_map (fun r => calls (snd r) !! 0%nat)
    (derivatives mixture64 reactor64 0%float huge64 field64 fresh_world)
  = Some (Some (Thermo_MolecularWeight_From_MoleFractions [0; 0]%float)) /\
  sum (mole_fractions (clipped huge64)) = 0%float /\
  PrimFloat.leb
    (PrimFloat.abs (PrimFloat.sub (sum (mole_fractions (clipped huge64))) 1%float))
    0x1.19799812dea11p-40%float
  = false.
Proof. repeat split; vm_compute; reflexivity. Qed.

(** With the left-to-right sum the rounding errors of very many species do
    add up beyond 1e-12: the hundred thousand mole fractions 1e-5 of equal
    concentrations sum to 0.9999999999980838. *)
Example many_species_mole_fractions :
  sum (clipped equal64) = 100000%float /\
  sum (mole_fractions (clipped equal64)) = 0x1.fffffffffbc94p-1%float /\
  PrimFloat.leb
    (PrimFloat.abs (PrimFloat.sub (sum (mole_fractions (clipped equal64))) 1%float))
    0x1.19799812dea11p-40%float
  = false.
Proof.
  assert (sum (clipped equal64) = 100000%float) as Hsum by (vm_compute; reflexivity).
  assert (sum (mole_fractions (clipped equal64)) = 0x1.fffffffffbc94p-1%float) as Hx.
  { unfold mole_fractions. rewrite Hsum. vm_compute. reflexivity. }
  split; [exact Hsum |]. split; [exact Hx |].
  rewrite Hx. reflexivity.
Qed.

(** ** Scaled concentrations in binary64 (lines 85-104) *)

Section Scaled_binary64.

Variable lib : OpenSMOKE float.
Variable this : batchAdiabaticOdeSystem float.

Implicit Types (w : World float) (cc dcdt : list float).

Local Open Scope scalar_scope.

(** C2, as the code has it: on a concentration vector scaled by k the
    evaluation works on the clipped entries k * cc_i and on their own total;
    its first iteration asks for the enthalpy U + PInitial / (cTot * mw) of
    that total, and it ends, like the run on the unscaled vector, with
    P = cTot * (R * T) for its own total and its own final temperature:
    neither T nor P is carried over from the unscaled run. The total does
    scale by k, up to rounding: for a positive finite k, at most 4096
    species and finite totals, within one part in 1e12 and 2^-1062. *)
Theorem scaled_concentrations t k cc dcdt w :
  constructed this ->
  length cc = NumberOfSpecies lib ->
  length dcdt = NumberOfSpecies lib ->
  exists (out out' : list float) (w1 w1' : World float),
    derivatives lib this t cc dcdt w = Some (out, w1) /\
    derivatives lib this t (map (smul k) cc) dcdt w = Some (out', w1') /\
    at_c (rates (kineticsMap_ w1)) = clipped cc /\
    at_c (rates (kineticsMap_ w1')) = clipped (map (smul k) cc) /\
    calls w1 !! S (length (calls w)) = Some (first_closure_query lib this cc) /\
    calls w1' !! S (length (calls w))
    = Some (first_closure_query lib this (map (smul k) cc)) /\
    thermo_P (thermoMap_ w1)
    = sum (clipped cc) * (R_J_kmol lib * thermo_T (thermoMap_ w1)) /\
    thermo_P (thermoMap_ w1')
    = sum (clipped (map (smul k) cc)) * (R_J_kmol lib * thermo_T (thermoMap_ w1')) /\
    ((NumberOfSpecies lib <= 4096)%nat ->
     sltb lit_0 k = true ->
     sltb k infinity = true ->
     sltb (sum (clipped cc)) infinity = true ->
     sltb (sum (clipped (map (smul k) cc))) infinity = true ->
     (Rabs (B2R (sum (clipped (map (smul k) cc))) - B2R k * B2R (sum (clipped cc)))
      <= / 1000000000000 * (B2R k * B2R (sum (clipped cc))) + bpow (-1062))%R).
Proof.
  intros Hthis Hcc Hdcdt.
  destruct (scaled_runs lib this t k cc dcdt w Hthis Hcc Hdcdt)
    as (out & out' & w1 & w1' & Hrun & Hrun' & Hc & Hc' & Hq & Hq' & HP & HP').
  exists out, out', w1, w1'.
  repeat (split; [assumption |]).
  intros Hn Hkpos Hkfin Hs Hs'.
  apply scaled_total; [by rewrite Hcc | exact Hkpos | exact Hkfin | exact Hs | exact Hs'].
Qed.

End Scaled_binary64.

Lemma scaled_concentrations_witness :
  exists (out out' : list float) (w1 w1' : World float),
    derivatives mixture64 reactor64 0%float cc64 field64 fresh_world = Some (out, w1) /\
    derivatives mixture64 reactor64 0%float (map (smul 2%float) cc64) field64 fresh_world
    = Some (out', w1') /\
    thermo_P (thermoMap_ w1')
    = smul (sum (clipped (map (smul 2%float) cc64)))
        (smul (R_J_kmol mixture64) (thermo_T (thermoMap_ w1'))) /\
    (Rabs (B2R (sum (clipped (map (smul 2%float) cc64)))
           - B2R 2%float * B2R (sum (clipped cc64)))
     <= / 1000000000000 * (B2R 2%float * B2R (sum (clipped cc64))) + bpow (-1062))%R.
Proof.
  destruct (scaled_concentrations mixture64 reactor64 0%float 2%float cc64 field64
              fresh_world)
    as (out & out' & w1 & w1' & Hrun & Hrun' & _ & _ & _ & _ & _ & HP' & Hsum);
    [exact constructed_reactor64 | reflexivity | reflexivity |].
  exists out, out', w1, w1'. split; [exact Hrun |]. split; [exact Hrun' |].
  split; [exact HP' |].
  apply Hsum; [simpl; lia | reflexivity | reflexivity | reflexivity | reflexivity].
Defined.

(** C2 as stated fails: doubling the concentrations 1/128 and 1/256 of the
    test mixture changes the temperature [derivatives] arrives at (381.5957 K
    against 381.5934 K) and nearly doubles the pressure (37180.8 Pa against
    74361.2 Pa): the first iteration asks for another enthalpy. Nor does the
    total scale by k in binary64: three times the entries 0.1 and 0.7 add up
    to 2.3999999999999995, three times their total is 2.4, and the first
    mole fraction changes with it. *)
Lemma scaling_changes_temperature_and_pressure :
  map (smul 2%float) cc64 = [0x1p-6; 0x1p-7]%float /\
  option_map (fun r => thermoMap_ (snd r))
    (derivatives mixture64 reactor64 0%float cc64 field64 fresh_world)
  = Some {| thermo_T := 0x1.7d987d7db3ec5p+8%float;
            thermo_P := 0x1.2279a0283600dp+15%float |} /\
  option_map (fun r => thermoMap_ (snd r))
    (derivatives mixture64 reactor64 0%float (map (smul 2%float) cc64) field64 fresh_world)
  = Some {| thermo_T := 0x1.7d97e6c4d75dfp+8%float;
            thermo_P := 0x1.22792d6cf61bp+16%float |} /\
  option_map (fun r => calls (snd r) !! 1%nat)
    (derivatives mixture64 reactor64 0%float cc64 field64 fresh_world)
  <> option_map (fun r => calls (snd r) !! 1%nat)
       (derivatives mixture64 reactor64 0%float (map (smul 2%float) cc64) field64
          fresh_world) /\
  sum (clipped (map (smul 3%float) tenths64)) = 0x1.3333333333332p+1%float /\
  smul 3%float (sum (clipped tenths64)) = 0x1.3333333333333p+1%float /\
  mole_fractions (clipped (map (smul 3%float) tenths64))
  = [0x1.0000000000002p-3; 0x1.cp-1]%float /\
  mole_fractions (clipped tenths64) = [0x1.0000000000001p-3; 0x1.cp-1]%float.
Proof.
  repeat split; try (vm_compute; reflexivity).
  vm_compute. intros Heq. inversion Heq.
Qed.

(** ** The model at work *)

(** The ordinary mixture: the rate of A -> B is 0.5 * T * c_A with
    T = 381.5957 K, which gives -1.4906 and 1.4906 kmol/m3/s. *)
Example derivatives_cc64 :
  option_map fst (derivatives mixture64 reactor64 0%float cc64 field64 fresh_world)
  = Some [-0x1.7d987d7db3ec5p+0; 0x1.7d987d7db3ec5p+0]%float.
Proof. vm_compute. reflexivity. Qed.

Example jacobian_cc64 :
  option_map fst (jacobian mixture64 reactor64 0%float cc64 field64 matrix64 fresh_world)
  = Some ([0; 0]%float,
          [[-0x1.7d987d7db3ec5p+7; 0]; [0x1.7d987d7db3ec5p+7; 0]]%float).
Proof. vm_compute. reflexivity. Qed.

(** A concentration field shorter than the number of species is read
    outside its bounds, and an output field that is too short is written
    outside: the model gives no result there. *)
Lemma derivatives_outside {D : Type} `{Scalar D} (lib : OpenSMOKE D)
    (this : batchAdiabaticOdeSystem D) (t : D) (cc dcdt : list D) (w : World D) :
  (length cc < NumberOfSpecies lib)%nat ->
  derivatives lib this t cc dcdt w = None.
Proof.
  intros Hcc. unfold derivatives.
  by rewrite bind_unfold, (fill_index_outside (fun cci => std_max cci lit_0)).
Qed.

Example derivatives_short_input :
  derivatives mixture64 reactor64 0%float [0x1p-7]%float field64 fresh_world = None.
Proof. apply derivatives_outside. simpl. lia. Qed.

Example derivatives_short_output :
  derivatives mixture64 reactor64 0%float cc64 [1]%float fresh_world = None.
Proof. vm_compute. reflexivity. Qed.

(** * Further properties of the code *)

(** ** Configuration: the constructor and the setters (lines 54-75) *)

Section Configuration.

Context {D : Type}.

Implicit Types (r : batchAdiabaticOdeSystem D) (T P U : D).

(** X1: once the three setters have been called on an object the constructor
    built, in whatever order, the object holds exactly the three values
    given and the iteration budget 10: nothing of the indeterminate initial
    values or of earlier settings is left. *)
Theorem configuration_complete r T P U :
  constructed r ->
  let configured :=
    {| TInitial_ := T; PInitial_ := P; U_ := U; maxIterations_ := 10 |} in
  setInternalEnergy (setInitialPressure (setInitialTemperature r T) P) U = configured /\
  setInitialPressure (setInternalEnergy (setInitialTemperature r T) U) P = configured /\
  setInternalEnergy (setInitialTemperature (setInitialPressure r P) T) U = configured /\
  setInitialTemperature (setInternalEnergy (setInitialPressure r P) U) T = configured /\
  setInitialPressure (setInitialTemperature (setInternalEnergy r U) T) P = configured /\
  setInitialTemperature (setInitialPressure (setInternalEnergy r U) P) T = configured /\
  constructed configured.
Proof.
  intros Hr. cbv zeta.
  pose proof (constructed_maxIterations r Hr) as Hmax.
  assert (setInternalEnergy (setInitialPressure (setInitialTemperature r T) P) U
          = {| TInitial_ := T; PInitial_ := P; U_ := U; maxIterations_ := 10 |}) as Heq.
  { unfold setInternalEnergy, setInitialPressure, setInitialTemperature. simpl.
    by rewrite Hmax. }
  repeat split;
    try (unfold setInternalEnergy, setInitialPressure, setInitialTemperature; simpl;
         by rewrite Hmax).
  rewrite <-Heq. by repeat constructor.
Qed.

End Configuration.

Lemma configuration_complete_witness :
  setInitialTemperature
    (setInitialPressure (setInternalEnergy reactor64 740000%float) 101325%float)
    1000%float
  = reactor64.
Proof.
  destruct (configuration_complete reactor64 1000%float 101325%float 740000%float
              constructed_reactor64) as (_ & _ & _ & _ & _ & Heq & _).
  exact Heq.
Defined.

(** ** Bounds: which entries are read and written (lines 85-91, 118-119) *)

Section Bounds.

Context {D : Type} `{Scalar D}.

Variable lib : OpenSMOKE D.
Variable this : batchAdiabaticOdeSystem D.

Implicit Types (w : World D) (cc dcdt dfdt : list D).

Local Open Scope scalar_scope.

(** A loop that overwrites entry after entry of a field that is too short
    runs off its end. *)
Lemma for_overwrite_outside {A} (g : nat -> A) n
    (body : nat -> list A -> M D (list A)) (l : list A) w :
  (length l < n)%nat ->
  (forall i l', (i < n)%nat -> length l' = length l ->
     body i l' w
     = if decide (i < length l)%nat then Some (<[i:=g i]> l', w) else None) ->
  for_ n body l w = None.
Proof.
  intros Hn Hbody. induction n as [|n IH]; [lia |].
  simpl. rewrite bind_unfold.
  destruct (decide (length l < n)%nat) as [Hlt|Hge].
  - rewrite IH; [reflexivity | exact Hlt |].
    intros i l' Hi. apply Hbody. lia.
  - rewrite (for_overwrite g n body l w); [| lia |].
    + rewrite Hbody; [| lia |].
      * by rewrite decide_False by lia.
      * rewrite length_app, length_map, length_seq, length_drop. lia.
    + intros i l' Hi Hl'. rewrite Hbody by lia. by rewrite decide_True by lia.
Qed.

(** [derivatives] up to its last loop: with a concentration field that is
    long enough, everything but the writes into [dcdt] is done. *)
Lemma derivatives_writes t cc dcdt w :
  (NumberOfSpecies lib <= length cc)%nat ->
  derivatives lib this t cc dcdt w
  = for_ (NumberOfSpecies lib)
      (fun i dcdt =>
         Ri ← index (map (FormationRates lib (closed_rates_input lib this cc))
                       (seq 0 (NumberOfSpecies lib))) i;
         assign dcdt i Ri)
      dcdt (derivatives_world lib this cc w).
Proof.
  intros Hcc. unfold derivatives.
  destruct (reconstruction_eq lib cc w Hcc) as [Hc Hx].
  rewrite bind_unfold, Hc, bind_unfold, Hx, bind_unfold. simpl.
  rewrite bind_unfold, derivatives_closure_eq.
  unfold derivatives_world, closed_rates_input, reconstruction_calls,
    reconstruct_and_close. cbv zeta.
  set (c := clipped (take (NumberOfSpecies lib) cc)).
  set (xs := mole_fractions c).
  set (mw := MolecularWeight_From_MoleFractions lib xs).
  set (k := closure_iterations lib this _ (sum c) mw xs _).
  destruct (closure_state lib this (sum c) mw xs
              (TInitial_ this, PInitial_ this) k) as [T P] eqn:HTP.
  repeat (rewrite bind_unfold; simpl).
  unfold record, add_calls. simpl.
  repeat (rewrite <-app_assoc; simpl). reflexivity.
Qed.

(** X2: in the model an access outside a field has no result. [derivatives] has
    one exactly when both fields hold at least [nEqns()] entries: it reads
    cc[0..N-1], writes dcdt[0..N-1], and touches no other index. *)
Theorem derivatives_in_bounds t cc dcdt w :
  is_Some (derivatives lib this t cc dcdt w)
  <-> (nEqns lib this <= length cc)%nat /\ (nEqns lib this <= length dcdt)%nat.
Proof.
  unfold nEqns. split.
  - intros Hsome.
    destruct (decide (NumberOfSpecies lib <= length cc)%nat) as [Hcc|Hcc].
    + split; [exact Hcc |].
      destruct (decide (NumberOfSpecies lib <= length dcdt)%nat) as [Hd|Hd];
        [exact Hd | exfalso].
      rewrite derivatives_writes in Hsome by exact Hcc.
      rewrite (for_overwrite_outside
                 (FormationRates lib (closed_rates_input lib this cc))) in Hsome.
      * by destruct Hsome.
      * lia.
      * intros i l' Hi Hl'. rewrite bind_unfold.
        rewrite (index_Some _ _
                   (FormationRates lib (closed_rates_input lib this cc) i));
          [| by rewrite list_lookup_fmap, lookup_seq_lt by lia].
        unfold assign. rewrite Hl'. reflexivity.
    + exfalso. rewrite derivatives_outside in Hsome by lia. by destruct Hsome.
  - intros [Hcc Hd]. rewrite derivatives_eq by lia. by eexists.
Qed.

(** X3: fields longer than the system: [derivatives] reads the first N
    concentrations only and leaves every entry of [dcdt] from index N on as
    it was, without changing its length. *)
Theorem derivatives_frame t cc dcdt w :
  (NumberOfSpecies lib <= length cc)%nat ->
  (NumberOfSpecies lib <= length dcdt)%nat ->
  exists (out : list D) (w' : World D),
    derivatives lib this t cc dcdt w = Some (out, w') /\
    length out = length dcdt /\
    drop (NumberOfSpecies lib) out = drop (NumberOfSpecies lib) dcdt /\
    derivatives lib this t (take (NumberOfSpecies lib) cc) dcdt w = Some (out, w').
Proof.
  intros Hcc Hd.
  exists (derivatives_result lib this cc dcdt), (derivatives_world lib this cc w).
  split; [apply derivatives_eq; lia |].
  assert (reconstruct_and_close lib this (take (NumberOfSpecies lib) cc)
          = reconstruct_and_close lib this cc) as Hs.
  { unfold reconstruct_and_close. by rewrite take_take, Nat.min_id. }
  split; [| split].
  - unfold derivatives_result.
    rewrite length_app, length_map, length_seq, length_drop. lia.
  - unfold derivatives_result.
    rewrite drop_app_length'; [reflexivity |].
    by rewrite length_map, length_seq.
  - rewrite derivatives_eq; [| rewrite length_take; lia | lia].
    unfold derivatives_result, derivatives_world, closed_rates_input,
      reconstruction_calls.
    by rewrite Hs.
Qed.

End Bounds.

Lemma derivatives_frame_witness :
  exists (out : list float) (w' : World float),
    derivatives mixture64 reactor64 0%float [0x1p-7; 0x1p-8; 5]%float [1; 1; 7; 9]%float
      fresh_world = Some (out, w') /\
    drop 2 out = [7; 9]%float /\
    derivatives mixture64 reactor64 0%float cc64 [1; 1; 7; 9]%float fresh_world
    = Some (out, w').
Proof.
  destruct (derivatives_frame mixture64 reactor64 0%float [0x1p-7; 0x1p-8; 5]%float
              [1; 1; 7; 9]%float fresh_world)
    as (out & w' & Hrun & _ & Hdrop & Htake); [simpl; lia | simpl; lia |].
  exists out, w'. split; [exact Hrun |]. split; [exact Hdrop | exact Htake].
Defined.

(** ** The order of the service calls (lines 92-115, 132-154) *)

Section Protocol.

Context {D : Type} `{Scalar D}.

Variable lib : OpenSMOKE D.
Variable this : batchAdiabaticOdeSystem D.

Implicit Types (w : World D) (cc dcdt dfdt : list D) (dfdc : list (list D)).

(** X4: one evaluation calls the services in a fixed order: the molecular
    weight, then nothing but enthalpy inversions, then temperature and
    pressure set once on the thermodynamic map and once on the kinetics map,
    each to the final (T, P), and only then the kinetics queries:
    [ReactionRates] and [FormationRates] in [derivatives], the single
    [DerivativesOfFormationRates] in [jacobian], which never asks for the
    rates themselves. *)
Theorem set_before_query t cc dcdt dfdt dfdc w :
  length cc = NumberOfSpecies lib ->
  length dcdt = NumberOfSpecies lib ->
  length dfdt = NumberOfSpecies lib ->
  square lib dfdc ->
  exists (out : list D) (w1 : World D) (jac : list D * list (list D)) (w2 : World D)
         (inversions : list (Call D)) (T P : D),
    derivatives lib this t cc dcdt w = Some (out, w1) /\
    jacobian lib this t cc dfdt dfdc w = Some (jac, w2) /\
    Forall (fun e => is_closure_iteration e = true) inversions /\
    calls w1
    = calls w
      ++ Thermo_MolecularWeight_From_MoleFractions (mole_fractions (clipped cc))
         :: inversions
      ++ [Thermo_SetTemperature T; Thermo_SetPressure P;
          Kinetics_SetTemperature T; Kinetics_SetPressure P;
          Kinetics_ReactionRates (clipped cc); Kinetics_FormationRates] /\
    calls w2
    = calls w
      ++ Thermo_MolecularWeight_From_MoleFractions (mole_fractions (clipped cc))
         :: inversions
      ++ [Thermo_SetTemperature T; Thermo_SetPressure P;
          Kinetics_SetTemperature T; Kinetics_SetPressure P;
          Kinetics_DerivativesOfFormationRates (clipped cc)].
Proof.
  intros Hcc Hdcdt Hdfdt Hdfdc.
  destruct (reconstruct_and_close_full lib this cc Hcc) as (Hc & HcTot & Hx & Hmw).
  exists (derivatives_result lib this cc dcdt), (derivatives_world lib this cc w),
    (jacobian_dfdt lib dfdt, jacobian_dfdc lib this cc), (jacobian_world lib this cc w),
    (closure_queries lib this
       (closed_cTot (reconstruct_and_close lib this cc))
       (closed_mw (reconstruct_and_close lib this cc))
       (closed_x (reconstruct_and_close lib this cc))
       (TInitial_ this, PInitial_ this)
       (closed_iterations (reconstruct_and_close lib this cc))),
    (closed_T (reconstruct_and_close lib this cc)),
    (closed_P (reconstruct_and_close lib this cc)).
  split; [apply derivatives_eq; lia |].
  split; [apply jacobian_eq; [lia | lia | exact Hdfdc] |].
  split.
  { unfold closure_queries. apply Forall_forall. intros e He.
    apply in_map_iff in He. destruct He as (j & <- & _). reflexivity. }
  split.
  - unfold derivatives_world, reconstruction_calls. cbv zeta. cbn [calls].
    rewrite Hc, Hx. simpl. by rewrite <-!app_assoc.
  - unfold jacobian_world, reconstruction_calls. cbv zeta. cbn [calls].
    rewrite Hc, Hx. simpl. by rewrite <-!app_assoc.
Qed.

End Protocol.

Lemma set_before_query_witness :
  exists (out : list float) (w1 : World float),
    derivatives mixture64 reactor64 0%float cc64 field64 fresh_world = Some (out, w1) /\
    drop 10 (calls w1)
    = [Thermo_SetTemperature 0x1.7d987d7db3ec5p+8%float;
       Thermo_SetPressure 0x1.2279a0283600dp+15%float;
       Kinetics_SetTemperature 0x1.7d987d7db3ec5p+8%float;
       Kinetics_SetPressure 0x1.2279a0283600dp+15%float;
       Kinetics_ReactionRates cc64; Kinetics_FormationRates].
Proof.
  destruct (set_before_query mixture64 reactor64 0%float cc64 field64 field64 matrix64
              fresh_world)
    as (out & w1 & jac & w2 & inv & T & P & Hrun & _);
    [reflexivity | reflexivity | reflexivity | exact square_matrix64 |].
  exists out, w1. split; [exact Hrun |].
  vm_compute in Hrun. injection Hrun as _ <-. vm_compute. reflexivity.
Defined.

(** ** Clipping (lines 85-87) *)

Section Clipping.

Context {D : Type} `{Scalar D}.

Implicit Types (cc : list D) (v : D).

Local Open Scope scalar_scope.

(** Zero is not less than itself in the arithmetic at hand. *)
Hypothesis zero_not_negative : (lit_0 <? lit_0) = false.

Lemma std_max_not_negative v : (std_max v lit_0 <? lit_0) = false.
Proof using zero_not_negative.
  unfold std_max. destruct (v <? lit_0) eqn:Hv; [exact zero_not_negative | exact Hv].
Qed.

Lemma std_max_idempotent v : std_max (std_max v lit_0) lit_0 = std_max v lit_0.
Proof using zero_not_negative.
  unfold std_max at 1. by rewrite std_max_not_negative.
Qed.

Lemma clipped_not_negative cc : Forall (fun v => (v <? lit_0) = false) (clipped cc).
Proof using zero_not_negative.
  unfold clipped. induction cc as [|v cc IH]; simpl; constructor; [| exact IH].
  apply std_max_not_negative.
Qed.

Lemma clipped_idempotent cc : clipped (clipped cc) = clipped cc.
Proof using zero_not_negative.
  unfold clipped. rewrite map_map. apply map_ext. intros v.
  apply std_max_idempotent.
Qed.

End Clipping.

Section Clipping_binary64.

Variable lib : OpenSMOKE float.
Variable this : batchAdiabaticOdeSystem float.

(** X5: in binary64 no concentration handed to the kinetics map tests less than
    zero, whatever the integrator passed in, and clipping a second time
    changes nothing: [derivatives] on the clipped copy returns what it
    returns on the raw input. *)
Theorem kinetics_never_sees_negative t (cc dcdt : list float) (w : World float) :
  length cc = NumberOfSpecies lib ->
  length dcdt = NumberOfSpecies lib ->
  exists (out : list float) (w' : World float),
    derivatives lib this t cc dcdt w = Some (out, w') /\
    list.last (calls w') = Some Kinetics_FormationRates /\
    at_c (rates (kineticsMap_ w')) = clipped cc /\
    Forall (fun v => PrimFloat.ltb v 0%float = false) (at_c (rates (kineticsMap_ w'))) /\
    derivatives lib this t (clipped cc) dcdt w = Some (out, w').
Proof.
  intros Hcc Hdcdt.
  destruct (reconstruct_and_close_full lib this cc Hcc) as (Hc & _).
  exists (derivatives_result lib this cc dcdt), (derivatives_world lib this cc w).
  split; [apply derivatives_eq; lia |].
  split.
  { unfold derivatives_world. cbn [calls].
    change [Kinetics_ReactionRates (closed_c (reconstruct_and_close lib this cc));
            Kinetics_FormationRates]
      with ([Kinetics_ReactionRates (closed_c (reconstruct_and_close lib this cc))]
            ++ [Kinetics_FormationRates : Call float]).
    by rewrite !app_assoc, last_snoc. }
  split; [exact Hc |].
  split.
  { cbn [derivatives_world kineticsMap_ rates closed_rates_input at_c]. rewrite Hc.
    exact (clipped_not_negative (H := binary64) eq_refl cc). }
  rewrite derivatives_eq by (rewrite ?length_clipped; lia).
  assert (reconstruct_and_close lib this (clipped cc)
          = reconstruct_and_close lib this cc) as Hs.
  { apply reconstruct_and_close_clipped; [by rewrite length_clipped | exact Hcc |].
    exact (clipped_idempotent (H := binary64) eq_refl cc). }
  unfold derivatives_result, derivatives_world, closed_rates_input, reconstruction_calls.
  by rewrite Hs.
Qed.

End Clipping_binary64.

Lemma kinetics_never_sees_negative_witness :
  exists (out : list float) (w' : World float),
    derivatives mixture64 reactor64 0%float overshoot64 field64 fresh_world
    = Some (out, w') /\
    at_c (rates (kineticsMap_ w')) = [0x1p-7; 0]%float /\
    derivatives mixture64 reactor64 0%float [0x1p-7; 0]%float field64 fresh_world
    = Some (out, w').
Proof.
  destruct (kinetics_never_sees_negative mixture64 reactor64 0%float overshoot64 field64
              fresh_world)
    as (out & w' & Hrun & _ & Hc & _ & Hrun'); [reflexivity | reflexivity |].
  exists out, w'. split; [exact Hrun |]. split; [exact Hc | exact Hrun'].
Defined.

(** ** The iteration budget (lines 97-104) *)

Section Budget.

Context {D : Type} `{Scalar D}.

Variable lib : OpenSMOKE D.
Variable this : batchAdiabaticOdeSystem D.

Implicit Types (w : World D) (x : list D) (TP : D * D).

(** Once some iteration meets the tolerance, a larger budget runs the same
    iterations. *)
Lemma closure_iterations_met n m cTot mw x TP k :
  (0 < k <= n)%nat -> (n <= m)%nat ->
  stops_at lib this cTot mw x TP k = true ->
  closure_iterations lib this m cTot mw x TP
  = closure_iterations lib this n cTot mw x TP.
Proof.
  revert m TP k. induction n as [|n IH]; intros m TP k Hk Hm Hstop; [lia |].
  destruct m as [|m]; [lia |]. simpl.
  destruct (tolerance_met _ _) eqn:Htest; [reflexivity |].
  destruct k as [|[|k]]; [lia | |].
  - rewrite stops_at_1 in Hstop. simpl in Hstop. congruence.
  - rewrite stops_at_S in Hstop. f_equal.
    apply (IH m _ (S k)); [lia | lia | exact Hstop].
Qed.

(** X6: the budget matters only while the tolerance is not met: if the test of
    line 103 succeeds at some iteration k within the budget n, the loop
    gives the same temperature and pressure, after the same queries, under
    any larger budget. *)
Theorem budget_irrelevant_once_met n m cTot mw x P T w k :
  (0 < k <= n)%nat -> (n <= m)%nat ->
  stops_at lib this cTot mw x (T, P) k = true ->
  derivatives_closure lib this m cTot mw x P T w
  = derivatives_closure lib this n cTot mw x P T w /\
  jacobian_closure lib this m cTot mw x P T w
  = derivatives_closure lib this n cTot mw x P T w.
Proof.
  intros Hk Hm Hstop.
  assert (derivatives_closure lib this m cTot mw x P T w
          = derivatives_closure lib this n cTot mw x P T w) as Heq.
  { rewrite (derivatives_closure_eq lib this m), (derivatives_closure_eq lib this n).
    by rewrite (closure_iterations_met n m cTot mw x (T, P) k Hk Hm Hstop). }
  split; [exact Heq |].
  exact (eq_trans (jacobian_closure_eq lib this m cTot mw x P T w) Heq).
Qed.

End Budget.

Lemma budget_irrelevant_once_met_witness :
  derivatives_closure mixture64 reactor64 25 0x1.8p-7%float 0x1.5555555555555p+3%float
    [0x1.5555555555555p-1; 0x1.5555555555555p-2]%float 101325%float 1000%float fresh_world
  = derivatives_closure mixture64 reactor64 10 0x1.8p-7%float 0x1.5555555555555p+3%float
      [0x1.5555555555555p-1; 0x1.5555555555555p-2]%float 101325%float 1000%float fresh_world.
Proof.
  destruct (budget_irrelevant_once_met mixture64 reactor64 10 25 0x1.8p-7%float
              0x1.5555555555555p+3%float
              [0x1.5555555555555p-1; 0x1.5555555555555p-2]%float
              101325%float 1000%float fresh_world 9) as [Heq _];
    [lia | lia | vm_compute; reflexivity | exact Heq].
Defined.

(** ** A NaN among the concentrations, in binary64 (lines 87-104) *)

Section NaN_input.

Variable lib : OpenSMOKE float.
Variable this : batchAdiabaticOdeSystem float.

Implicit Types (w : World float) (cc c x dcdt : list float) (TP : float * float).

Local Open Scope scalar_scope.

Lemma nan_add_l y : PrimFloat.add nan y = nan.
Proof.
  apply FloatAxioms.Prim2SF_inj. rewrite FloatAxioms.add_spec.
  change (FloatOps.Prim2SF nan) with SpecFloat.S754_nan. reflexivity.
Qed.

Lemma nan_add_r v : PrimFloat.add v nan = nan.
Proof.
  apply FloatAxioms.Prim2SF_inj. rewrite FloatAxioms.add_spec.
  change (FloatOps.Prim2SF nan) with SpecFloat.S754_nan.
  destruct (FloatOps.Prim2SF v); reflexivity.
Qed.

Lemma nan_mul_l y : PrimFloat.mul nan y = nan.
Proof.
  apply FloatAxioms.Prim2SF_inj. rewrite FloatAxioms.mul_spec.
  change (FloatOps.Prim2SF nan) with SpecFloat.S754_nan. reflexivity.
Qed.

Lemma nan_div_r v : PrimFloat.div v nan = nan.
Proof.
  apply FloatAxioms.Prim2SF_inj. rewrite FloatAxioms.div_spec.
  change (FloatOps.Prim2SF nan) with SpecFloat.S754_nan.
  destruct (FloatOps.Prim2SF v); reflexivity.
Qed.

Lemma nan_ltb_l y : PrimFloat.ltb nan y = false.
Proof.
  rewrite FloatAxioms.ltb_spec.
  change (FloatOps.Prim2SF nan) with SpecFloat.S754_nan. reflexivity.
Qed.

(** [std::max(NaN, 0.)] is NaN: clipping lets it through. *)
Lemma clipped_nan cc : nan ∈ cc -> nan ∈ clipped cc.
Proof.
  intros Hnan. unfold clipped.
  exact (list_elem_of_fmap_2 (fun cci => std_max cci lit_0) cc nan Hnan).
Qed.

Lemma fold_left_add_nan c : fold_left PrimFloat.add c nan = nan.
Proof.
  induction c as [|v c IH]; [reflexivity |]. simpl. by rewrite nan_add_l.
Qed.

Lemma fold_left_add_has_nan c a : nan ∈ c -> fold_left PrimFloat.add c a = nan.
Proof.
  revert a. induction c as [|v c IH]; intros a Hnan.
  - by apply elem_of_nil in Hnan.
  - apply elem_of_cons in Hnan as [<- | Hnan]; simpl.
    + by rewrite nan_add_r, fold_left_add_nan.
    + by apply IH.
Qed.

(** One NaN makes the total NaN. *)
Lemma sum_has_nan c : nan ∈ c -> sum c = nan.
Proof.
  intros Hnan. destruct c as [|c0 rest]; [by apply elem_of_nil in Hnan |].
  apply elem_of_cons in Hnan as [<- | Hnan]; simpl.
  - apply fold_left_add_nan.
  - by apply fold_left_add_has_nan.
Qed.

Lemma mole_fractions_nan_total c :
  sum c = nan -> mole_fractions c = replicate (length c) nan.
Proof.
  intros Hsum. unfold mole_fractions. rewrite Hsum. clear Hsum.
  induction c as [|v c IH]; [reflexivity |].
  simpl. f_equal; [apply nan_div_r | exact IH].
Qed.

(** With a NaN total the pressure update gives NaN and the test fails. *)
Lemma closure_step_nan mw x TP : snd (closure_step lib this nan mw x TP) = nan.
Proof. unfold closure_step. simpl. apply nan_mul_l. Qed.

Lemma tolerance_met_nan Pold : tolerance_met Pold nan = false.
Proof. unfold tolerance_met. simpl. by rewrite nan_div_r, nan_ltb_l. Qed.

Lemma closure_iterations_nan n mw x TP :
  closure_iterations lib this n nan mw x TP = n.
Proof.
  revert TP. induction n as [|n IH]; intros TP; [reflexivity |].
  cbn [closure_iterations]. cbv zeta.
  by rewrite closure_step_nan, tolerance_met_nan, IH.
Qed.

Lemma closure_state_nan mw x TP k :
  (0 < k)%nat -> snd (closure_state lib this nan mw x TP k) = nan.
Proof.
  intros Hk. destruct k as [|k]; [lia |].
  unfold closure_state. cbn [Nat.iter nat_rect]. apply closure_step_nan.
Qed.

(** X7: a NaN among the concentrations is not detected either: it passes the
    clipping, turns the total and every mole fraction into NaN, keeps the
    test of line 103 from ever succeeding, so that all ten iterations run
    whatever the thermodynamic map answers, and NaN is the pressure pushed
    into both maps before the kinetics map is evaluated on the
    concentrations that contain it. *)
Theorem nan_concentration_poisons t cc dcdt w :
  constructed this ->
  length cc = NumberOfSpecies lib ->
  length dcdt = NumberOfSpecies lib ->
  nan ∈ cc ->
  exists (out : list float) (w' : World float) (new : list (Call float)),
    derivatives lib this t cc dcdt w = Some (out, w') /\
    calls w' = calls w ++ new /\
    head new
    = Some (Thermo_MolecularWeight_From_MoleFractions
              (replicate (NumberOfSpecies lib) nan)) /\
    length (filter is_closure_iteration new) = 10%nat /\
    thermo_P (thermoMap_ w') = nan /\
    kinetics_P (kineticsMap_ w') = nan /\
    at_c (rates (kineticsMap_ w')) = clipped cc /\
    nan ∈ clipped cc.
Proof.
  intros Hthis Hcc Hdcdt Hnan.
  pose proof (constructed_maxIterations this Hthis) as Hmax.
  destruct (reconstruct_and_close_full lib this cc Hcc) as (Hc & HcTot & Hx & Hmw).
  pose proof (clipped_nan cc Hnan) as Hclip.
  pose proof (sum_has_nan (clipped cc) Hclip) as Hsum.
  pose proof (mole_fractions_nan_total (clipped cc) Hsum) as Hxs.
  rewrite length_clipped, Hcc in Hxs.
  assert (closed_iterations (reconstruct_and_close lib this cc) = 10%nat) as Hk.
  { unfold reconstruct_and_close. cbn [closed_iterations].
    rewrite take_ge by lia. rewrite Hsum, closure_iterations_nan, Hmax. reflexivity. }
  assert (closed_P (reconstruct_and_close lib this cc) = nan) as HP.
  { pose proof (closed_state_of lib this cc) as HTP.
    rewrite HcTot, Hsum, Hk in HTP.
    change (closed_P (reconstruct_and_close lib this cc))
      with (snd (closed_T (reconstruct_and_close lib this cc),
                 closed_P (reconstruct_and_close lib this cc))).
    rewrite HTP. apply closure_state_nan. lia. }
  exists (derivatives_result lib this cc dcdt), (derivatives_world lib this cc w),
    (reconstruction_calls lib this cc
       ++ [Kinetics_ReactionRates (closed_c (reconstruct_and_close lib this cc));
           Kinetics_FormationRates]).
  split; [apply derivatives_eq; lia |].
  split; [reflexivity |].
  split; [unfold reconstruction_calls; cbv zeta; cbn [app head]; by rewrite Hx, Hxs |].
  split.
  { rewrite reconstruction_calls_iterations by (by repeat constructor). exact Hk. }
  split; [exact HP |]. split; [exact HP |]. split; [exact Hc | exact Hclip].
Qed.

End NaN_input.

Lemma nan_concentration_poisons_witness :
  exists (out : list float) (w' : World float),
    derivatives mixture64 reactor64 0%float [0x1p-7; nan]%float field64 fresh_world
    = Some (out, w') /\
    kinetics_P (kineticsMap_ w') = nan.
Proof.
  destruct (nan_concentration_poisons mixture64 reactor64 0%float [0x1p-7; nan]%float
              field64 fresh_world)
    as (out & w' & new & Hrun & _ & _ & _ & _ & HP & _);
    [exact constructed_reactor64 | reflexivity | reflexivity | |].
  - apply elem_of_cons. right. apply elem_of_cons. by left.
  - exists out, w'. split; [exact Hrun | exact HP].
Defined.

(** ** Bounds of the Jacobian fields (lines 156-161) *)

Section Jacobian_bounds.

Context {D : Type} `{Scalar D}.

Variable lib : OpenSMOKE D.
Variable this : batchAdiabaticOdeSystem D.

Implicit Types (w : World D) (cc dfdt : list D) (m dfdc : list (list D)).

(** Row [i] exists and has at least [n] columns. *)
Definition row_holds (n : nat) m (i : nat) : Prop :=
  exists row, m !! i = Some row /\ (n <= length row)%nat.

#[local] Instance row_holds_dec n m i : Decision (row_holds n m i).
Proof.
  unfold row_holds. destruct (m !! i) as [row|].
  - destruct (decide (n <= length row)%nat) as [Hle|Hgt].
    + left. by exists row.
    + right. intros (row' & Heq & Hle). congruence.
  - right. by intros (row' & Heq & _).
Defined.

(** A row that is too short is written past its end. *)
Lemma for_row_short (g : nat -> D) n i m row w :
  m !! i = Some row ->
  (length row < n)%nat ->
  for_ n (fun j m' => assign2 m' i j (g j)) m w = None.
Proof.
  intros Hrow Hn. induction n as [|n IH]; [lia |].
  simpl. rewrite bind_unfold.
  destruct (decide (length row < n)%nat) as [Hlt|Hge]; [by rewrite IH |].
  rewrite (for_row g n i m row w Hrow) by lia.
  pose proof (lookup_lt_Some _ _ _ Hrow) as Hi.
  unfold assign2. rewrite bind_unfold.
  rewrite (index_Some _ _ (map g (seq 0 n) ++ drop n row));
    [| by apply list_lookup_insert_eq].
  rewrite bind_unfold. unfold assign at 1.
  rewrite decide_False; [reflexivity |].
  rewrite length_app, length_map, length_seq, length_drop. lia.
Qed.

(** A row that does not exist cannot be written at all. *)
Lemma for_row_missing (g : nat -> D) n i m w :
  m !! i = None ->
  (0 < n)%nat ->
  for_ n (fun j m' => assign2 m' i j (g j)) m w = None.
Proof.
  intros Hrow Hn. destruct n as [|n]; [lia |]. clear Hn.
  induction n as [|n IH].
  - simpl. unfold assign2. rewrite !bind_unfold. simpl.
    unfold index. by rewrite Hrow.
  - change (for_ (S (S n)) (fun j m' => assign2 m' i j (g j)) m w)
      with ((for_ (S n) (fun j m' => assign2 m' i j (g j)) m
             ≫= (fun m' => assign2 m' i (S n) (g (S n)))) w).
    by rewrite bind_unfold, IH.
Qed.

Lemma for_row_fails (g : nat -> D) n i m w :
  (0 < n)%nat ->
  ~ row_holds n m i ->
  for_ n (fun j m' => assign2 m' i j (g j)) m w = None.
Proof.
  intros Hn Hbad. destruct (m !! i) as [row|] eqn:Hrow.
  - apply for_row_short with (row := row); [exact Hrow |].
    destruct (decide (n <= length row)%nat) as [Hle|Hgt]; [| lia].
    exfalso. apply Hbad. by exists row.
  - by apply for_row_missing.
Qed.

(** The first [p] rows, each wide enough: the loop gets through them and
    touches no other row. *)
Lemma for_rows_hold (g : nat -> nat -> D) n p m w :
  (forall i, (i < p)%nat -> row_holds n m i) ->
  exists m', for_ p (fun i m' => for_ n (fun j m'' => assign2 m'' i j (g i j)) m') m w
             = Some (m', w) /\
             forall i, (p <= i)%nat -> m' !! i = m !! i.
Proof.
  intros Hrows.
  apply (for_invariant (fun p' m' => forall i, (p' <= i)%nat -> m' !! i = m !! i)).
  - done.
  - intros i m' Hi Hinv.
    destruct (Hrows i Hi) as (row & Hrow & Hlen).
    exists (<[i:=map (g i) (seq 0 n) ++ drop n row]> m'). split.
    + apply for_row; [| exact Hlen]. rewrite Hinv by lia. exact Hrow.
    + intros i' Hi'. rewrite list_lookup_insert_ne by lia. apply Hinv. lia.
Qed.

(** One row among the first [p] that is missing or too narrow: the loop
    leaves the matrix. *)
Lemma for_rows_fail (g : nat -> nat -> D) n p m w :
  (0 < n)%nat ->
  (exists i, (i < p)%nat /\ ~ row_holds n m i) ->
  for_ p (fun i m' => for_ n (fun j m'' => assign2 m'' i j (g i j)) m') m w = None.
Proof.
  intros Hn. induction p as [|p IH]; intros (i & Hi & Hbad); [lia |].
  simpl. rewrite bind_unfold.
  destruct (decide (Forall (row_holds n m) (seq 0 p))) as [Hall|Hnot].
  - rewrite Forall_forall in Hall.
    destruct (for_rows_hold g n p m w) as (m' & Hrun & Hinv).
    { intros i' Hi'. apply Hall. apply in_seq. lia. }
    rewrite Hrun. apply for_row_fails; [exact Hn |].
    assert (i = p) as ->.
    { destruct (decide (i = p)) as [Heq|Hne]; [exact Heq | exfalso].
      apply Hbad, Hall. apply in_seq. lia. }
    intros (row & Hrow & Hlen). apply Hbad. exists row.
    split; [| exact Hlen]. rewrite <-Hinv by lia. exact Hrow.
  - rewrite IH; [reflexivity |].
    apply not_Forall_Exists in Hnot; [| intros i'; apply row_holds_dec].
    apply Exists_exists in Hnot as (i' & Hin & Hbad').
    exists i'. split; [| exact Hbad'].
    apply in_seq in Hin. lia.
Qed.

(** [jacobian] up to its write loops. *)
Lemma jacobian_writes t cc dfdt dfdc w :
  (NumberOfSpecies lib <= length cc)%nat ->
  jacobian lib this t cc dfdt dfdc w
  = (dfdt' ← for_ (NumberOfSpecies lib) (fun i dfdt => assign dfdt i lit_0) dfdt;
     dfdc' ← for_ (NumberOfSpecies lib) (fun i dfdc =>
                for_ (NumberOfSpecies lib) (fun j dfdc =>
                  assign2 dfdc i j (dR_over_dC lib this cc i j)) dfdc) dfdc;
     mret (dfdt', dfdc')) (jacobian_world lib this cc w).
Proof.
  intros Hcc. unfold jacobian.
  destruct (reconstruction_eq lib cc w Hcc) as [Hc Hx].
  rewrite bind_unfold, Hc, bind_unfold, Hx, bind_unfold. simpl.
  rewrite bind_unfold, (jacobian_closure_eq lib this _ _ _ _ _ _ _),
    derivatives_closure_eq.
  unfold jacobian_world, dR_over_dC, closed_rates_input, reconstruction_calls,
    reconstruct_and_close. cbv zeta.
  set (c := clipped (take (NumberOfSpecies lib) cc)).
  set (xs := mole_fractions c).
  set (mw := MolecularWeight_From_MoleFractions lib xs).
  set (k := closure_iterations lib this _ (sum c) mw xs _).
  destruct (closure_state lib this (sum c) mw xs
              (TInitial_ this, PInitial_ this) k) as [T P] eqn:HTP.
  do 5 (rewrite bind_unfold; simpl).
  unfold record, add_calls, rates_input. simpl.
  repeat (rewrite <-app_assoc; simpl). reflexivity.
Qed.

(** X10: [jacobian] has a result exactly when the three fields are large enough:
    at least [nEqns()] concentrations and entries of [dfdt], and, unless the
    system is empty, at least that many rows of [dfdc] with at least that
    many columns each. It reads and writes no index beyond. *)
Theorem jacobian_in_bounds t cc dfdt dfdc w :
  is_Some (jacobian lib this t cc dfdt dfdc w)
  <-> (nEqns lib this <= length cc)%nat /\
      (nEqns lib this <= length dfdt)%nat /\
      forall i, (i < nEqns lib this)%nat -> row_holds (nEqns lib this) dfdc i.
Proof.
  unfold nEqns. split.
  - intros Hsome.
    destruct (decide (NumberOfSpecies lib <= length cc)%nat) as [Hcc|Hcc].
    2: { exfalso. unfold jacobian in Hsome.
         rewrite bind_unfold,
           (fill_index_outside (fun cci => std_max cci lit_0)) in Hsome by lia.
         by destruct Hsome. }
    split; [exact Hcc |].
    rewrite jacobian_writes in Hsome by exact Hcc. rewrite bind_unfold in Hsome.
    destruct (decide (NumberOfSpecies lib <= length dfdt)%nat) as [Hd|Hd].
    2: { exfalso.
         rewrite (for_overwrite_outside (fun _ : nat => lit_0)) in Hsome;
           [by destruct Hsome | lia |].
         intros i l' Hi Hl'. unfold assign. by rewrite Hl'. }
    split; [exact Hd |].
    rewrite (for_overwrite (fun _ : nat => lit_0)) in Hsome;
      [| exact Hd | intros i l' Hi Hl'; apply assign_Some; lia].
    rewrite bind_unfold in Hsome.
    intros i Hi.
    destruct (decide (row_holds (NumberOfSpecies lib) dfdc i)) as [Hok|Hbad];
      [exact Hok | exfalso].
    rewrite for_rows_fail in Hsome; [by destruct Hsome | lia |].
    by exists i.
  - intros (Hcc & Hd & Hrows).
    rewrite jacobian_writes by exact Hcc. rewrite bind_unfold.
    rewrite (for_overwrite (fun _ : nat => lit_0));
      [| exact Hd | intros i l' Hi Hl'; apply assign_Some; lia].
    rewrite bind_unfold.
    destruct (for_rows_hold (dR_over_dC lib this cc) (NumberOfSpecies lib)
                (NumberOfSpecies lib) dfdc (jacobian_world lib this cc w) Hrows)
      as (m' & Hrun & _).
    rewrite Hrun. by eexists.
Qed.

End Jacobian_bounds.
